(** * gdpr-mcp: chunking, trigram index, vector search and rank fusion

    A shallow embedding of the gdpr-mcp server (packages [ingest], [db]
    and [server]): the chunker and the ingestion of a text, the reads and
    writes of the database, the two tools and the dispatch of requests,
    together with the properties its specification states about it and
    further properties of the code.

    Conventions.
    - A Go [string] that holds text is represented by the sequence of code
      points that [[]rune(s)] yields ([text]); [len(s)] is then the length
      of its UTF-8 encoding ([str_len]) and a byte slice [s[:n]] is taken on
      the encoding ([utf8_encode]).  Strings that are cut at byte offsets
      (snippets) are kept as byte sequences ([bytes]).
    - Go [int]/[int64] values are integers in [Z]; the one product that can
      leave the 64-bit range ([limit*2]) is wrapped explicitly.
    - [float32]/[float64] arithmetic is an interface ([Float64], [Float32]):
      every theorem holds for any implementation of it, and the standard
      library's IEEE 754 numbers are used to run the code on examples and
      to show what a theorem asks of the arithmetic.
    - The database is the content of its tables ([DB], [Store]); a
      statement fails while the connection has an error, or when it
      binds more parameters than SQLite takes, and the constraints of
      schema.sql (keys, foreign keys) decide what an insertion does.
    - What the environment gives is an input: the response of the
      embeddings provider, the time, and what [json.Unmarshal] makes of
      the raw arguments of a request.  Reading requests from standard
      input ([Run]), reading files ([IngestFile]) and the HTTP exchange
      with the provider ([openAIEmbedding]) are not part of this
      development. *)

From Stdlib Require Import ZArith Lia.
From Stdlib Require SpecFloat DecimalString.
From stdpp Require Import base list sorting gmap strings.

Local Open Scope Z_scope.

(** ** Text, runes and UTF-8 *)

Module GoText.

Abbreviation rune := Z (only parsing).
Abbreviation byte := Z (only parsing).
Abbreviation text := (list Z) (only parsing).
Abbreviation bytes := (list Z) (only parsing).

Definition RuneError : rune := 0xFFFD.
Definition MaxRune : rune := 0x10FFFF.

(** [utf8.AppendRune]: the encoding of one code point.  Surrogates and
    values outside the Unicode range are written as U+FFFD. *)
Definition utf8_EncodeRune (r : rune) : bytes :=
  if (0 <=? r) && (r <=? 0x7F) then [r]
  else if (0 <=? r) && (r <=? 0x7FF) then
    [Z.lor 0xC0 (Z.shiftr r 6); Z.lor 0x80 (Z.land r 0x3F)]
  else
    let r := if (r <? 0) || (MaxRune <? r) || ((0xD800 <=? r) && (r <=? 0xDFFF))
             then RuneError else r in
    if r <=? 0xFFFF then
      [Z.lor 0xE0 (Z.shiftr r 12);
       Z.lor 0x80 (Z.land (Z.shiftr r 6) 0x3F);
       Z.lor 0x80 (Z.land r 0x3F)]
    else
      [Z.lor 0xF0 (Z.shiftr r 18);
       Z.lor 0x80 (Z.land (Z.shiftr r 12) 0x3F);
       Z.lor 0x80 (Z.land (Z.shiftr r 6) 0x3F);
       Z.lor 0x80 (Z.land r 0x3F)].

(** [string(runes)] *)
Definition utf8_encode (s : text) : bytes := concat (map utf8_EncodeRune s).

(** [len(s)] of a string: the number of bytes of its encoding. *)
Definition str_len (s : text) : Z := Z.of_nat (length (utf8_encode s)).

(** [len(runes)] of a rune slice. *)
Definition rune_count (s : text) : Z := Z.of_nat (length s).

(** [unicode.IsSpace] *)
Definition unicode_IsSpace (r : rune) : bool :=
  ((0x09 <=? r) && (r <=? 0x0D)) || (r =? 0x20) || (r =? 0x85) || (r =? 0xA0)
  || (r =? 0x1680) || ((0x2000 <=? r) && (r <=? 0x200A))
  || (r =? 0x2028) || (r =? 0x2029) || (r =? 0x202F) || (r =? 0x205F)
  || (r =? 0x3000).

Fixpoint TrimLeft (s : text) : text :=
  match s with
  | [] => []
  | c :: rest => if unicode_IsSpace c then TrimLeft rest else s
  end.

Fixpoint TrimRight (s : text) : text :=
  match s with
  | [] => []
  | c :: rest =>
      match TrimRight rest with
      | [] => if unicode_IsSpace c then [] else [c]
      | kept => c :: kept
      end
  end.

(** [strings.TrimSpace] *)
Definition TrimSpace (s : text) : text := TrimRight (TrimLeft s).

(** [strings.ReplaceAll(s, "\r\n", "\n")] *)
Fixpoint ReplaceCRLF (s : text) : text :=
  match s with
  | [] => []
  | c :: rest =>
      match rest with
      | d :: rest' =>
          if (c =? 13) && (d =? 10) then 10 :: ReplaceCRLF rest'
          else c :: ReplaceCRLF rest
      | [] => [c]
      end
  end.

(** [runes[lo:hi]] *)
Definition slice {A} (l : list A) (lo hi : Z) : list A :=
  take (Z.to_nat (hi - lo)) (drop (Z.to_nat lo) l).

(** [runes[lo:hi]] is evaluated when [0 <= lo <= hi <= len(runes)]; the
    slice expression panics otherwise.  (No bound of the code exceeds
    [len(runes)], so the capacity of the slice plays no part.) *)
Definition slice_in_range {A} (l : list A) (lo hi : Z) : bool :=
  (0 <=? lo) && (lo <=? hi) && (hi <=? Z.of_nat (length l)).

(** [runes[i]] *)
Definition at_index (l : text) (i : Z) : option rune :=
  if i <? 0 then None else l !! Z.to_nat i.

(** Text literals for the examples. *)
Fixpoint runes_of (s : string) : text :=
  match s with
  | EmptyString => []
  | String a rest => Z.of_N (Ascii.N_of_ascii a) :: runes_of rest
  end.

End GoText.

Import GoText.

(** [strings.ToLower] maps [unicode.ToLower] over the runes of a string
    ([strings.Map]): a negative result drops the rune, and a result that is
    no Unicode scalar value is written, and read back, as U+FFFD.  The case
    table itself is an interface. *)
Class CaseTable := { unicode_ToLower : rune -> rune }.

Definition scalar_value (r : rune) : rune :=
  if (MaxRune <? r) || ((0xD800 <=? r) && (r <=? 0xDFFF)) then RuneError else r.

Definition strings_ToLower `{CaseTable} (s : text) : text :=
  flat_map (fun c => let r := unicode_ToLower c in
                     if r <? 0 then [] else [scalar_value r]) s.

(** The ASCII part of the case table; every other rune is left as it is. *)
Definition ascii_ToLower (r : rune) : rune :=
  if (65 <=? r) && (r <=? 90) then r + 32 else r.

Definition ascii_case : CaseTable := {| unicode_ToLower := ascii_ToLower |}.

(** ** Numbers *)

(** [int] arithmetic wraps around at 64 bits. *)
Definition wrap_int (z : Z) : Z := (z + 2 ^ 63) mod 2 ^ 64 - 2 ^ 63.

(** The operations of [float64] that the code uses. *)
Class Float64 := {
  float64 : Type;
  f64_of_int : Z -> float64;
  f64_add : float64 -> float64 -> float64;
  f64_mul : float64 -> float64 -> float64;
  f64_div : float64 -> float64 -> float64;
  f64_sqrt : float64 -> float64;
  f64_eqb : float64 -> float64 -> bool;
  f64_gtb : float64 -> float64 -> bool
}.

(** The operations of [float32], its conversions and [math.Float32bits]. *)
Class Float32 `{Float64} := {
  float32 : Type;
  f32_of_int : Z -> float32;
  f32_add : float32 -> float32 -> float32;
  f32_mul : float32 -> float32 -> float32;
  f32_div : float32 -> float32 -> float32;
  f32_gtb : float32 -> float32 -> bool;
  f64_of_f32 : float32 -> float64;
  f32_of_f64 : float64 -> float32;
  Float32bits : float32 -> Z;
  Float32frombits : Z -> float32
}.

(** ** Library behaviour that the language leaves open *)

(** [less] is a strict weak ordering on the elements of [l]: what
    [sort.Slice] asks of its comparison. *)
Definition strict_weak_on {A} (less : A -> A -> bool) (l : list A) : bool :=
  forallb (fun x => negb (less x x)) l
  && forallb (fun x => forallb (fun y => forallb (fun z =>
       (implb (less x y && less y z) (less x z))
       && (implb (negb (less x y) && negb (less y x)
                  && negb (less y z) && negb (less z y))
                 (negb (less x z) && negb (less z x)))) l) l) l.

(** No element is [less] than one that stands before it. *)
Definition sorted_by {A} (less : A -> A -> bool) (l : list A) : Prop :=
  forall (i j : nat) x y, (i < j)%nat -> l !! i = Some x -> l !! j = Some y ->
    less y x = false.

(** [sort.Slice] is not stable and the iteration order of a map is not
    specified: both are taken as given, with what the language promises. *)
Class GoRuntime := {
  sort_Slice : forall {A}, (A -> A -> bool) -> list A -> list A;
  sort_Slice_perm : forall A (less : A -> A -> bool) l, sort_Slice less l ≡ₚ l;
  sort_Slice_sorted : forall A (less : A -> A -> bool) l,
    strict_weak_on less l = true -> sorted_by less (sort_Slice less l);
  map_range : forall {V}, gmap Z V -> list (Z * V);
  map_range_perm : forall V (m : gmap Z V), map_range m ≡ₚ map_to_list m
}.

(** What SQLite promises for [ORDER BY key DESC] and for the order of the
    rows of a [SELECT] without [ORDER BY]: some order, and it is the
    engine's (a function of the rows), not the program's. *)
Class SqlEngine := {
  order_by_desc : forall {A}, (A -> Z) -> list A -> list A;
  order_by_desc_perm : forall A (key : A -> Z) l, order_by_desc key l ≡ₚ l;
  order_by_desc_sorted : forall A (key : A -> Z) l (i j : nat) x y,
    (i < j)%nat -> order_by_desc key l !! i = Some x ->
    order_by_desc key l !! j = Some y -> key y <= key x;
  scan_order : forall {A}, list A -> list A;
  scan_order_perm : forall A (l : list A), scan_order l ≡ₚ l
}.

(** ** Package db *)

Module Db.

(** The statements the package sends to the database. *)
Inductive Stmt :=
| SelectDocument (id : Z)
| SelectTrigramMatches (trigrams : list text) (limit : Z)
| SelectEmbeddings.

(** The number of parameters ([?]) a statement binds: one for each query
    trigram and one for the limit, in the statement of the lexical
    search. *)
Definition bound_variables (q : Stmt) : Z :=
  match q with
  | SelectDocument _ => 1
  | SelectTrigramMatches trigrams limit => Z.of_nat (length trigrams) + 1
  | SelectEmbeddings => 0
  end.

(** SQLite prepares no statement with more parameters than this: 32766 in
    the library the driver (mattn/go-sqlite3) is built with. *)
Definition SQLITE_MAX_VARIABLE_NUMBER : Z := 32766.

(** How a call ends: with a value, with an [error], or in a run-time panic. *)
Inductive Outcome (A : Type) :=
| Ok (a : A)
| Err (msg : string)
| Panic.
Arguments Ok {A} a.
Arguments Err {A} msg.
Arguments Panic {A}.

(** A computation that talks to the database: the statements it issued, in
    order, and how it ended. *)
Definition Exec (A : Type) : Type := list Stmt * Outcome A.

Definition exec_ret {A} (a : A) : Exec A := ([], Ok a).

Definition exec_bind {A B} (m : Exec A) (k : A -> Exec B) : Exec B :=
  match m with
  | (tr, Ok a) => let '(tr', r) := k a in (tr ++ tr', r)
  | (tr, Err e) => (tr, Err e)
  | (tr, Panic) => (tr, Panic)
  end.

(** [fmt.Errorf(prefix + ": %w", err)] on the error path *)
Definition wrap_err {A} (prefix : string) (m : Exec A) : Exec A :=
  match m with
  | (tr, Err e) => (tr, Err (prefix +:+ ": " +:+ e))
  | _ => m
  end.

Notation "'do' x <- m ; k" := (exec_bind m (fun x => k))
  (at level 10, x name, m at level 100, k at level 200).

Definition exec_lift {A} (o : Outcome A) : Exec A := ([], o).

Definition issued {A} (m : Exec A) : list Stmt := fst m.
Definition outcome {A} (m : Exec A) : Outcome A := snd m.

(** [if len(l) > limit { l = l[:limit] }]; the slice expression panics on
    a negative bound. *)
Definition truncate {A} (l : list A) (limit : Z) : Outcome (list A) :=
  if Z.of_nat (length l) >? limit then
    if limit <? 0 then Panic else Ok (take (Z.to_nat limit) l)
  else Ok l.

Record Document := {
  Document_ID : Z;
  Chunk : text;
  ChunkIndex : Z
}.

(** The tables of schema.sql, and the state of the connection: [conn_err]
    is the error every statement fails with while the database cannot be
    reached. *)
Record DB := {
  documents : list Document;
  trigrams : list (text * Z);
  embeddings : list (Z * bytes);
  conn_err : option string
}.

(** The constraints of the schema: primary keys are unique and the rows of
    [trigrams] and [embeddings] refer to documents. *)
Definition schema_ok (db : DB) : Prop :=
  NoDup (map Document_ID (documents db))
  /\ NoDup (map fst (embeddings db))
  /\ (forall t id, (t, id) ∈ trigrams db -> id ∈ map Document_ID (documents db))
  /\ (forall id b, (id, b) ∈ embeddings db -> id ∈ map Document_ID (documents db)).

(** [LIMIT n]: a negative [n] is no limit. *)
Definition sql_limit {A} (n : Z) (rows : list A) : list A :=
  if n <? 0 then rows else take (Z.to_nat n) rows.

(** The body of the loop of GenerateTrigrams: the window at [i], kept
    when it was not seen before. *)
Definition trigram_step (runes : text) (st : gmap (list Z) bool * list text) (i : Z)
  : gmap (list Z) bool * list text :=
  let '(seen, trigrams) := st in
  let t := slice runes i (i + 3) in
  if negb (default false (seen !! t))
  then (<[t := true]> seen, trigrams ++ [t])
  else (seen, trigrams).

(** [GenerateTrigrams] *)
Definition GenerateTrigrams `{CaseTable} (s : text) : list text :=
  let s := strings_ToLower s in
  let s := TrimSpace s in
  if str_len s <? 3 then []
  else
    let runes := s in
    snd (foldl (trigram_step runes) (∅, [])
           (map Z.of_nat (seq 0 (Z.to_nat (rune_count runes - 3 + 1))))).

(** [binary.LittleEndian.PutUint32] and [binary.LittleEndian.Uint32] *)
Definition PutUint32 (v : Z) : bytes :=
  [Z.land v 0xFF; Z.land (Z.shiftr v 8) 0xFF;
   Z.land (Z.shiftr v 16) 0xFF; Z.land (Z.shiftr v 24) 0xFF].

Definition Uint32 (b0 b1 b2 b3 : byte) : Z :=
  Z.lor (Z.lor b0 (Z.shiftl b1 8)) (Z.lor (Z.shiftl b2 16) (Z.shiftl b3 24)).

(** The result of [QueryRow(...).Scan(...)] *)
Inductive ScanResult (A : Type) :=
| Scanned (a : A)
| ErrNoRows
| ScanFailed (e : string).
Arguments Scanned {A} a.
Arguments ErrNoRows {A}.
Arguments ScanFailed {A} e.

Section WithNumbers.
Context {CT : CaseTable} {F64 : Float64} {F32 : Float32}
        {RT : GoRuntime} {SE : SqlEngine}.

Record SearchResult := {
  ID : Z;
  Score : float64;
  Snippet : bytes
}.

(** [float32SliceToBytes] *)
Definition float32SliceToBytes (floats : list float32) : bytes :=
  flat_map (fun f => PutUint32 (Float32bits f)) floats.

(** [bytesToFloat32Slice]: [len(bytes)/4] values, four bytes each. *)
Fixpoint bytesToFloat32Slice (bs : bytes) : list float32 :=
  match bs with
  | b0 :: b1 :: b2 :: b3 :: rest =>
      Float32frombits (Uint32 b0 b1 b2 b3) :: bytesToFloat32Slice rest
  | _ => []
  end.

(** How a call of [cosineSimilarity] leaves the function: through the
    guard on the dimensions, through the guard on the norms, or through
    the division, with its two operands. *)
Inductive CosinePath :=
| DimensionGuard
| ZeroNormGuard
| Division (dotProduct denominator : float64).

(** The body of the loop: [dotProduct], [normA] and [normB] after the
    pair of components [(x, y)]. *)
Definition cosine_step (acc : float64 * float64 * float64) (xy : float32 * float32)
  : float64 * float64 * float64 :=
  let '(dotProduct, normA, normB) := acc in
  let '(x, y) := xy in
  (f64_add dotProduct (f64_mul (f64_of_f32 x) (f64_of_f32 y)),
   f64_add normA (f64_mul (f64_of_f32 x) (f64_of_f32 x)),
   f64_add normB (f64_mul (f64_of_f32 y) (f64_of_f32 y))).

Definition cosine_sums (a b : list float32) : float64 * float64 * float64 :=
  foldl cosine_step (f64_of_int 0, f64_of_int 0, f64_of_int 0) (zip a b).

Definition cosine_path (a b : list float32) : CosinePath :=
  if negb (length a =? length b)%nat || (length a =? 0)%nat then DimensionGuard
  else
    let '(dotProduct, normA, normB) := cosine_sums a b in
    if f64_eqb normA (f64_of_int 0) || f64_eqb normB (f64_of_int 0)
    then ZeroNormGuard
    else Division dotProduct (f64_mul (f64_sqrt normA) (f64_sqrt normB)).

Definition cosineSimilarity (a b : list float32) : float64 :=
  match cosine_path a b with
  | DimensionGuard => f64_of_int 0
  | ZeroNormGuard => f64_of_int 0
  | Division dotProduct denominator => f64_div dotProduct denominator
  end.

(** [conn.Query]: the statement is issued; it fails while the database
    cannot be reached, and SQLite refuses it when it binds too many
    parameters; the rows of a statement that did not fail are scanned
    without error. *)
Definition conn_Query {A} (db : DB) (q : Stmt) (rows : list A) : Exec (list A) :=
  ([q], match conn_err db with
        | Some e => Err e
        | None =>
            if bound_variables q >? SQLITE_MAX_VARIABLE_NUMBER
            then Err "too many SQL variables"
            else Ok rows
        end).

(** [SELECT id, chunk, chunk_index FROM documents WHERE id = ?] *)
Definition select_document (db : DB) (id : Z) : ScanResult Document :=
  match conn_err db with
  | Some e => ScanFailed e
  | None =>
      match filter (fun d => Document_ID d = id) (documents db) with
      | d :: _ => Scanned d
      | [] => ErrNoRows
      end
  end.

(** [GetDocument] *)
Definition GetDocument (db : DB) (id : Z) : Exec (option Document) :=
  ([SelectDocument id],
   match select_document db id with
   | ErrNoRows => Ok None
   | ScanFailed e => Err ("failed to get document" +:+ ": " +:+ e)
   | Scanned doc => Ok (Some doc)
   end).

(** [COUNT(DISTINCT t.trigram)] over the postings of document [id] whose
    trigram is one of the query's. *)
Definition match_count (db : DB) (queryTrigrams : list text) (id : Z) : Z :=
  Z.of_nat (length (remove_dups
    (filter (fun t => t ∈ queryTrigrams)
       (map fst (filter (fun p => p.2 = id) (trigrams db)))))).

(** The rows of the join, grouped by document: a document without a
    matching posting has no row. *)
Definition trigram_groups (db : DB) (queryTrigrams : list text) : list (Z * text * Z) :=
  filter (fun row => 0 < row.2)
    (map (fun d => (Document_ID d, Chunk d, match_count db queryTrigrams (Document_ID d)))
       (documents db)).

(** [SELECT d.id, d.chunk, COUNT(DISTINCT t.trigram) ... GROUP BY d.id
     ORDER BY match_count DESC LIMIT ?] *)
Definition select_trigram_matches (db : DB) (queryTrigrams : list text) (limit : Z)
  : list (Z * text * Z) :=
  sql_limit limit (order_by_desc (fun row => row.2) (trigram_groups db queryTrigrams)).

(** The body of the loop over the rows: the score and the snippet of
    one row. *)
Definition trigram_result (queryTrigramCount : float64) (row : Z * text * Z)
  : SearchResult :=
  let '(id, chunk, matchCount) := row in
  let score := f64_div (f64_of_int matchCount) queryTrigramCount in
  let snippet := utf8_encode chunk in
  let snippet :=
    if Z.of_nat (length snippet) >? 200
    then take 200 snippet ++ [46; 46; 46] else snippet in
  {| ID := id; Score := score; Snippet := snippet |}.

(** [SearchTrigrams] *)
Definition SearchTrigrams (db : DB) (query : text) (limit : Z) : Exec (list SearchResult) :=
  let queryTrigrams := GenerateTrigrams (strings_ToLower query) in
  if (length queryTrigrams =? 0)%nat then exec_ret []
  else
    do rows <- wrap_err "failed to search trigrams"
                 (conn_Query db (SelectTrigramMatches queryTrigrams limit)
                    (select_trigram_matches db queryTrigrams limit));
    let queryTrigramCount := f64_of_int (Z.of_nat (length queryTrigrams)) in
    exec_ret (map (trigram_result queryTrigramCount) rows).

(** [SELECT e.doc_id, e.embedding, d.chunk FROM embeddings e
     JOIN documents d ON e.doc_id = d.id] *)
Definition select_embeddings (db : DB) : list (Z * bytes * text) :=
  scan_order
    (flat_map (fun e : Z * bytes =>
                 map (fun d => (e.1, e.2, Chunk d))
                     (filter (fun d => Document_ID d = e.1) (documents db)))
       (embeddings db)).

Record scored := { id : Z; score : float64; snippet : bytes }.

(** The body of the loop over the rows: the similarity and the snippet
    of one row. *)
Definition vector_scored (queryEmbedding : list float32) (row : Z * bytes * text)
  : scored :=
  let '(docID, embeddingBlob, chunk) := row in
  let embedding := bytesToFloat32Slice embeddingBlob in
  let similarity := cosineSimilarity queryEmbedding embedding in
  let snippet := utf8_encode chunk in
  let snippet :=
    if Z.of_nat (length snippet) >? 200
    then take 200 snippet ++ [46; 46; 46] else snippet in
  {| id := docID; score := similarity; snippet := snippet |}.

(** [SearchVectors] *)
Definition SearchVectors (db : DB) (queryEmbedding : list float32) (limit : Z)
  : Exec (list SearchResult) :=
  do rows <- wrap_err "failed to query embeddings"
               (conn_Query db SelectEmbeddings (select_embeddings db));
  let scoredDocs := map (vector_scored queryEmbedding) rows in
  let scoredDocs := sort_Slice (fun x y => f64_gtb (score x) (score y)) scoredDocs in
  do scoredDocs <- exec_lift (truncate scoredDocs limit);
  exec_ret (map (fun s => {| ID := id s; Score := score s; Snippet := snippet s |})
                scoredDocs).

(** [1.0 / (k + float64(i+1))] with [k = 60.0], for the entry at index [i] *)
Definition rrf_term (i : nat) : float64 :=
  f64_div (f64_of_int 1) (f64_add (f64_of_int 60) (f64_of_int (Z.of_nat i + 1))).

(** [scores[id] += x]; a missing key reads as zero. *)
Definition add_score (scores : gmap Z float64) (id : Z) (x : float64)
  : gmap Z float64 :=
  <[id := f64_add (default (f64_of_int 0) (scores !! id)) x]> scores.

Definition fuse_trigram (st : gmap Z float64 * gmap Z bytes) (ir : nat * SearchResult)
  : gmap Z float64 * gmap Z bytes :=
  let '(scores, snippets) := st in
  let '(i, r) := ir in
  (add_score scores (ID r) (rrf_term i), <[ID r := Snippet r]> snippets).

Definition fuse_vector (st : gmap Z float64 * gmap Z bytes) (ir : nat * SearchResult)
  : gmap Z float64 * gmap Z bytes :=
  let '(scores, snippets) := st in
  let '(i, r) := ir in
  (add_score scores (ID r) (rrf_term i),
   match snippets !! ID r with
   | Some _ => snippets
   | None => <[ID r := Snippet r]> snippets
   end).

(** The two maps after both loops of the fusion. *)
Definition fuse_maps (trigramResults vectorResults : list SearchResult)
  : gmap Z float64 * gmap Z bytes :=
  foldl fuse_vector
    (foldl fuse_trigram (∅, ∅) (imap pair trigramResults))
    (imap pair vectorResults).

Record scoredDoc := { doc_id : Z; doc_score : float64 }.

(** The fusion of HybridSearch: the two loops over the result lists, the
    sort of the summed scores and the cut at [limit]. *)
Definition rrf_fuse (trigramResults vectorResults : list SearchResult) (limit : Z)
  : Outcome (list SearchResult) :=
  let '(scores, snippets) := fuse_maps trigramResults vectorResults in
  let sorted := map (fun '(id, score) => {| doc_id := id; doc_score := score |})
                    (map_range scores) in
  let sorted := sort_Slice (fun x y => f64_gtb (doc_score x) (doc_score y)) sorted in
  match truncate sorted limit with
  | Ok sorted =>
      Ok (map (fun s => {| ID := doc_id s; Score := doc_score s;
                           Snippet := default [] (snippets !! doc_id s) |})
              sorted)
  | Err e => Err e
  | Panic => Panic
  end.

(** [HybridSearch]; [queryEmbedding = None] is the nil slice. *)
Definition HybridSearch (db : DB) (query : text) (queryEmbedding : option (list float32))
    (limit : Z) : Exec (list SearchResult) :=
  do trigramResults <- SearchTrigrams db query (wrap_int (limit * 2));
  match queryEmbedding with
  | None => exec_lift (truncate trigramResults limit)
  | Some queryEmbedding =>
      do vectorResults <- SearchVectors db queryEmbedding (wrap_int (limit * 2));
      exec_lift (rrf_fuse trigramResults vectorResults limit)
  end.

End WithNumbers.

(** *** The statements that write *)

(** [fmt.Sprintf("%d", n)] *)
Definition fmt_d (n : Z) : string := DecimalString.NilZero.string_of_int (Z.to_int n).

Definition MaxInt64 : Z := 2 ^ 63 - 1.

(** The database with the tables the searches do not read: [metadata],
    and the counter [sqlite_sequence] keeps for the AUTOINCREMENT key of
    [documents] (the largest id a document ever had; the code deletes
    nothing).  The keys of [trigrams] are read nowhere and left out. *)
Record Store := {
  tables : DB;
  metadata : gmap (list Z) (list Z);
  documents_seq : Z
}.

Definition with_documents (s : Store) (docs : list Document) (seq : Z) : Store :=
  {| tables := {| documents := docs;
                  trigrams := trigrams (tables s);
                  embeddings := embeddings (tables s);
                  conn_err := conn_err (tables s) |};
     metadata := metadata s;
     documents_seq := seq |}.

Definition with_trigrams (s : Store) (rows : list (list Z * Z)) : Store :=
  {| tables := {| documents := documents (tables s);
                  trigrams := rows;
                  embeddings := embeddings (tables s);
                  conn_err := conn_err (tables s) |};
     metadata := metadata s;
     documents_seq := documents_seq s |}.

Definition with_embeddings (s : Store) (rows : list (Z * list Z)) : Store :=
  {| tables := {| documents := documents (tables s);
                  trigrams := trigrams (tables s);
                  embeddings := rows;
                  conn_err := conn_err (tables s) |};
     metadata := metadata s;
     documents_seq := documents_seq s |}.

Definition with_metadata (s : Store) (m : gmap (list Z) (list Z)) : Store :=
  {| tables := tables s; metadata := m; documents_seq := documents_seq s |}.

(** The key AUTOINCREMENT gives the next document: one more than the
    largest key the table has or ever had. *)
Definition next_document_id (s : Store) : Z :=
  Z.max (documents_seq s) (foldr Z.max 0 (map Document_ID (documents (tables s)))) + 1.

(** The foreign key of [trigrams] and [embeddings] (the connection is
    opened with [_foreign_keys=on]). *)
Definition references_document (s : Store) (docID : Z) : bool :=
  bool_decide (docID ∈ map Document_ID (documents (tables s))).

(** [InsertChunk] *)
Definition InsertChunk (s : Store) (chunk : text) (chunkIndex : Z) : Store * Outcome Z :=
  match conn_err (tables s) with
  | Some e => (s, Err ("failed to insert chunk" +:+ ": " +:+ e))
  | None =>
      let id := next_document_id s in
      if MaxInt64 <? id
      then (s, Err ("failed to insert chunk" +:+ ": " +:+ "database or disk is full"))
      else (with_documents s
              (documents (tables s)
               ++ [{| Document_ID := id; Chunk := chunk; ChunkIndex := chunkIndex |}]) id,
            Ok id)
  end.

(** [stmt.Exec(trigram, docID)] inside the transaction: the row joins
    the rows the transaction holds, unless the foreign key fails. *)
Definition tx_insert_trigram (s : Store) (pending : list (text * Z))
    (trigram : text) (docID : Z) : Outcome (list (text * Z)) :=
  if references_document s docID then Ok (pending ++ [(trigram, docID)])
  else Err "FOREIGN KEY constraint failed".

(** The loop of InsertTrigrams over the trigrams. *)
Fixpoint insert_trigram_rows (s : Store) (docID : Z) (pending : list (text * Z))
    (trigrams_ : list text) : Outcome (list (text * Z)) :=
  match trigrams_ with
  | [] => Ok pending
  | trigram :: rest =>
      match tx_insert_trigram s pending trigram docID with
      | Ok pending => insert_trigram_rows s docID pending rest
      | Err e => Err ("failed to insert trigram" +:+ ": " +:+ e)
      | Panic => Panic
      end
  end.

(** [InsertTrigrams]: [tx.Commit] writes the rows of the transaction to
    the table; on every other way out the deferred [tx.Rollback] drops
    them. *)
Definition InsertTrigrams (s : Store) (docID : Z) (trigrams_ : list text)
  : Store * Outcome unit :=
  match conn_err (tables s) with
  | Some e => (s, Err ("failed to begin transaction" +:+ ": " +:+ e))
  | None =>
      match insert_trigram_rows s docID [] trigrams_ with
      | Ok pending => (with_trigrams s (trigrams (tables s) ++ pending), Ok tt)
      | Err e => (s, Err e)
      | Panic => (s, Panic)
      end
  end.

(** [SetMetadata]: [INSERT OR REPLACE] on the primary key [key]. *)
Definition SetMetadata (s : Store) (key value : text) : Store * Outcome unit :=
  match conn_err (tables s) with
  | Some e => (s, Err e)
  | None => (with_metadata s (<[key := value]> (metadata s)), Ok tt)
  end.

(** [GetMetadata] *)
Definition GetMetadata (s : Store) (key : text) : Outcome text :=
  match conn_err (tables s) with
  | Some e => Err e
  | None =>
      match metadata s !! key with
      | Some value => Ok value
      | None => Ok []
      end
  end.

Section Writes.
Context {F64 : Float64} {F32 : Float32}.

(** [InsertEmbedding]: [INSERT OR REPLACE] on the primary key [doc_id]. *)
Definition InsertEmbedding (s : Store) (docID : Z) (embedding : list float32)
  : Store * Outcome unit :=
  let blob := float32SliceToBytes embedding in
  match conn_err (tables s) with
  | Some e => (s, Err ("failed to insert embedding" +:+ ": " +:+ e))
  | None =>
      if references_document s docID
      then (with_embeddings s
              (filter (fun row => row.1 <> docID) (embeddings (tables s))
               ++ [(docID, blob)]), Ok tt)
      else (s, Err ("failed to insert embedding" +:+ ": "
                    +:+ "FOREIGN KEY constraint failed"))
  end.

End Writes.

End Db.

(** ** Package ingest: the chunker *)

Module Ingest.

Record Config := {
  ChunkSize : Z;
  ChunkOverlap : Z;
  UseOpenAI : bool;
  OpenAIKey : string;
  OpenAIModel : string
}.

Definition DefaultConfig (env_key : string) : Config :=
  {| ChunkSize := 1000; ChunkOverlap := 100; UseOpenAI := false;
     OpenAIKey := env_key; OpenAIModel := "text-embedding-3-small" |}.

(** [for i := hi; i > lo; i-- { if p(runes[i]) { ...; break } }]:
    the index at which the scan stops, if it stops. *)
Fixpoint scan_down (p : rune -> bool) (runes : text) (i : Z) (n : nat) : option Z :=
  match n with
  | O => None
  | S n' =>
      match at_index runes i with
      | Some r => if p r then Some i else scan_down p runes (i - 1) n'
      | None => scan_down p runes (i - 1) n'
      end
  end.

Definition find_back (p : rune -> bool) (runes : text) (lo hi : Z) : option Z :=
  scan_down p runes hi (Z.to_nat (hi - lo)).

Definition is_sentence_end (r : rune) : bool := (r =? 46) || (r =? 10).
Definition is_blank (r : rune) : bool := r =? 32.

(** The end of the window that starts at [start]: the raw boundary, moved
    back to a sentence end or else to a blank of the back half. *)
Definition window_end (chunkSize : Z) (runes : text) (start : Z) : Z :=
  let textLen := rune_count runes in
  let end0 := if start + chunkSize >? textLen then textLen else start + chunkSize in
  if end0 <? textLen then
    let end1 :=
      match find_back is_sentence_end runes (start + chunkSize ÷ 2) end0 with
      | Some i => i + 1
      | None => end0
      end in
    if (end1 =? start + chunkSize) && (end1 <? textLen) then
      match find_back is_blank runes (start + chunkSize ÷ 2) end1 with
      | Some i => i
      | None => end1
      end
    else end1
  else end0.

(** The start of the next window: [end - overlap], clamped to zero. *)
Definition next_start (overlap : Z) (end_ : Z) : Z :=
  if end_ - overlap <? 0 then 0 else end_ - overlap.

(** How chunkText ends: it returns its chunks, or the slice expression
    [runes[start:end]] panics. *)
Inductive Chunked :=
| Returned (chunks : list text)
| SliceOutOfRange.

(** One pass over the body of the loop, with [runes[start:end]] in range:
    the chunk list after the append, and the next [start] unless the pass
    ends in [break]. *)
Definition chunk_step (cfg : Config) (runes : text) (start : Z) (chunks : list text)
  : list text * option Z :=
  let end_ := window_end (ChunkSize cfg) runes start in
  let chunk := TrimSpace (slice runes start end_) in
  let chunks := if str_len chunk >? 0 then chunks ++ [chunk] else chunks in
  let start' := next_start (ChunkOverlap cfg) end_ in
  if end_ >=? rune_count runes then (chunks, None) else (chunks, Some start').

(** The loop [for start := 0; start < textLen; { ... }].  A pass whose
    window ends before it starts (the chunk size is negative) panics in
    [runes[start:end]].  [None]: the loop is still running after [fuel]
    passes. *)
Fixpoint chunk_loop (fuel : nat) (cfg : Config) (runes : text) (start : Z)
    (chunks : list text) : option Chunked :=
  match fuel with
  | O => None
  | S fuel' =>
      if start <? rune_count runes then
        if slice_in_range runes start (window_end (ChunkSize cfg) runes start) then
          match chunk_step cfg runes start chunks with
          | (chunks', None) => Some (Returned chunks')
          | (chunks', Some start') => chunk_loop fuel' cfg runes start' chunks'
          end
        else Some SliceOutOfRange
      else Some (Returned chunks)
  end.

(** The normalised text the loop walks over. *)
Definition normalize (t : text) : text := ReplaceCRLF (TrimSpace t).

Definition chunkText (fuel : nat) (cfg : Config) (t : text) : option Chunked :=
  let runes := normalize t in
  if rune_count runes =? 0 then Some (Returned [])
  else chunk_loop fuel cfg runes 0 [].

(** [stubEmbedding]; [range] over a string yields each rune with the byte
    offset at which it starts. *)
Definition embeddingDim : Z := 384.

Section Embedding.
Context {CT : CaseTable} {F64 : Float64} {F32 : Float32}.

(** [for i, r := range text]: each rune with the byte offset at which its
    encoding starts, the first at offset [i]. *)
Fixpoint range_string (s : text) (i : Z) : list (Z * rune) :=
  match s with
  | [] => []
  | r :: rest => (i, r) :: range_string rest (i + Z.of_nat (length (utf8_EncodeRune r)))
  end.

Definition stub_index (i : Z) (r : rune) : Z := Z.rem (r + i) embeddingDim.

Definition stub_accumulate (embedding : list float32) (ir : Z * rune) : list float32 :=
  let '(i, r) := ir in
  let idx := stub_index i r in
  alter (fun v => f32_add v (f32_div (f32_of_int r) (f32_of_int 1000)))
        (Z.to_nat idx) embedding.

Definition stubEmbedding (t : text) : list float32 :=
  let embedding := replicate (Z.to_nat embeddingDim) (f32_of_int 0) in
  let t := strings_ToLower t in
  let embedding := foldl stub_accumulate embedding (range_string t 0) in
  let norm := foldl (fun norm v => f32_add norm (f32_mul v v)) (f32_of_int 0) embedding in
  if f32_gtb norm (f32_of_int 0) then
    let norm := f32_of_f64 (f64_div (f64_of_int 1) (f64_of_f32 norm)) in
    map (fun v => f32_mul v norm) embedding
  else embedding.

(** [EmbedQuery] without the remote provider *)
Definition EmbedQuery_stub (query : text) : list float32 := stubEmbedding query.

End Embedding.

(** *** Embeddings and IngestText *)

Import Db.

(** What a call of the embeddings provider gives back: [openAIEmbedding]
    returns the vector of the response, or nil and an error.  The
    functions that call the provider take what it returns as an input. *)
Inductive Fetched (A : Type) :=
| Got (a : A)
| Failed (err : string).
Arguments Got {A} a.
Arguments Failed {A} err.

(** The lines IngestText prints. *)
Inductive Printed :=
| Ingesting (n : Z)
| WarningEmbedding (i : Z) (err : string)
| Processed (i n : Z)
| Ingested (n : Z).

Section Ingestion.
Context {CT : CaseTable} {F64 : Float64} {F32 : Float32}.

(** [generateEmbedding]; [response] is what [openAIEmbedding] returns for
    the text. *)
Definition generateEmbedding (cfg : Config) (response : Fetched (list float32))
    (t : text) : Fetched (list float32) :=
  if UseOpenAI cfg && negb (String.eqb (OpenAIKey cfg) "") then response
  else Got (stubEmbedding t).

(** [EmbedQuery] *)
Definition EmbedQuery (response : Fetched (list float32)) (query : text)
    (useOpenAI : bool) (apiKey model : string) : Fetched (list float32) :=
  if useOpenAI && negb (String.eqb apiKey "") then response
  else Got (stubEmbedding query).

(** The loop of IngestText from chunk [i] on: the store, the lines
    printed and how the loop ends.  [responses i] is the provider's
    response for chunk [i]. *)
Fixpoint ingest_chunks (cfg : Config) (responses : nat -> Fetched (list float32))
    (total : Z) (s : Store) (out : list Printed) (i : nat) (chunks : list text)
  : Store * list Printed * Outcome unit :=
  match chunks with
  | [] => (s, out, Ok tt)
  | chunk :: rest =>
      match InsertChunk s chunk (Z.of_nat i) with
      | (s, Err e) =>
          (s, out, Err ("failed to insert chunk " +:+ fmt_d (Z.of_nat i) +:+ ": " +:+ e))
      | (s, Panic) => (s, out, Panic)
      | (s, Ok docID) =>
          let trigrams := GenerateTrigrams chunk in
          match InsertTrigrams s docID trigrams with
          | (s, Err e) =>
              (s, out, Err ("failed to insert trigrams for chunk "
                            +:+ fmt_d (Z.of_nat i) +:+ ": " +:+ e))
          | (s, Panic) => (s, out, Panic)
          | (s, Ok _) =>
              let '(embedding, out) :=
                match generateEmbedding cfg (responses i) chunk with
                | Got embedding => (embedding, out)
                | Failed err =>
                    (stubEmbedding chunk, out ++ [WarningEmbedding (Z.of_nat i) err])
                end in
              match InsertEmbedding s docID embedding with
              | (s, Err e) =>
                  (s, out, Err ("failed to insert embedding for chunk "
                                +:+ fmt_d (Z.of_nat i) +:+ ": " +:+ e))
              | (s, Panic) => (s, out, Panic)
              | (s, Ok _) =>
                  let out :=
                    if (Z.of_nat i + 1) mod 10 =? 0
                    then out ++ [Processed (Z.of_nat i + 1) total] else out in
                  ingest_chunks cfg responses total s out (S i) rest
              end
          end
      end
  end.

(** [IngestText]; [now] is [time.Now().Format(time.RFC3339)].  [None]:
    the chunker is still running after [fuel] passes.  A panic of the
    chunker ends the call before anything is printed or written. *)
Definition IngestText (fuel : nat) (cfg : Config)
    (responses : nat -> Fetched (list float32)) (now : text)
    (s : Store) (content : text) : option (Store * list Printed * Outcome unit) :=
  match chunkText fuel cfg content with
  | None => None
  | Some SliceOutOfRange => Some (s, [], Panic)
  | Some (Returned chunks) =>
      let total := Z.of_nat (length chunks) in
      Some
        match ingest_chunks cfg responses total s [Ingesting total] 0 chunks with
        | (s, out, Err e) => (s, out, Err e)
        | (s, out, Panic) => (s, out, Panic)
        | (s, out, Ok _) =>
            match SetMetadata s (runes_of "ingested_at") now with
            | (s, Err e) => (s, out, Err ("failed to set metadata" +:+ ": " +:+ e))
            | (s, Panic) => (s, out, Panic)
            | (s, Ok _) =>
                match SetMetadata s (runes_of "chunk_count") (runes_of (fmt_d total)) with
                | (s, Err e) => (s, out, Err ("failed to set metadata" +:+ ": " +:+ e))
                | (s, Panic) => (s, out, Panic)
                | (s, Ok _) => (s, out ++ [Ingested total], Ok tt)
                end
            end
        end
  end.

End Ingestion.

End Ingest.


(** ** Package server: the gdpr_get tool *)

Module Server.

Import Db.

(** The text of a tool response: a message, or the JSON object of a
    document. *)
Inductive Payload :=
| Message (s : string)
| DocumentJSON (id : Z) (chunk : text) (chunk_index : Z).

Record MCPContent := { Type_ : string; Text : Payload }.

Record MCPCallToolResult := { Content : list MCPContent; IsError : bool }.

(** What a handler does with a request: it writes one response for it, or
    the process dies in a panic. *)
Inductive Reply (Id : Type) :=
| Wrote (id : Id) (result : MCPCallToolResult)
| Crashed.
Arguments Wrote {Id} id result.
Arguments Crashed {Id}.

(** The result of [json.Unmarshal] on the arguments of a call. *)
Inductive Unmarshal (A : Type) :=
| Decoded (a : A)
| DecodeError (msg : string).
Arguments Decoded {A} a.
Arguments DecodeError {A} msg.

Definition writeToolResult {Id} (id : Id) (text : Payload) : Reply Id :=
  Wrote id {| Content := [{| Type_ := "text"; Text := text |}]; IsError := false |}.

Definition writeToolError {Id} (id : Id) (message : string) : Reply Id :=
  Wrote id {| Content := [{| Type_ := "text"; Text := Message message |}];
              IsError := true |}.

(** [handleGetTool]; [json.Marshal] does not fail on the object of a
    document. *)
Definition handleGetTool {Id} (db : DB) (id : Id) (args : Unmarshal Z) : Reply Id :=
  match args with
  | DecodeError e => writeToolError id ("Invalid arguments: " +:+ e)
  | Decoded getArgs_ID =>
      if getArgs_ID <=? 0 then writeToolError id "Valid document ID is required"
      else
        match outcome (GetDocument db getArgs_ID) with
        | Err e => writeToolError id ("Failed to get document: " +:+ e)
        | Panic => Crashed
        | Ok None => writeToolError id "Document not found"
        | Ok (Some doc) =>
            writeToolResult id
              (DocumentJSON (Document_ID doc) (Chunk doc) (ChunkIndex doc))
        end
  end.

End Server.

(** ** Package server: the search tool and the dispatch of requests *)

(** [json.Marshal] refuses a [float64] that is NaN or infinite:
    [json_unsupported] is the error it returns for one. *)
Class JsonNumbers `{Float64} := { json_unsupported : float64 -> option string }.

Module Mcp.

Import Db Ingest Server.

Record Config := {
  DBPath : string;
  UseOpenAI : bool;
  OpenAIKey : string;
  OpenAIModel : string
}.

Record MCPToolsCapability := { ListChanged : bool }.
Record MCPServerCapabilities := { Tools : option MCPToolsCapability }.
Record MCPImplementation := { Name : string; Version : string }.
Record MCPInitializeResult := {
  ProtocolVersion : string;
  Capabilities : MCPServerCapabilities;
  ServerInfo : MCPImplementation
}.

(** A JSON schema; [Properties] maps a name to the object that describes
    the property. *)
Record JSONSchema := {
  Schema_Type : string;
  Properties : list (string * list (string * string));
  Required : list string
}.

Record MCPTool := {
  Tool_Name : string;
  Description : string;
  InputSchema : JSONSchema
}.

(** The raw arguments of a tool call, by what [json.Unmarshal] makes of
    them for either tool. *)
Record RawArguments := {
  as_searchArgs : Unmarshal (text * Z);
  as_getArgs : Unmarshal Z
}.

Record MCPToolCallParams := { Call_Name : string; Arguments : RawArguments }.

Section Handlers.
Context {CT : CaseTable} {F64 : Float64} {F32 : Float32}
        {RT : GoRuntime} {SE : SqlEngine} {JN : JsonNumbers}.

(** The text of a tool response: a text of gdpr_get, or the JSON array
    of the results of a search. *)
Inductive ToolText :=
| Plain (p : Payload)
| ResultsJSON (results : list SearchResult).

Record MCPContent := { Type_ : string; Text : ToolText }.
Record MCPCallToolResult := { Content : list MCPContent; IsError : bool }.

Inductive ResultBody :=
| InitializeBody (r : MCPInitializeResult)
| ToolsListBody (tools : list MCPTool)
| CallToolBody (r : MCPCallToolResult)
| EmptyBody.

(** What the server does with a request: it writes a result or an error
    for it, writes nothing, or dies in a panic. *)
Inductive Response (Id : Type) :=
| Result (id : Id) (body : ResultBody)
| Error (id : Id) (code : Z) (message : string) (data : string)
| NoResponse
| Died.
Arguments Result {Id} id body.
Arguments Error {Id} id code message data.
Arguments NoResponse {Id}.
Arguments Died {Id}.

Definition writeResult {Id} (id : Id) (body : ResultBody) : Response Id := Result id body.

Definition writeError {Id} (id : Id) (code : Z) (message data : string) : Response Id :=
  Error id code message data.

Definition writeToolResult {Id} (id : Id) (text : ToolText) : Response Id :=
  writeResult id
    (CallToolBody {| Content := [{| Type_ := "text"; Text := text |}]; IsError := false |}).

Definition writeToolError {Id} (id : Id) (message : string) : Response Id :=
  writeResult id
    (CallToolBody {| Content := [{| Type_ := "text"; Text := Plain (Message message) |}];
                     IsError := true |}).

(** [json.Marshal(results)]: the error of the first score it refuses. *)
Definition json_Marshal (results : list SearchResult) : option string :=
  head (omap (fun r => json_unsupported (Score r)) results).

(** [handleSearchTool]; [response] is what [openAIEmbedding] returns for
    the query.  The warning written to standard error when the provider
    fails is not part of the response. *)
Definition handleSearchTool {Id} (cfg : Config) (db : DB)
    (response : Fetched (list float32)) (id : Id) (args : Unmarshal (text * Z))
  : Response Id :=
  match args with
  | DecodeError e => writeToolError id ("Invalid arguments: " +:+ e)
  | Decoded (Query, Limit) =>
      if str_len Query =? 0 then writeToolError id "Query is required"
      else
        let Limit := if Limit <=? 0 then 10 else Limit in
        let queryEmbedding :=
          if UseOpenAI cfg && negb (String.eqb (OpenAIKey cfg) "") then
            match EmbedQuery response Query true (OpenAIKey cfg) (OpenAIModel cfg) with
            | Got embedding => Some embedding
            | Failed _ => None
            end
          else
            match EmbedQuery response Query false "" "" with
            | Got embedding => Some embedding
            | Failed _ => None
            end in
        match outcome (HybridSearch db Query queryEmbedding Limit) with
        | Err e => writeToolError id ("Search failed: " +:+ e)
        | Panic => Died
        | Ok results =>
            match json_Marshal results with
            | Some e => writeToolError id ("Failed to marshal results: " +:+ e)
            | None => writeToolResult id (ResultsJSON results)
            end
        end
  end.

(** The response of gdpr_get among the responses of the server. *)
Definition of_reply {Id} (r : Reply Id) : Response Id :=
  match r with
  | Wrote id res =>
      Result id
        (CallToolBody
           {| Content := map (fun c => {| Type_ := Server.Type_ c;
                                          Text := Plain (Server.Text c) |})
                             (Server.Content res);
              IsError := Server.IsError res |})
  | Crashed => Died
  end.

(** [handleToolsCall] *)
Definition handleToolsCall {Id} (cfg : Config) (db : DB)
    (response : Fetched (list float32)) (id : Id) (params : Unmarshal MCPToolCallParams)
  : Response Id :=
  match params with
  | DecodeError e => writeError id (-32602) "Invalid params" e
  | Decoded toolParams =>
      if String.eqb (Call_Name toolParams) "gdpr_search" then
        handleSearchTool cfg db response id (as_searchArgs (Arguments toolParams))
      else if String.eqb (Call_Name toolParams) "gdpr_get" then
        of_reply (handleGetTool db id (as_getArgs (Arguments toolParams)))
      else writeError id (-32602) "Unknown tool" (Call_Name toolParams)
  end.

(** [handleInitialize] *)
Definition handleInitialize {Id} (id : Id) : Response Id :=
  writeResult id
    (InitializeBody
       {| ProtocolVersion := "2024-11-05";
          Capabilities := {| Tools := Some {| ListChanged := false |} |};
          ServerInfo := {| Name := "gdpr-mcp"; Version := "1.0.0" |} |}).

Definition tools : list MCPTool :=
  [ {| Tool_Name := "gdpr_search";
       Description := "Search GDPR documents using hybrid trigram and vector search";
       InputSchema :=
         {| Schema_Type := "object";
            Properties :=
              [ ("query", [("type", "string"); ("description", "Search query string")]);
                ("limit", [("type", "integer");
                           ("description", "Maximum number of results (default: 10)")]) ];
            Required := ["query"] |} |};
    {| Tool_Name := "gdpr_get";
       Description := "Get a specific GDPR document chunk by ID";
       InputSchema :=
         {| Schema_Type := "object";
            Properties :=
              [ ("id", [("type", "integer"); ("description", "Document chunk ID")]) ];
            Required := ["id"] |} |} ].

(** [handleToolsList] *)
Definition handleToolsList {Id} (id : Id) : Response Id :=
  writeResult id (ToolsListBody tools).

(** [handlePing] *)
Definition handlePing {Id} (id : Id) : Response Id := writeResult id EmptyBody.

(** [handleRequest]; [params] is what [json.Unmarshal] makes of the raw
    parameters for a tool call. *)
Definition handleRequest {Id} (cfg : Config) (db : DB)
    (response : Fetched (list float32)) (method : string) (id : Id)
    (params : Unmarshal MCPToolCallParams) : Response Id :=
  if String.eqb method "initialize" then handleInitialize id
  else if String.eqb method "initialized" then NoResponse
  else if String.eqb method "notifications/initialized" then NoResponse
  else if String.eqb method "tools/list" then handleToolsList id
  else if String.eqb method "tools/call" then handleToolsCall cfg db response id params
  else if String.eqb method "ping" then handlePing id
  else writeError id (-32601) "Method not found" method.

End Handlers.

Arguments Result {F64 Id} id body.
Arguments Error {F64 Id} id code message data.
Arguments NoResponse {F64 Id}.
Arguments Died {F64 Id}.

End Mcp.

(** ** Implementations of the interfaces

    IEEE 754 arithmetic as the standard library specifies it (binary64
    for [float64], binary32 for [float32]), and an insertion sort for the
    orders the runtime and the database engine are free to choose. *)

Module Reference.

Import SpecFloat.

Definition b64_of_int (z : Z) : spec_float := binary_normalize 53 1024 z 0 false.

Definition spec_float64 : Float64 := {|
  float64 := spec_float;
  f64_of_int := b64_of_int;
  f64_add := SFadd 53 1024;
  f64_mul := SFmul 53 1024;
  f64_div := SFdiv 53 1024;
  f64_sqrt := SFsqrt 53 1024;
  f64_eqb := SFeqb;
  f64_gtb := fun x y => SFltb y x
|}.

(** Rounding a number to another format. *)
Definition convert (prec emax : Z) (x : spec_float) : spec_float :=
  match x with
  | S754_finite s m e => binary_normalize prec emax (cond_Zopp s (Zpos m)) e s
  | _ => x
  end.

Definition b32_bits (x : spec_float) : Z :=
  match x with
  | S754_zero s => if s then 0x80000000 else 0
  | S754_infinity s => (if s then 0x80000000 else 0) + 0x7F800000
  | S754_nan => 0x7FC00000
  | S754_finite s m e =>
      (if s then 0x80000000 else 0)
      + (if Zpos m <? 2 ^ 23 then Zpos m else (e + 150) * 2 ^ 23 + (Zpos m - 2 ^ 23))
  end.

Definition b32_frombits (v : Z) : spec_float :=
  let s := Z.testbit v 31 in
  let e := Z.land (Z.shiftr v 23) 0xFF in
  let f := Z.land v 0x7FFFFF in
  if e =? 255 then (if f =? 0 then S754_infinity s else S754_nan)
  else if e =? 0 then
    match f with Zpos m => S754_finite s m (-149) | _ => S754_zero s end
  else
    match f + 2 ^ 23 with Zpos m => S754_finite s m (e - 150) | _ => S754_nan end.

Definition spec_float32 : @Float32 spec_float64 := {|
  float32 := spec_float;
  f32_of_int := fun z => binary_normalize 24 128 z 0 false;
  f32_add := SFadd 24 128;
  f32_mul := SFmul 24 128;
  f32_div := SFdiv 24 128;
  f32_gtb := fun x y => SFltb y x;
  f64_of_f32 := convert 53 1024 : spec_float -> @float64 spec_float64;
  f32_of_f64 := convert 24 128 : @float64 spec_float64 -> spec_float;
  Float32bits := b32_bits;
  Float32frombits := b32_frombits
|}.

(** [json.Marshal] on a binary64 number: NaN and the infinities are the
    values it refuses. *)
Definition spec_json : @JsonNumbers spec_float64 := {|
  json_unsupported := fun x : @float64 spec_float64 =>
    match x with
    | S754_nan => Some "json: unsupported value: NaN"
    | S754_infinity false => Some "json: unsupported value: +Inf"
    | S754_infinity true => Some "json: unsupported value: -Inf"
    | _ => None
    end
|}.

(** Insertion sort: [x] goes before the first element it is [less] than. *)
Fixpoint insert_by {A} (less : A -> A -> bool) (x : A) (l : list A) : list A :=
  match l with
  | [] => [x]
  | y :: l' => if less x y then x :: l else y :: insert_by less x l'
  end.

Definition insertion_sort {A} (less : A -> A -> bool) (l : list A) : list A :=
  foldr (insert_by less) [] l.

Lemma insert_by_perm {A} (less : A -> A -> bool) x l :
  insert_by less x l ≡ₚ x :: l.
Proof.
  induction l as [|y l IH]; simpl; [done|].
  destruct (less x y); [done|].
  rewrite IH. apply Permutation_swap.
Qed.

Lemma insertion_sort_perm {A} (less : A -> A -> bool) l :
  insertion_sort less l ≡ₚ l.
Proof.
  induction l as [|x l IH]; simpl; [done|].
  rewrite insert_by_perm. by rewrite IH.
Qed.

(** What [strict_weak_on] gives on the elements of the list. *)
Lemma strict_weak_on_irrefl {A} (less : A -> A -> bool) l x :
  strict_weak_on less l = true -> x ∈ l -> less x x = false.
Proof.
  unfold strict_weak_on. rewrite andb_true_iff, !forallb_forall.
  intros [Hirr _] Hx. apply list_elem_of_In, Hirr in Hx.
  by destruct (less x x).
Qed.

Lemma strict_weak_on_trans {A} (less : A -> A -> bool) l x y z :
  strict_weak_on less l = true -> x ∈ l -> y ∈ l -> z ∈ l ->
  less x y = true -> less y z = true -> less x z = true.
Proof.
  unfold strict_weak_on. rewrite andb_true_iff, !forallb_forall.
  intros [_ Htr] Hx Hy Hz Hxy Hyz.
  apply list_elem_of_In, Htr in Hx. rewrite forallb_forall in Hx.
  apply list_elem_of_In, Hx in Hy. rewrite forallb_forall in Hy.
  apply list_elem_of_In, Hy in Hz.
  rewrite Hxy, Hyz in Hz. simpl in Hz. by destruct (less x z).
Qed.

Lemma strict_weak_on_intro {A} (less : A -> A -> bool) l :
  (forall x, less x x = false) ->
  (forall x y z, less x y = true -> less y z = true -> less x z = true) ->
  (forall x y z, less x y = false -> less y x = false ->
                 less y z = false -> less z y = false ->
                 less x z = false /\ less z x = false) ->
  strict_weak_on less l = true.
Proof.
  intros Hirr Htr Hinc. unfold strict_weak_on.
  rewrite andb_true_iff, !forallb_forall. split.
  - intros x _. by rewrite Hirr.
  - intros x _. rewrite forallb_forall. intros y _.
    rewrite forallb_forall. intros z _.
    rewrite andb_true_iff. split.
    + destruct (less x y) eqn:Hxy, (less y z) eqn:Hyz; simpl; try done.
      by rewrite (Htr x y z).
    + destruct (less x y) eqn:Hxy, (less y x) eqn:Hyx,
        (less y z) eqn:Hyz, (less z y) eqn:Hzy; simpl; try done.
      by destruct (Hinc x y z) as [-> ->].
Qed.

(** Sortedness along the list, element by element. *)
Definition descends {A} (less : A -> A -> bool) (l : list A) : Prop :=
  StronglySorted (fun x y => less y x = false) l.

Lemma descends_sorted_by {A} (less : A -> A -> bool) l :
  descends less l -> sorted_by less l.
Proof.
  induction 1 as [|x l Hl IH Hx]; intros i j a b Hij Hi Hj.
  - by rewrite lookup_nil in Hi.
  - destruct j as [|j]; [lia|]. simpl in Hj.
    destruct i as [|i]; simpl in Hi.
    + injection Hi as <-. rewrite Forall_forall in Hx.
      apply Hx. by eapply list_elem_of_lookup_2.
    + apply (IH i j); [lia|done..].
Qed.

Lemma insert_by_descends {A} (less : A -> A -> bool) (dom : list A) x l :
  strict_weak_on less dom = true -> x ∈ dom -> l ⊆ dom ->
  descends less l -> descends less (insert_by less x l).
Proof.
  intros Hswo Hx Hsub. induction 1 as [|y l Hl IH Hy]; simpl.
  - repeat constructor.
  - assert (y ∈ dom) as Hyd by (apply Hsub; left).
    assert (l ⊆ dom) as Hld by (intros z Hz; apply Hsub; by right).
    destruct (less x y) eqn:Hxy.
    + constructor; [by constructor|].
      constructor.
      * destruct (less y x) eqn:Hyx; [|done].
        by rewrite <- (strict_weak_on_irrefl less dom x Hswo Hx),
          <- (strict_weak_on_trans less dom x y x Hswo Hx Hyd Hx Hxy Hyx).
      * rewrite Forall_forall in Hy |- *. intros z Hz.
        destruct (less z x) eqn:Hzx; [|done].
        rewrite <- (Hy z Hz). symmetry.
        apply (strict_weak_on_trans less dom z x y Hswo); auto.
    + constructor; [by apply IH|].
      rewrite Forall_forall in Hy |- *. intros z Hz.
      rewrite insert_by_perm in Hz.
      apply elem_of_cons in Hz as [->|Hz]; [done|by apply Hy].
Qed.

Lemma insertion_sort_descends {A} (less : A -> A -> bool) l :
  strict_weak_on less l = true -> descends less (insertion_sort less l).
Proof.
  intros Hswo.
  assert (forall k, k ⊆ l -> descends less (insertion_sort less k)) as H.
  { induction k as [|x k IH]; intros Hk; simpl; [constructor|].
    apply (insert_by_descends less l); auto.
    - apply Hk; left.
    - intros z Hz. rewrite insertion_sort_perm in Hz. apply Hk. by right.
    - apply IH. intros z Hz. apply Hk. by right. }
  by apply H.
Qed.

(** A runtime whose [sort.Slice] is the insertion sort and whose maps are
    ranged over in key order. *)
Definition insertion_runtime : GoRuntime := {|
  sort_Slice := fun A less l => insertion_sort less l;
  sort_Slice_perm := fun A less l => insertion_sort_perm less l;
  sort_Slice_sorted := fun A less l H =>
    descends_sorted_by less _ (insertion_sort_descends less l H);
  map_range := fun V m => map_to_list m;
  map_range_perm := fun V m => Permutation_refl _
|}.

Definition key_desc {A} (key : A -> Z) (x y : A) : bool := key y <? key x.

Lemma key_desc_strict_weak {A} (key : A -> Z) l :
  strict_weak_on (key_desc key) l = true.
Proof.
  apply strict_weak_on_intro; unfold key_desc; intros; try split; lia.
Qed.

Lemma insertion_sort_key_desc {A} (key : A -> Z) l (i j : nat) x y :
  (i < j)%nat -> insertion_sort (key_desc key) l !! i = Some x ->
  insertion_sort (key_desc key) l !! j = Some y -> key y <= key x.
Proof.
  intros Hij Hi Hj.
  pose proof (descends_sorted_by _ _
    (insertion_sort_descends _ l (key_desc_strict_weak key l)) i j x y Hij Hi Hj) as H.
  unfold key_desc in H. lia.
Qed.

(** An engine that breaks ties of [ORDER BY] by the order of the rows and
    scans a table in insertion order. *)
Definition insertion_engine : SqlEngine := {|
  order_by_desc := fun A key l => insertion_sort (key_desc key) l;
  order_by_desc_perm := fun A key l => insertion_sort_perm _ l;
  order_by_desc_sorted := fun A key l => insertion_sort_key_desc key l;
  scan_order := fun A l => l;
  scan_order_perm := fun A l => Permutation_refl l
|}.

(** *** Division of integers in binary64

    The quotient of two integers below 2^52 is the nearest number with a
    mantissa of 53 bits, so division by a positive integer keeps the
    order of the integers. *)



























End Reference.

(** * Properties *)

Import Ingest Db Server.

(** ** Trimming and windows *)

Lemma TrimLeft_drop s :
  exists a, TrimLeft s = drop a s /\ (a <= length s)%nat /\
    forall k r, s !! k = Some r -> unicode_IsSpace r = false -> (a <= k)%nat.
Proof.
  induction s as [|c s IH]; simpl.
  - exists 0%nat. split; [done|]. split; [done|]. intros k r Hk. by rewrite lookup_nil in Hk.
  - destruct (unicode_IsSpace c) eqn:Hc.
    + destruct IH as (a & Ha & Hlen & Hk). exists (S a). split; [done|]. split; [simpl; lia|].
      intros [|k] r Hr Hsp; simpl in Hr.
      * congruence.
      * specialize (Hk k r Hr Hsp). lia.
    + exists 0%nat. split; [done|]. split; [lia|]. intros; lia.
Qed.

Lemma TrimRight_take s :
  TrimRight s = take (length (TrimRight s)) s /\
  forall k r, s !! k = Some r -> unicode_IsSpace r = false ->
    (k < length (TrimRight s))%nat.
Proof.
  induction s as [|c s [IH1 IH2]]; simpl.
  - split; [done|]. intros k r Hk. by rewrite lookup_nil in Hk.
  - destruct (TrimRight s) as [|d kept] eqn:Hs.
    + destruct (unicode_IsSpace c) eqn:Hc; simpl.
      * split; [done|]. intros [|k] r Hr Hsp; simpl in Hr; [congruence|].
        specialize (IH2 k r Hr Hsp). simpl in IH2. lia.
      * split; [done|]. intros [|k] r Hr Hsp; simpl in Hr; [lia|].
        specialize (IH2 k r Hr Hsp). simpl in IH2. lia.
    + simpl. split; [by rewrite IH1 at 1|].
      intros [|k] r Hr Hsp; simpl in Hr; [lia|].
      specialize (IH2 k r Hr Hsp). simpl in IH2. lia.
Qed.

Lemma TrimSpace_window s :
  exists a, TrimSpace s = take (length (TrimSpace s)) (drop a s) /\
    (a + length (TrimSpace s) <= length s)%nat /\
    forall k r, s !! k = Some r -> unicode_IsSpace r = false ->
      (a <= k < a + length (TrimSpace s))%nat.
Proof.
  unfold TrimSpace.
  destruct (TrimLeft_drop s) as (a & Ha & Hlen & Hk).
  destruct (TrimRight_take (TrimLeft s)) as [Ht Hr].
  exists a. rewrite Ha in *. split; [done|]. split.
  - assert (length (TrimRight (drop a s)) <= length (drop a s))%nat.
    { rewrite Ht. rewrite length_take. lia. }
    rewrite length_drop in H. lia.
  - intros k r Hkr Hsp. pose proof (Hk k r Hkr Hsp) as Hak. split; [done|].
    assert (drop a s !! (k - a)%nat = Some r) as Hd.
    { rewrite lookup_drop. by replace (a + (k - a))%nat with k by lia. }
    specialize (Hr _ _ Hd Hsp). lia.
Qed.

Lemma scan_down_range p runes i n j :
  scan_down p runes i n = Some j -> i - Z.of_nat n < j <= i.
Proof.
  revert i. induction n as [|n IH]; intros i; simpl; [done|].
  destruct (at_index runes i) as [r|].
  - destruct (p r).
    + intros [= <-]. lia.
    + intros H. apply IH in H. lia.
  - intros H. apply IH in H. lia.
Qed.

Lemma find_back_range p runes lo hi j :
  find_back p runes lo hi = Some j -> lo < j <= hi.
Proof.
  unfold find_back. intros H. apply scan_down_range in H. lia.
Qed.

Lemma window_end_bounds size runes start :
  1 <= size -> 0 <= start < rune_count runes ->
  let e := window_end size runes start in
  start < e <= rune_count runes /\ (e < rune_count runes -> start + size ÷ 2 < e).
Proof.
  intros Hsize Hstart. unfold window_end.
  assert (0 <= size ÷ 2 < size) as Hhalf.
  { split; [apply Z.quot_pos; lia|apply Z.quot_lt; lia]. }
  set (n := rune_count runes) in *.
  destruct (start + size >? n) eqn:Hgt.
  - rewrite Z.ltb_irrefl. simpl. lia.
  - destruct (start + size <? n) eqn:Hlt; [|simpl; lia].
    destruct (find_back is_sentence_end runes (start + size ÷ 2) (start + size))
      as [i|] eqn:Hs.
    + apply find_back_range in Hs.
      destruct ((i + 1 =? start + size) && (i + 1 <? n)) eqn:Hc.
      * destruct (find_back is_blank runes (start + size ÷ 2) (i + 1)) as [k|] eqn:Hw.
        -- apply find_back_range in Hw. simpl. lia.
        -- simpl. lia.
      * simpl. lia.
    + rewrite Z.eqb_refl, Hlt. simpl.
      destruct (find_back is_blank runes (start + size ÷ 2) (start + size)) as [k|] eqn:Hw.
      * apply find_back_range in Hw. simpl. lia.
      * simpl. lia.
Qed.

Lemma slice_in_range_window size runes start :
  1 <= size -> 0 <= start < rune_count runes ->
  slice_in_range runes start (window_end size runes start) = true.
Proof.
  intros Hsize Hstart.
  destruct (window_end_bounds size runes start Hsize Hstart) as [Hb _].
  unfold slice_in_range, rune_count in *. lia.
Qed.

(** The character at index [j] of [runes] lies in one of the chunks: the
    chunk is the piece of the text that starts at some [p] and reaches
    over [j]. *)
Definition covered (runes : text) (chunks : list text) (j : nat) : Prop :=
  exists c p, c ∈ chunks /\ (p <= j < p + length c)%nat /\
    take (length c) (drop p runes) = c.

Lemma covered_mono runes chunks chunks' j :
  chunks ⊆ chunks' -> covered runes chunks j -> covered runes chunks' j.
Proof. intros Hsub (c & p & Hc & Hp & Heq). exists c, p. auto. Qed.

Lemma utf8_EncodeRune_length r : (1 <= length (utf8_EncodeRune r) <= 4)%nat.
Proof.
  unfold utf8_EncodeRune.
  repeat match goal with |- context [if ?b then _ else _] => destruct b end;
    simpl; lia.
Qed.

Lemma str_len_pos (s : list Z) : (str_len s >? 0) = true <-> s <> [].
Proof.
  unfold str_len, utf8_encode. rewrite Z.gtb_lt. destruct s as [|r s]; simpl.
  - split; [lia|]. intros H; by destruct H.
  - pose proof (utf8_EncodeRune_length r). rewrite length_app.
    split; [done|]. intros _. lia.
Qed.

(** A chunk is a piece of the text: the runes from some index on. *)
Definition piece_of (runes c : text) : Prop :=
  exists p : nat, take (length c) (drop p runes) = c.

(** The trimmed window is a piece of the text that keeps every character
    of the window that is not white space. *)
Lemma trimmed_window (runes : list Z) (start e : Z) :
  let W := slice runes start e in
  exists a : nat,
    take (length (TrimSpace W)) (drop (Z.to_nat start + a) runes) = TrimSpace W
    /\ forall k r, W !! k = Some r -> unicode_IsSpace r = false ->
         (a <= k < a + length (TrimSpace W))%nat.
Proof.
  intros W. destruct (TrimSpace_window W) as (a & Htrim & Hlen & Hk).
  exists a. split; [|done].
  transitivity (take (length (TrimSpace W)) (drop a W)); [|by symmetry].
  assert (length W <= Z.to_nat (e - start))%nat as HlenW.
  { unfold W, slice. rewrite length_take. lia. }
  apply list_eq. intros i.
  destruct (decide (i < length (TrimSpace W))%nat) as [Hi|Hi].
  - rewrite !lookup_take_lt by done. rewrite !lookup_drop.
    unfold W, slice. rewrite lookup_take_lt by lia.
    rewrite lookup_drop. f_equal. lia.
  - rewrite !lookup_take_ge by lia. done.
Qed.

Lemma window_chunk_piece (runes : list Z) (start e : Z) :
  piece_of runes (TrimSpace (slice runes start e)).
Proof.
  destruct (trimmed_window runes start e) as (a & Heq & _). by eexists.
Qed.

Lemma window_chunk_covers (runes : list Z) start e j r :
  0 <= start -> start <= Z.of_nat j < e -> e <= rune_count runes ->
  runes !! j = Some r -> unicode_IsSpace r = false ->
  covered runes [TrimSpace (slice runes start e)] j.
Proof.
  intros Hs Hj He Hjr Hsp. unfold rune_count in He.
  destruct (trimmed_window runes start e) as (a & Heq & Hk).
  set (W := slice runes start e) in *.
  assert (W !! (j - Z.to_nat start)%nat = Some r) as HW.
  { unfold W, slice. rewrite lookup_take_lt by lia.
    rewrite lookup_drop. by replace (Z.to_nat start + (j - Z.to_nat start))%nat with j by lia. }
  specialize (Hk _ _ HW Hsp).
  exists (TrimSpace W), (Z.to_nat start + a)%nat.
  split; [apply list_elem_of_singleton; done|]. split; [lia|done].
Qed.

Section ChunkLoop.
Variable cfg : Config.
Variable runes : list Z.
Hypothesis size_pos : 1 <= ChunkSize cfg.
Hypothesis overlap_small : 0 <= ChunkOverlap cfg <= (ChunkSize cfg ÷ 2).

Lemma next_start_progress start :
  0 <= start < rune_count runes ->
  let e := window_end (ChunkSize cfg) runes start in
  e < rune_count runes ->
  start < next_start (ChunkOverlap cfg) e <= e.
Proof.
  intros Hs e He.
  destruct (window_end_bounds (ChunkSize cfg) runes start size_pos Hs) as [Hb Hhalf].
  fold e in Hb, Hhalf. specialize (Hhalf He).
  unfold next_start. destruct (e - ChunkOverlap cfg <? 0) eqn:Hc; lia.
Qed.

Lemma chunk_loop_covers fuel : forall start cov chunks,
  0 <= start <= cov -> start < rune_count runes ->
  rune_count runes - start < Z.of_nat fuel ->
  (forall j r, runes !! j = Some r -> unicode_IsSpace r = false ->
     Z.of_nat j < cov -> covered runes chunks j) ->
  exists more,
    chunk_loop fuel cfg runes start chunks = Some (Returned (chunks ++ more))
    /\ (forall j r, runes !! j = Some r -> unicode_IsSpace r = false ->
          covered runes (chunks ++ more) j)
    /\ (forall r, runes !! Z.to_nat start = Some r -> unicode_IsSpace r = false ->
          more <> [])
    /\ Forall (fun c => c <> [] /\ piece_of runes c) more.
Proof.
  induction fuel as [|fuel IH]; intros start cov chunks Hs Hlt Hfuel Hcov; [lia|].
  cbn [chunk_loop]. assert ((start <? rune_count runes) = true) as -> by lia.
  rewrite slice_in_range_window by (done || lia).
  unfold chunk_step.
  destruct (window_end_bounds (ChunkSize cfg) runes start size_pos) as [Hb Hhalf]; [lia|].
  set (e := window_end (ChunkSize cfg) runes start) in *.
  set (chunk := TrimSpace (slice runes start e)).
  set (added := if str_len chunk >? 0 then [chunk] else []).
  assert ((if str_len chunk >? 0 then chunks ++ [chunk] else chunks) = chunks ++ added)
    as ->.
  { unfold added. destruct (str_len chunk >? 0); [done|by rewrite app_nil_r]. }
  assert (forall j r, runes !! j = Some r -> unicode_IsSpace r = false ->
            Z.of_nat j < e -> covered runes (chunks ++ added) j) as Hcov'.
  { intros j r Hj Hsp Hje.
    destruct (decide (Z.of_nat j < cov)) as [Hlow|Hhigh].
    - eapply covered_mono; [|by eapply Hcov].
      intros c Hc. apply elem_of_app. by left.
    - pose proof (window_chunk_covers runes start e j r) as Hw.
      destruct Hw as (c & p & Hc & Hp & Heq); [lia..|done|done|].
      apply list_elem_of_singleton in Hc. subst c. fold chunk in Hp, Heq.
      assert (chunk <> []) as Hne by (intros E; rewrite E in Hp; simpl in Hp; lia).
      apply str_len_pos in Hne. unfold added. rewrite Hne.
      exists chunk, p. split; [|done].
      apply elem_of_app. right. by apply list_elem_of_singleton. }
  assert (forall r, runes !! Z.to_nat start = Some r -> unicode_IsSpace r = false ->
            added <> []) as Hfirst.
  { intros r Hr Hsp.
    destruct (window_chunk_covers runes start e (Z.to_nat start) r)
      as (c & p & Hc & Hp & Heq); [lia..|done|done|].
    apply list_elem_of_singleton in Hc. subst c. fold chunk in Hp, Heq.
    assert (chunk <> []) as Hne by (intros E; rewrite E in Hp; simpl in Hp; lia).
    apply str_len_pos in Hne. unfold added. by rewrite Hne. }
  assert (Forall (fun c => c <> [] /\ piece_of runes c) added) as Hadded.
  { unfold added. destruct (str_len chunk >? 0) eqn:E; [|constructor].
    apply str_len_pos in E. repeat constructor; [done|].
    apply window_chunk_piece. }
  destruct (e >=? rune_count runes) eqn:Hend.
  - exists added. split; [done|]. split; [|done].
    intros j r Hj Hsp. apply (Hcov' j r Hj Hsp).
    apply lookup_lt_Some in Hj. unfold rune_count in *. lia.
  - assert (e < rune_count runes) as He by lia.
    pose proof (next_start_progress start ltac:(lia) He) as Hprog. fold e in Hprog.
    destruct (IH (next_start (ChunkOverlap cfg) e) e (chunks ++ added))
      as (more & Hrun & Hall & _ & Hmore); [lia..|done|].
    exists (added ++ more). rewrite app_assoc. split; [done|]. split; [done|].
    split.
    + intros r Hr Hsp E. apply app_eq_nil in E as [E _]. by eapply Hfirst.
    + by apply Forall_app.
Qed.

End ChunkLoop.

(** ** The chunker *)

Lemma TrimRight_head c s :
  unicode_IsSpace c = false -> exists rest, TrimRight (c :: s) = c :: rest.
Proof.
  intros Hc. simpl. destruct (TrimRight s); rewrite ?Hc; eauto.
Qed.

Lemma TrimSpace_head t :
  TrimSpace t <> [] ->
  exists c rest, TrimSpace t = c :: rest /\ unicode_IsSpace c = false.
Proof.
  unfold TrimSpace. induction t as [|c t IH]; simpl; [done|].
  destruct (unicode_IsSpace c) eqn:Hc; [done|].
  intros _. destruct (TrimRight_head c t Hc) as [rest Hr].
  exists c, rest. by rewrite <- Hr.
Qed.

Lemma normalize_head t :
  TrimSpace t <> [] ->
  exists c, normalize t !! 0%nat = Some c /\ unicode_IsSpace c = false.
Proof.
  intros H. destruct (TrimSpace_head t H) as (c & rest & Heq & Hc).
  exists c. split; [|done]. unfold normalize. rewrite Heq. simpl.
  destruct rest as [|d rest]; [done|].
  assert ((c =? 13) = false) as ->; [|done].
  apply Z.eqb_neq. intros ->. by vm_compute in Hc.
Qed.

Definition config (size overlap : Z) : Config :=
  {| ChunkSize := size; ChunkOverlap := overlap; UseOpenAI := false;
     OpenAIKey := ""; OpenAIModel := "text-embedding-3-small" |}.

(** C7, as the code has it.  For a text that is not only white space and
    a configuration with [size > overlap >= 0] whose overlap is at most
    half the size, chunkText returns (any fuel above the length of the
    text is enough), the sequence it returns is not empty, every chunk is
    a piece of the normalised text and not empty, and every character of
    the normalised text that is not white space lies in a chunk.  White
    space at a cut is trimmed away. *)
Theorem chunkText_covers_text (cfg : Config) (t : text) (fuel : nat) :
  0 <= ChunkOverlap cfg < ChunkSize cfg ->
  ChunkOverlap cfg <= (ChunkSize cfg ÷ 2) ->
  TrimSpace t <> [] ->
  (length (normalize t) < fuel)%nat ->
  exists chunks,
    chunkText fuel cfg t = Some (Returned chunks)
    /\ chunks <> []
    /\ Forall (fun c => c <> [] /\ piece_of (normalize t) c) chunks
    /\ forall j r, normalize t !! j = Some r -> unicode_IsSpace r = false ->
         covered (normalize t) chunks j.
Proof.
  intros Hcfg Hhalf Hne Hfuel.
  destruct (normalize_head t Hne) as (c & Hc & Hsp).
  unfold chunkText.
  assert ((rune_count (normalize t) =? 0) = false) as ->.
  { apply Z.eqb_neq. apply lookup_lt_Some in Hc. unfold rune_count. lia. }
  destruct (chunk_loop_covers cfg (normalize t) ltac:(lia) ltac:(lia) fuel 0 0 [])
    as (more & Hrun & Hall & Hfirst & Hmore).
  - lia.
  - apply lookup_lt_Some in Hc. unfold rune_count. lia.
  - unfold rune_count. lia.
  - intros; lia.
  - exists more. simpl in *. split; [done|]. split; [by eapply Hfirst|]. done.
Qed.

Lemma chunkText_covers_text_witness :
  exists chunks,
    chunkText 36 (config 10 2) (runes_of "One. Two three four five. Six seven")
      = Some (Returned chunks)
    /\ chunks <> []
    /\ Forall (fun c => c <> []
                        /\ piece_of (normalize (runes_of "One. Two three four five. Six seven")) c)
              chunks
    /\ forall j r,
         normalize (runes_of "One. Two three four five. Six seven") !! j = Some r ->
         unicode_IsSpace r = false ->
         covered (normalize (runes_of "One. Two three four five. Six seven")) chunks j.
Proof.
  apply (chunkText_covers_text (config 10 2)
           (runes_of "One. Two three four five. Six seven") 36).
  - simpl. lia.
  - vm_compute. discriminate.
  - vm_compute. discriminate.
  - vm_compute. lia.
Defined.

(** C7 as stated fails twice.  An input of white space only is not empty
    and yields no chunk; and with no overlap the blank at which a window
    is cut is in no chunk, so the chunks together are shorter than the
    text. *)
Lemma chunkText_loses_white_space :
  runes_of " " <> []
  /\ chunkText 1 (config 1000 100) (runes_of " ") = Some (Returned [])
  /\ normalize (runes_of "aaaaaa aaaaaaaaaaaaa") = runes_of "aaaaaa aaaaaaaaaaaaa"
  /\ chunkText 21 (config 10 0) (runes_of "aaaaaa aaaaaaaaaaaaa")
     = Some (Returned [runes_of "aaaaaa"; runes_of "aaaaaaaaa"; runes_of "aaaa"])
  /\ 32 ∈ runes_of "aaaaaa aaaaaaaaaaaaa"
  /\ (32 ∉ concat [runes_of "aaaaaa"; runes_of "aaaaaaaaa"; runes_of "aaaa"])
  /\ (length (concat [runes_of "aaaaaa"; runes_of "aaaaaaaaa"; runes_of "aaaa"])
      < length (runes_of "aaaaaa aaaaaaaaaaaaa"))%nat.
Proof.
  repeat split; try (vm_compute; (reflexivity || discriminate || lia)).
  - apply list_elem_of_In. vm_compute. tauto.
  - intros H. apply list_elem_of_In in H. vm_compute in H.
    repeat destruct H as [H|H]; try discriminate H. done.
Qed.

(** C1 at a configuration with [size > overlap >= 0]: size 3, overlap 2,
    text "ab cdef".  The window [0,3) is cut at the blank, so [end = 2], a
    chunk is appended and the next start is again 0: the pass repeats for
    ever and chunkText returns for no amount of fuel. *)
Theorem chunkText_stalls :
  0 <= ChunkOverlap (config 3 2) < ChunkSize (config 3 2)
  /\ window_end 3 (runes_of "ab cdef") 0 = 2
  /\ (forall chunks, chunk_step (config 3 2) (runes_of "ab cdef") 0 chunks
                     = (chunks ++ [runes_of "ab"], Some 0))
  /\ forall fuel, chunkText fuel (config 3 2) (runes_of "ab cdef") = None.
Proof.
  split; [simpl; lia|]. split; [reflexivity|].
  assert (forall chunks, chunk_step (config 3 2) (runes_of "ab cdef") 0 chunks
                         = (chunks ++ [runes_of "ab"], Some 0)) as Hstep.
  { intros chunks. reflexivity. }
  split; [exact Hstep|].
  intros fuel. unfold chunkText.
  change (normalize (runes_of "ab cdef")) with (runes_of "ab cdef").
  change (rune_count (runes_of "ab cdef") =? 0) with false. cbv iota.
  generalize (@nil (list Z)). induction fuel as [|fuel IH]; intros chunks; [done|].
  cbn [chunk_loop].
  change (0 <? rune_count (runes_of "ab cdef")) with true. cbv iota.
  change (slice_in_range (runes_of "ab cdef") 0
            (window_end (ChunkSize (config 3 2)) (runes_of "ab cdef") 0)) with true.
  cbv iota. rewrite Hstep. apply IH.
Qed.

(** X1.  A text no longer than the chunk size, and not only white space,
    is one chunk: the trimmed text. *)
Theorem chunkText_short_text (cfg : Config) (t : text) (fuel : nat) :
  TrimSpace t <> [] ->
  rune_count (normalize t) <= ChunkSize cfg ->
  chunkText (S fuel) cfg t = Some (Returned [TrimSpace (normalize t)]).
Proof.
  intros Hne Hshort.
  destruct (normalize_head t Hne) as (c & Hc & Hsp).
  assert (0 < rune_count (normalize t)) as Hpos.
  { apply lookup_lt_Some in Hc. unfold rune_count. lia. }
  unfold chunkText.
  assert ((rune_count (normalize t) =? 0) = false) as -> by lia.
  cbn [chunk_loop].
  assert ((0 <? rune_count (normalize t)) = true) as -> by lia.
  assert (window_end (ChunkSize cfg) (normalize t) 0 = rune_count (normalize t)) as Hend.
  { unfold window_end. rewrite !Z.add_0_l.
    destruct (ChunkSize cfg >? rune_count (normalize t)) eqn:E.
    - by rewrite Z.ltb_irrefl.
    - assert (ChunkSize cfg = rune_count (normalize t)) as -> by lia.
      by rewrite Z.ltb_irrefl. }
  rewrite Hend.
  assert (slice_in_range (normalize t) 0 (rune_count (normalize t)) = true) as ->.
  { unfold slice_in_range, rune_count in *. lia. }
  unfold chunk_step. rewrite Hend.
  assert (slice (normalize t) 0 (rune_count (normalize t)) = normalize t) as ->.
  { unfold slice, rune_count. simpl. rewrite Z.sub_0_r, Nat2Z.id. apply firstn_all. }
  assert (TrimSpace (normalize t) <> []) as Hchunk.
  { destruct (TrimSpace_window (normalize t)) as (a & _ & _ & Hk).
    specialize (Hk 0%nat c Hc Hsp). intros E. rewrite E in Hk. simpl in Hk. lia. }
  apply str_len_pos in Hchunk. rewrite Hchunk.
  by assert ((rune_count (normalize t) >=? rune_count (normalize t)) = true) as -> by lia.
Qed.

Lemma chunkText_short_text_witness :
  chunkText 1 (config 1000 100) (runes_of "Short text.")
  = Some (Returned [runes_of "Short text."]).
Proof.
  apply (chunkText_short_text (config 1000 100) (runes_of "Short text.") 0).
  - vm_compute. discriminate.
  - vm_compute. discriminate.
Defined.

(** ** Trigrams *)

Lemma strings_ToLower_length `{CaseTable} (s : text) :
  (length (strings_ToLower s) <= length s)%nat.
Proof.
  unfold strings_ToLower. induction s as [|c s IH]; simpl; [done|].
  rewrite length_app. destruct (unicode_ToLower c <? 0); simpl; lia.
Qed.

Lemma TrimSpace_length (s : text) : (length (TrimSpace s) <= length s)%nat.
Proof. destruct (TrimSpace_window s) as (a & _ & H & _). lia. Qed.

Lemma str_len_ge (s : text) : rune_count s <= str_len s.
Proof.
  unfold rune_count, str_len, utf8_encode.
  induction s as [|r s IH]; simpl; [done|].
  rewrite length_app. pose proof (utf8_EncodeRune_length r). lia.
Qed.

Lemma str_len_le (s : text) : str_len s <= 4 * rune_count s.
Proof.
  unfold rune_count, str_len, utf8_encode.
  induction s as [|r s IH]; simpl; [done|].
  rewrite length_app. pose proof (utf8_EncodeRune_length r). lia.
Qed.

(** The windows of three runes of a text, by their start. *)
Definition window3 (runes : text) (k : nat) : text := take 3 (drop k runes).

Lemma slice_window3 (runes : text) (k : nat) :
  slice runes (Z.of_nat k) (Z.of_nat k + 3) = window3 runes k.
Proof.
  unfold slice, window3. rewrite Nat2Z.id.
  by replace (Z.to_nat (Z.of_nat k + 3 - Z.of_nat k)) with 3%nat by lia.
Qed.

(** The state of the loop after the windows that start at [ks]: the new
    trigrams are these windows, each once, and [seen] marks exactly the
    trigrams collected. *)
Lemma trigram_loop_inv (runes : text) (ks : list nat) :
  forall (seen : gmap (list Z) bool) (trigrams : list (list Z)),
  NoDup trigrams ->
  (forall t, default false (seen !! t) = true <-> t ∈ trigrams) ->
  let st := foldl (trigram_step runes) (seen, trigrams) (map Z.of_nat ks) in
  NoDup st.2
  /\ (forall t, default false (st.1 !! t) = true <-> t ∈ st.2)
  /\ (forall t, t ∈ st.2 <-> t ∈ trigrams \/ exists k, k ∈ ks /\ t = window3 runes k).
Proof.
  induction ks as [|k ks IH]; intros seen trigrams Hnd Hseen; simpl.
  - split; [done|]. split; [done|]. intros t. split; [by left|].
    intros [H|(k & Hk & _)]; [done|]. by apply elem_of_nil in Hk.
  - rewrite slice_window3. set (w := window3 runes k).
    destruct (default false (seen !! w)) eqn:Hw; simpl.
    + destruct (IH seen trigrams Hnd Hseen) as (H1 & H2 & H3).
      split; [done|]. split; [done|]. intros t. rewrite H3. split.
      * intros [Ht|(k' & Hk' & ->)]; [by left|]. right. exists k'. split; [by right|done].
      * intros [Ht|(k' & Hk' & ->)]; [by left|].
        apply elem_of_cons in Hk' as [->|Hk'].
        -- left. by apply Hseen.
        -- right. by exists k'.
    + assert (w ∉ trigrams) as Hnew.
      { intros Hin. apply Hseen in Hin. congruence. }
      destruct (IH (<[w := true]> seen) (trigrams ++ [w])) as (H1 & H2 & H3).
      * apply NoDup_app. split; [done|]. split; [|apply NoDup_singleton].
        intros t Ht Ht'. apply list_elem_of_singleton in Ht'. by subst.
      * intros t. rewrite elem_of_app, list_elem_of_singleton.
        destruct (decide (w = t)) as [->|Hne].
        -- rewrite lookup_insert_eq. simpl. split; [by right|done].
        -- rewrite lookup_insert_ne by done. rewrite Hseen. split; [by left|].
           intros [Ht|Ht]; [done|congruence].
      * split; [done|]. split; [done|]. intros t. rewrite H3.
        rewrite elem_of_app, list_elem_of_singleton. split.
        -- intros [[Ht| ->]|(k' & Hk' & ->)]; [by left| |].
           ++ right. exists k. split; [by left|done].
           ++ right. exists k'. split; [by right|done].
        -- intros [Ht|(k' & Hk' & ->)]; [by left; left|].
           apply elem_of_cons in Hk' as [->|Hk'].
           ++ left. by right.
           ++ right. by exists k'.
Qed.

(** The trigrams of a text are the windows of three code points of its
    lower-cased, trimmed form. *)
Lemma GenerateTrigrams_windows `{CaseTable} (T : text) :
  let s := TrimSpace (strings_ToLower T) in
  NoDup (GenerateTrigrams T)
  /\ forall t, t ∈ GenerateTrigrams T <->
       exists k, (k + 3 <= length s)%nat /\ t = window3 s k.
Proof.
  intros s. unfold GenerateTrigrams. fold s.
  destruct (str_len s <? 3) eqn:Hlen.
  - split; [constructor|]. intros t. split; [by intros ?%elem_of_nil|].
    intros (k & Hk & _). pose proof (str_len_ge s). unfold rune_count in *. lia.
  - destruct (trigram_loop_inv s (seq 0 (Z.to_nat (rune_count s - 3 + 1))) ∅ [])
      as (H1 & _ & H3).
    + constructor.
    + intros t. rewrite lookup_empty. simpl. split; [done|by intros ?%elem_of_nil].
    + split; [done|]. intros t. rewrite H3. split.
      * intros [Ht|(k & Hk & ->)]; [by apply elem_of_nil in Ht|].
        exists k. split; [|done]. apply elem_of_seq in Hk. unfold rune_count in Hk. lia.
      * intros (k & Hk & ->). right. exists k. split; [|done].
        apply elem_of_seq. unfold rune_count. lia.
Qed.

(** C5.  A text of at least three code points has distinct trigrams of
    exactly three code points each; a text of fewer has none; and the
    trigrams are the windows of three consecutive code points of the
    lower-cased, trimmed text, so a character of several bytes is one
    unit of the window (a trigram has three code points and between 3 and
    12 bytes). *)
Theorem GenerateTrigrams_code_point_windows `{CaseTable} (T : text) :
  (3 <= rune_count T ->
     NoDup (GenerateTrigrams T)
     /\ Forall (fun t => rune_count t = 3) (GenerateTrigrams T))
  /\ (rune_count T < 3 -> GenerateTrigrams T = [])
  /\ (forall t, t ∈ GenerateTrigrams T <->
        exists k, (k + 3 <= length (TrimSpace (strings_ToLower T)))%nat
                  /\ t = window3 (TrimSpace (strings_ToLower T)) k)
  /\ Forall (fun t => rune_count t = 3 /\ 3 <= str_len t <= 12) (GenerateTrigrams T).
Proof.
  destruct (GenerateTrigrams_windows T) as [Hnd Hwin].
  assert (Forall (fun t => rune_count t = 3) (GenerateTrigrams T)) as Hthree.
  { apply Forall_forall. intros t Ht. apply Hwin in Ht as (k & Hk & ->).
    unfold rune_count, window3. rewrite length_take, length_drop. lia. }
  split; [done|]. split; [|split; [done|]].
  - intros Hshort.
    destruct (GenerateTrigrams T) as [|t ts] eqn:E; [done|].
    assert (t ∈ t :: ts) as Ht by left.
    apply Hwin in Ht as (k & Hk & _).
    pose proof (TrimSpace_length (strings_ToLower T)).
    pose proof (strings_ToLower_length T).
    unfold rune_count in Hshort. exfalso. lia.
  - eapply Forall_impl; [exact Hthree|]. intros t Ht. simpl in Ht. split; [done|].
    pose proof (str_len_ge t). pose proof (str_len_le t). lia.
Qed.

(** The trigrams of "héllo": é is two bytes and one unit of the window. *)
Example GenerateTrigrams_hello_accent :
  @GenerateTrigrams ascii_case [104; 233; 108; 108; 111]
    = [[104; 233; 108]; [233; 108; 108]; [108; 108; 111]]
  /\ str_len [104; 233; 108] = 4
  /\ str_len [233; 233] = 4
  /\ @GenerateTrigrams ascii_case [233; 233] = [].
Proof. repeat split; reflexivity. Qed.

(** ** Cosine similarity *)

Section Cosine.
Context {F64 : Float64} {F32 : Float32}.

(** [normA] of the loop: the sum of the squares of a vector. *)
Definition squared_norm (v : list float32) : float64 :=
  foldl (fun n x => f64_add n (f64_mul (f64_of_f32 x) (f64_of_f32 x)))
        (f64_of_int 0) v.

Definition add_square (n : float64) (x : float32) : float64 :=
  f64_add n (f64_mul (f64_of_f32 x) (f64_of_f32 x)).

Lemma cosine_step_norms (a : list float32) : forall b d na nb,
  length a = length b ->
  (foldl cosine_step (d, na, nb) (zip a b)).1.2 = foldl add_square na a
  /\ (foldl cosine_step (d, na, nb) (zip a b)).2 = foldl add_square nb b.
Proof.
  induction a as [|x a IH]; intros [|y b] d na nb Hlen; try done.
  simpl. apply IH. simpl in Hlen. lia.
Qed.

Lemma cosine_sums_norms (a b : list float32) :
  length a = length b ->
  (cosine_sums a b).1.2 = squared_norm a /\ (cosine_sums a b).2 = squared_norm b.
Proof. apply cosine_step_norms. Qed.

(** The degenerate inputs of cosineSimilarity. *)
Definition degenerate (a b : list float32) : Prop :=
  a = [] \/ b = [] \/ length a <> length b
  \/ f64_eqb (squared_norm a) (f64_of_int 0) = true
  \/ f64_eqb (squared_norm b) (f64_of_int 0) = true.

Lemma cosine_path_guard (a b : list float32) :
  degenerate a b ->
  cosine_path a b = DimensionGuard \/ cosine_path a b = ZeroNormGuard.
Proof.
  intros Hdeg. unfold cosine_path.
  destruct (negb (length a =? length b)%nat || (length a =? 0)%nat) eqn:Hguard;
    [by left|right].
  apply orb_false_elim in Hguard as [Hlen Hnil].
  apply negb_false_iff, Nat.eqb_eq in Hlen. apply Nat.eqb_neq in Hnil.
  destruct (cosine_sums_norms a b Hlen) as [Ha Hb].
  destruct (cosine_sums a b) as [[dotProduct normA] normB]. simpl in Ha, Hb. subst.
  destruct Hdeg as [->|[->|[Hne|[Hz|Hz]]]].
  - done.
  - simpl in Hlen. lia.
  - done.
  - by rewrite Hz.
  - rewrite Hz. by rewrite orb_true_r.
Qed.

(** C6.  When a vector is empty, when the dimensions differ, or when the
    sum of squares of a vector compares equal to zero, cosineSimilarity
    leaves through one of its two guards: it returns 0 and the division
    is not evaluated. *)
Theorem cosineSimilarity_degenerate (a b : list float32) :
  a = [] \/ b = [] \/ length a <> length b
  \/ f64_eqb (squared_norm a) (f64_of_int 0) = true
  \/ f64_eqb (squared_norm b) (f64_of_int 0) = true ->
  cosineSimilarity a b = f64_of_int 0
  /\ (cosine_path a b = DimensionGuard \/ cosine_path a b = ZeroNormGuard)
  /\ forall dotProduct denominator, cosine_path a b <> Division dotProduct denominator.
Proof.
  intros Hdeg. pose proof (cosine_path_guard a b Hdeg) as Hpath.
  split; [|split; [done|]].
  - unfold cosineSimilarity. by destruct Hpath as [-> | ->].
  - intros n d. by destruct Hpath as [-> | ->].
Qed.

(** [dotProduct] of the loop: the sum of the products of the components
    of the two vectors. *)
Definition dot_product (a b : list float32) : float64 :=
  foldl (fun d xy => f64_add d (f64_mul (f64_of_f32 xy.1) (f64_of_f32 xy.2)))
        (f64_of_int 0) (zip a b).

Lemma cosine_step_dot (l : list (float32 * float32)) : forall d na nb,
  (foldl cosine_step (d, na, nb) l).1.1
  = foldl (fun d xy => f64_add d (f64_mul (f64_of_f32 xy.1) (f64_of_f32 xy.2))) d l.
Proof.
  induction l as [|[x y] l IH]; intros d na nb; [done|]. simpl. apply IH.
Qed.

Lemma cosine_sums_dot (a b : list float32) : (cosine_sums a b).1.1 = dot_product a b.
Proof. apply cosine_step_dot. Qed.

(** X5.  On two vectors of one dimension, not empty, whose sums of
    squares do not compare equal to zero, cosineSimilarity is the sum of
    the products of the components divided by the product of the square
    roots of the two sums of squares; and the division is evaluated on
    such vectors only, with these operands. *)
Theorem cosine_path_division (a b : list float32) :
  (a <> [] -> length a = length b ->
   f64_eqb (squared_norm a) (f64_of_int 0) = false ->
   f64_eqb (squared_norm b) (f64_of_int 0) = false ->
   cosineSimilarity a b
   = f64_div (dot_product a b)
             (f64_mul (f64_sqrt (squared_norm a)) (f64_sqrt (squared_norm b))))
  /\ forall dotProduct denominator,
       cosine_path a b = Division dotProduct denominator ->
       a <> [] /\ length a = length b
       /\ f64_eqb (squared_norm a) (f64_of_int 0) = false
       /\ f64_eqb (squared_norm b) (f64_of_int 0) = false
       /\ dotProduct = dot_product a b
       /\ denominator = f64_mul (f64_sqrt (squared_norm a)) (f64_sqrt (squared_norm b)).
Proof.
  assert (length a = length b ->
          cosine_sums a b = (dot_product a b, squared_norm a, squared_norm b)) as Hsums.
  { intros Hlen. pose proof (cosine_sums_dot a b) as Hd.
    destruct (cosine_sums_norms a b Hlen) as [Ha Hb].
    destruct (cosine_sums a b) as [[d na] nb]. simpl in *. by subst. }
  split.
  - intros Hne Hlen Hza Hzb. unfold cosineSimilarity, cosine_path.
    rewrite Hsums by done. rewrite Hlen, Nat.eqb_refl. simpl.
    assert ((length b =? 0)%nat = false) as ->.
    { apply Nat.eqb_neq. rewrite <- Hlen. by destruct a. }
    by rewrite Hza, Hzb.
  - intros dotProduct denominator. unfold cosine_path.
    destruct (negb (length a =? length b)%nat || (length a =? 0)%nat) eqn:Hguard; [done|].
    apply orb_false_elim in Hguard as [Hlen Hnil].
    apply negb_false_iff, Nat.eqb_eq in Hlen. apply Nat.eqb_neq in Hnil.
    rewrite Hsums by done.
    destruct (f64_eqb (squared_norm a) (f64_of_int 0)) eqn:Hza; [done|].
    destruct (f64_eqb (squared_norm b) (f64_of_int 0)) eqn:Hzb; [done|].
    simpl. intros [= <- <-]. split; [by destruct a|]. done.
Qed.

End Cosine.

(** Vectors of binary32 numbers for the examples. *)
Definition vec32 (l : list Z) : list (@float32 _ Reference.spec_float32) :=
  map (@f32_of_int _ Reference.spec_float32) l.

Lemma cosineSimilarity_degenerate_witness :
  @cosineSimilarity _ Reference.spec_float32 (vec32 [1; 0]) (vec32 [1; 0; 0])
    = @f64_of_int Reference.spec_float64 0
  /\ @cosineSimilarity _ Reference.spec_float32 (vec32 [0; 0]) (vec32 [1; 0])
    = @f64_of_int Reference.spec_float64 0
  /\ @cosineSimilarity _ Reference.spec_float32 [] []
    = @f64_of_int Reference.spec_float64 0.
Proof.
  split; [|split].
  - apply (@cosineSimilarity_degenerate _ Reference.spec_float32).
    right. right. left. simpl. lia.
  - apply (@cosineSimilarity_degenerate _ Reference.spec_float32).
    right. right. right. left. vm_compute. reflexivity.
  - apply (@cosineSimilarity_degenerate _ Reference.spec_float32). by left.
Defined.


(** ** The stub embedding *)

Section Stub.
Context {CT : CaseTable} {F64 : Float64} {F32 : Float32}.

Lemma stub_accumulate_length (embedding : list float32) ir :
  length (stub_accumulate embedding ir) = length embedding.
Proof. destruct ir as [i r]. unfold stub_accumulate. apply length_alter. Qed.

Lemma stub_fold_length (l : list (Z * Z)) : forall embedding : list float32,
  length (foldl stub_accumulate embedding l) = length embedding.
Proof.
  induction l as [|ir l IH]; intros embedding; simpl; [done|].
  by rewrite IH, stub_accumulate_length.
Qed.

Lemma stubEmbedding_length (t : text) : length (stubEmbedding t) = 384%nat.
Proof.
  unfold stubEmbedding.
  destruct (f32_gtb _ _); rewrite ?length_map, stub_fold_length, length_replicate;
    reflexivity.
Qed.

(** Every index the loop writes to is an index of the vector. *)
Lemma strings_ToLower_nonneg (t : text) : Forall (fun r => 0 <= r) (strings_ToLower t).
Proof.
  unfold strings_ToLower. induction t as [|c t IH]; simpl; [constructor|].
  destruct (unicode_ToLower c <? 0) eqn:E; simpl; [done|].
  constructor; [|done]. unfold scalar_value, RuneError.
  destruct (_ || _); lia.
Qed.

Lemma range_string_in_range (s : text) : forall i,
  0 <= i -> Forall (fun r => 0 <= r) s ->
  Forall (fun ir => 0 <= stub_index ir.1 ir.2 < embeddingDim) (range_string s i).
Proof.
  induction s as [|r s IH]; intros i Hi Hs; simpl; [constructor|].
  apply Forall_cons in Hs as [Hr Hs]. constructor.
  - simpl. unfold stub_index, embeddingDim.
    pose proof (Z.rem_bound_pos (r + i) 384). lia.
  - apply IH; [lia|done].
Qed.

Lemma float32_roundtrip_length (v : list float32) :
  length (bytesToFloat32Slice (float32SliceToBytes v)) = length v.
Proof. induction v as [|f v IH]; simpl; [done|]. by rewrite IH. Qed.

(** C10.  The stub embedding of any text, the empty one included, has 384
    components, every write of its loop stays inside the vector, equal
    texts have equal embeddings, and two stub embeddings, also when one
    of them comes back from the embeddings table, pass the guard of
    cosineSimilarity on the dimensions. *)
Theorem stubEmbedding_dimension (t u : text) :
  length (stubEmbedding t) = 384%nat
  /\ length (stubEmbedding []) = 384%nat
  /\ Forall (fun ir => 0 <= stub_index ir.1 ir.2 < embeddingDim)
            (range_string (strings_ToLower t) 0)
  /\ (t = u -> stubEmbedding t = stubEmbedding u)
  /\ length (stubEmbedding t) = length (stubEmbedding u)
  /\ cosine_path (stubEmbedding t) (stubEmbedding u) <> DimensionGuard
  /\ cosine_path (stubEmbedding t)
        (bytesToFloat32Slice (float32SliceToBytes (stubEmbedding u)))
      <> DimensionGuard.
Proof.
  assert (forall a b : list float32, length a = 384%nat -> length b = 384%nat ->
            cosine_path a b <> DimensionGuard) as Hguard.
  { intros a b Ha Hb. unfold cosine_path. rewrite Ha, Hb. simpl.
    destruct (cosine_sums a b) as [[d na] nb]. by destruct (_ || _). }
  split; [apply stubEmbedding_length|].
  split; [apply stubEmbedding_length|].
  split; [apply range_string_in_range; [lia|apply strings_ToLower_nonneg]|].
  split; [by intros ->|].
  split; [by rewrite !stubEmbedding_length|].
  split; apply Hguard;
    rewrite ?float32_roundtrip_length; apply stubEmbedding_length.
Qed.

End Stub.

(** ** Looking up a document *)

Lemma select_document_missing (db : DB) (id : Z) :
  conn_err db = None -> id ∉ map Document_ID (documents db) ->
  select_document db id = ErrNoRows.
Proof.
  intros Hconn Hid. unfold select_document. rewrite Hconn.
  destruct (filter (fun d => Document_ID d = id) (documents db)) as [|d l] eqn:E; [done|].
  exfalso. apply Hid.
  assert (d ∈ filter (fun d => Document_ID d = id) (documents db)) as Hd
    by (rewrite E; left).
  apply list_elem_of_filter in Hd as [<- Hd].
  by apply list_elem_of_fmap_2.
Qed.

Lemma handleGetTool_replies {Id} (db : DB) (req : Id) (args : Unmarshal Z) :
  handleGetTool db req args <> Crashed.
Proof.
  unfold handleGetTool, GetDocument, outcome. destruct args as [id|msg]; [|done].
  destruct (id <=? 0); [done|]. simpl.
  by destruct (select_document db id).
Qed.

(** C9, as the code has it.  For an id that no document has, on a
    database that can be reached: GetDocument issues its one statement
    and returns no document and no error.  The gdpr_get handler answers a
    positive such id with the tool error "Document not found"; an id
    that is not positive it answers with "Valid document ID is required",
    the message of its guard, whatever the store holds.  Whatever the id,
    the handler writes a response marked as an error and does not
    crash. *)
Theorem get_missing_document {Id} (db : DB) (req : Id) (id : Z) :
  conn_err db = None ->
  id ∉ map Document_ID (documents db) ->
  GetDocument db id = ([SelectDocument id], Ok None)
  /\ (0 < id ->
      handleGetTool db req (Decoded id) = writeToolError req "Document not found")
  /\ (id <= 0 ->
      handleGetTool db req (Decoded id)
      = writeToolError req "Valid document ID is required")
  /\ (exists message,
        handleGetTool db req (Decoded id)
        = Wrote req {| Content := [{| Type_ := "text"; Text := Message message |}];
                       IsError := true |})
  /\ handleGetTool db req (Decoded id) <> Crashed.
Proof.
  intros Hconn Hid.
  assert (GetDocument db id = ([SelectDocument id], Ok None)) as Hget.
  { unfold GetDocument. by rewrite select_document_missing. }
  split; [done|]. unfold handleGetTool. rewrite Hget. simpl.
  split; [|split; [|split]].
  - intros Hpos. by assert ((id <=? 0) = false) as -> by lia.
  - intros Hneg. by assert ((id <=? 0) = true) as -> by lia.
  - destruct (id <=? 0); eexists; reflexivity.
  - by destruct (id <=? 0).
Qed.

Definition sample_documents : list Document :=
  [ {| Document_ID := 1;
       Chunk := runes_of "Article 15 - Right of access by the data subject";
       ChunkIndex := 0 |};
    {| Document_ID := 2;
       Chunk := runes_of "Article 17 - Right to erasure (right to be forgotten)";
       ChunkIndex := 1 |};
    {| Document_ID := 3;
       Chunk := runes_of "Article 20 - Right to data portability";
       ChunkIndex := 2 |} ].

Definition documents_only : DB :=
  {| documents := sample_documents; trigrams := []; embeddings := [];
     conn_err := None |}.

Lemma get_missing_document_witness :
  GetDocument documents_only 99999 = ([SelectDocument 99999], Ok None)
  /\ handleGetTool documents_only 5 (Decoded 99999)
     = writeToolError 5 "Document not found".
Proof.
  destruct (get_missing_document documents_only 5 99999) as (Hget & Hmsg & _).
  - reflexivity.
  - intros H. apply list_elem_of_In in H. vm_compute in H.
    repeat destruct H as [H|H]; try discriminate H. done.
  - split; [exact Hget|]. apply Hmsg. lia.
Defined.

(** C9 as stated fails for an id that is not positive.  No document has
    the id 0 and GetDocument finds no row for it, but the handler does
    not ask: its guard answers "Valid document ID is required", not
    "Document not found". *)
Lemma handleGetTool_rejects_id_zero :
  (0 ∉ map Document_ID (documents documents_only))
  /\ GetDocument documents_only 0 = ([SelectDocument 0], Ok None)
  /\ handleGetTool documents_only 5 (Decoded 0)
     = writeToolError 5 "Valid document ID is required"
  /\ (handleGetTool documents_only 5 (Decoded 0)
      <> writeToolError 5 "Document not found").
Proof.
  split.
  { intros H. apply list_elem_of_In in H. vm_compute in H.
    repeat destruct H as [H|H]; try discriminate H. done. }
  split; [reflexivity|]. split; [reflexivity|]. discriminate.
Qed.

(** ** Lexical search *)

Lemma wrap_int_double (limit : Z) :
  0 < limit < 2 ^ 63 ->
  wrap_int (limit * 2) = limit * 2 \/ wrap_int (limit * 2) < 0.
Proof.
  intros H. unfold wrap_int.
  destruct (decide (limit < 2 ^ 62)) as [Hs|Hb].
  - left. rewrite Z.mod_small; lia.
  - right.
    replace (limit * 2 + 2 ^ 63) with ((limit * 2 - 2 ^ 63) + 1 * 2 ^ 64) by lia.
    rewrite Z.mod_add by lia. rewrite Z.mod_small; lia.
Qed.

Lemma sql_limit_take {A} (n limit : Z) (rows : list A) :
  0 <= limit -> (n < 0 \/ limit <= n) ->
  take (Z.to_nat limit) (sql_limit n rows) = sql_limit limit rows.
Proof.
  intros Hl Hn. unfold sql_limit.
  assert ((limit <? 0) = false) as -> by lia.
  destruct (n <? 0) eqn:E; [done|].
  rewrite take_take. f_equal. lia.
Qed.

Lemma truncate_take {A} (l : list A) (limit : Z) :
  0 <= limit -> truncate l limit = Ok (take (Z.to_nat limit) l).
Proof.
  intros H. unfold truncate. assert ((limit <? 0) = false) as -> by lia.
  destruct (Z.of_nat (length l) >? limit) eqn:E; [done|].
  rewrite take_ge; [done|lia].
Qed.

Section Lexical.
Context {CT : CaseTable} {F64 : Float64} {SE : SqlEngine}.

(** What SearchTrigrams does, by the state of the connection and the
    number of parameters of its statement. *)
Lemma SearchTrigrams_unfold (db : DB) (query : text) (limit : Z) :
  let Q := GenerateTrigrams (strings_ToLower query) in
  SearchTrigrams db query limit =
    if (length Q =? 0)%nat then ([], Ok [])
    else ([SelectTrigramMatches Q limit],
          match conn_err db with
          | Some e => Err ("failed to search trigrams" +:+ ": " +:+ e)
          | None =>
              if Z.of_nat (length Q) + 1 >? SQLITE_MAX_VARIABLE_NUMBER
              then Err ("failed to search trigrams" +:+ ": " +:+ "too many SQL variables")
              else Ok (map (trigram_result (f64_of_int (Z.of_nat (length Q))))
                           (select_trigram_matches db Q limit))
          end).
Proof.
  intros Q. unfold SearchTrigrams. fold Q.
  destruct (length Q =? 0)%nat; [done|].
  unfold conn_Query, wrap_err, exec_bind, exec_ret. cbn [bound_variables].
  destruct (conn_err db); [done|].
  by destruct (_ >? _).
Qed.

(** The lexical search on a database that can be reached, for a query
    whose trigrams, with the limit, are at most the parameters SQLite
    takes. *)
Lemma SearchTrigrams_run (db : DB) (query : text) (limit : Z) :
  let Q := GenerateTrigrams (strings_ToLower query) in
  conn_err db = None ->
  Z.of_nat (length Q) < SQLITE_MAX_VARIABLE_NUMBER ->
  SearchTrigrams db query limit =
    if (length Q =? 0)%nat then ([], Ok [])
    else ([SelectTrigramMatches Q limit],
          Ok (map (trigram_result (f64_of_int (Z.of_nat (length Q))))
                  (select_trigram_matches db Q limit))).
Proof.
  intros Q Hconn Hvars. rewrite SearchTrigrams_unfold. fold Q. rewrite Hconn.
  by assert ((Z.of_nat (length Q) + 1 >? SQLITE_MAX_VARIABLE_NUMBER) = false) as ->
    by lia.
Qed.

(** The lexical search for a query with more trigrams than that. *)
Lemma SearchTrigrams_too_many (db : DB) (query : text) (limit : Z) :
  let Q := GenerateTrigrams (strings_ToLower query) in
  conn_err db = None ->
  SQLITE_MAX_VARIABLE_NUMBER <= Z.of_nat (length Q) ->
  SearchTrigrams db query limit
  = ([SelectTrigramMatches Q limit],
     Err "failed to search trigrams: too many SQL variables").
Proof.
  intros Q Hconn Hvars. rewrite SearchTrigrams_unfold. fold Q. rewrite Hconn.
  assert ((length Q =? 0)%nat = false) as ->.
  { apply Nat.eqb_neq. unfold SQLITE_MAX_VARIABLE_NUMBER in Hvars. lia. }
  by assert ((Z.of_nat (length Q) + 1 >? SQLITE_MAX_VARIABLE_NUMBER) = true) as ->
    by (apply Z.gtb_lt; lia).
Qed.






Lemma trigram_groups_spec (db : DB) (Q : list (list Z)) (row : Z * list Z * Z) :
  row ∈ trigram_groups db Q <->
  exists d, d ∈ documents db
            /\ row = (Document_ID d, Chunk d, match_count db Q (Document_ID d))
            /\ 0 < match_count db Q (Document_ID d).
Proof.
  unfold trigram_groups. rewrite list_elem_of_filter, list_elem_of_fmap. split.
  - intros [Hpos (d & -> & Hd)]. by exists d.
  - intros (d & Hd & -> & Hpos). split; [done|by exists d].
Qed.

Lemma group_ids_sublist (count : Z -> Z) (ds : list Document) :
  map (fun row : Z * list Z * Z => row.1.1)
    (filter (fun row : Z * list Z * Z => 0 < row.2)
       (map (fun d => (Document_ID d, Chunk d, count (Document_ID d))) ds))
  `sublist_of` map Document_ID ds.
Proof.
  induction ds as [|d ds IH]; simpl; [done|].
  rewrite filter_cons. destruct (decide _); simpl.
  - by apply sublist_skip.
  - by apply sublist_cons.
Qed.


End Lexical.


Section Hybrid.
Context {CT : CaseTable} {F64 : Float64} {F32 : Float32}
        {RT : GoRuntime} {SE : SqlEngine}.

(** C3.  Without a query vector HybridSearch issues the statements of the
    lexical search and no other (the embeddings are not read) and ends as
    the lexical search for the same query and limit ends, with the first
    [limit] results of the ranking: the missing vector is no reason to
    fail.  It ends well whenever the lexical search does: on a database
    that can be reached, for a query with fewer trigrams than the
    parameters SQLite takes.  For a query with more trigrams it returns
    the error of the lexical search. *)
Theorem HybridSearch_without_vector (db : DB) (query : text) (limit : Z) :
  0 < limit < 2 ^ 63 ->
  issued (HybridSearch db query None limit)
    = issued (SearchTrigrams db query (wrap_int (limit * 2)))
  /\ (SelectEmbeddings ∉ issued (HybridSearch db query None limit))
  /\ outcome (HybridSearch db query None limit)
     = outcome (SearchTrigrams db query limit)
  /\ (forall ranking,
        outcome (SearchTrigrams db query (wrap_int (limit * 2))) = Ok ranking ->
        outcome (HybridSearch db query None limit)
        = Ok (take (Z.to_nat limit) ranking))
  /\ (conn_err db = None ->
      Z.of_nat (length (GenerateTrigrams (strings_ToLower query)))
        < SQLITE_MAX_VARIABLE_NUMBER ->
      exists results, outcome (HybridSearch db query None limit) = Ok results
                      /\ Z.of_nat (length results) <= limit)
  /\ (conn_err db = None ->
      SQLITE_MAX_VARIABLE_NUMBER
        <= Z.of_nat (length (GenerateTrigrams (strings_ToLower query))) ->
      outcome (HybridSearch db query None limit)
      = Err "failed to search trigrams: too many SQL variables")
  /\ outcome (HybridSearch db query None limit) <> Panic.
Proof.
  intros Hlimit. unfold HybridSearch.
  rewrite !SearchTrigrams_unfold.
  set (Q := GenerateTrigrams (strings_ToLower query)).
  set (mk := trigram_result (f64_of_int (Z.of_nat (length Q)))).
  destruct (length Q =? 0)%nat eqn:HQ.
  { unfold exec_bind, exec_lift, issued, outcome. simpl.
    rewrite truncate_take by lia. simpl. rewrite take_nil.
    split; [done|]. split; [by intros ?%elem_of_nil|]. split; [done|].
    split; [intros ranking [= <-]; by rewrite take_nil|].
    split; [intros _ _; exists []; split; [done|simpl; lia]|]. split; [|done].
    intros _ Hmany. apply Nat.eqb_eq in HQ. fold Q in Hmany. rewrite HQ in Hmany.
    by vm_compute in Hmany. }
  unfold exec_bind, exec_lift, issued, outcome.
  destruct (conn_err db) as [e|] eqn:Hconn; simpl.
  { split; [done|]. split.
    { intros H. apply list_elem_of_singleton in H. discriminate H. }
    split; [done|]. split; [done|]. split; [done|]. split; done. }
  destruct (Z.of_nat (length Q) + 1 >? SQLITE_MAX_VARIABLE_NUMBER) eqn:Hvars; simpl.
  { split; [done|]. split.
    { intros H. apply list_elem_of_singleton in H. discriminate H. }
    split; [done|]. split; [done|]. split; [|done].
    intros _ Hfew. apply Z.gtb_lt in Hvars. lia. }
  rewrite truncate_take by lia. simpl.
  assert (take (Z.to_nat limit)
            (map mk (select_trigram_matches db Q (wrap_int (limit * 2))))
          = map mk (select_trigram_matches db Q limit)) as Htake.
  { rewrite <- fmap_take. f_equal. unfold select_trigram_matches.
    apply sql_limit_take; [lia|].
    destruct (wrap_int_double limit Hlimit) as [-> | H]; lia. }
  split; [done|]. split.
  { intros H. apply list_elem_of_singleton in H. discriminate H. }
  split; [by rewrite Htake|]. split; [by intros ranking [= <-]|].
  split; [intros _ _; eexists; split; [done|]; rewrite length_take; lia|].
  split; [|done].
  intros _ Hmany. rewrite Z.gtb_ltb in Hvars. apply Z.ltb_ge in Hvars.
  fold Q in Hmany. lia.
Qed.

End Hybrid.

(** ** Rank fusion *)

Lemma strict_weak_on_iff {A} (less : A -> A -> bool) (l : list A) :
  strict_weak_on less l = true <->
  (forall x, x ∈ l -> less x x = false)
  /\ (forall x y z, x ∈ l -> y ∈ l -> z ∈ l ->
        (less x y = true -> less y z = true -> less x z = true)
        /\ (less x y = false -> less y x = false ->
            less y z = false -> less z y = false ->
            less x z = false /\ less z x = false)).
Proof.
  unfold strict_weak_on. rewrite andb_true_iff, !forallb_forall. split.
  - intros [Hirr Hall]. split.
    + intros x Hx. apply list_elem_of_In, Hirr in Hx. by destruct (less x x).
    + intros x y z Hx Hy Hz.
      apply list_elem_of_In, Hall in Hx. rewrite forallb_forall in Hx.
      apply list_elem_of_In, Hx in Hy. rewrite forallb_forall in Hy.
      apply list_elem_of_In, Hy in Hz. apply andb_true_iff in Hz as [H1 H2].
      split.
      * intros Hxy Hyz. rewrite Hxy, Hyz in H1. simpl in H1. by destruct (less x z).
      * intros Hxy Hyx Hyz Hzy. rewrite Hxy, Hyx, Hyz, Hzy in H2. simpl in H2.
        by destruct (less x z), (less z x).
  - intros [Hirr Hall]. split.
    + intros x Hx. apply list_elem_of_In in Hx. by rewrite Hirr.
    + intros x Hx. rewrite forallb_forall. intros y Hy.
      rewrite forallb_forall. intros z Hz.
      apply list_elem_of_In in Hx, Hy, Hz.
      destruct (Hall x y z Hx Hy Hz) as [Htr Hinc].
      apply andb_true_iff. split.
      * destruct (less x y), (less y z); simpl; try done. by rewrite Htr.
      * destruct (less x y), (less y x), (less y z), (less z y); simpl; try done.
        by destruct Hinc as [-> ->].
Qed.

Lemma strict_weak_on_fmap {A B} (less : B -> B -> bool) (f : A -> B) l (k : list A) :
  strict_weak_on less l = true ->
  (forall x, x ∈ k -> f x ∈ l) ->
  strict_weak_on (fun a b => less (f a) (f b)) k = true.
Proof.
  rewrite !strict_weak_on_iff. intros [Hirr Hall] Hin. split.
  - intros x Hx. apply Hirr. by apply Hin.
  - intros x y z Hx Hy Hz. apply Hall; by apply Hin.
Qed.

Section Fusion.
Context {CT : CaseTable} {F64 : Float64} {F32 : Float32}
        {RT : GoRuntime} {SE : SqlEngine}.

(** The rank of a passage in a result list: its position, counted from 1. *)
Fixpoint position_from (n : Z) (l : list SearchResult) (id : Z) : option Z :=
  match l with
  | [] => None
  | r :: l' => if ID r =? id then Some (n + 1) else position_from (n + 1) l' id
  end.

Definition position (l : list SearchResult) (id : Z) : option Z :=
  position_from 0 l id.

(** The partial score of rank [rank]: [1 / (60 + rank)]. *)
Definition reciprocal_rank (rank : Z) : float64 :=
  f64_div (f64_of_int 1) (f64_add (f64_of_int 60) (f64_of_int rank)).

(** A list adds the partial score of the rank it gives the passage, and
    nothing when it does not have the passage. *)
Definition add_partial (s : float64) (rank : option Z) : float64 :=
  match rank with
  | Some p => f64_add s (reciprocal_rank p)
  | None => s
  end.

(** The summed score of a passage over the two lists, from zero. *)
Definition fused_score (lexical vector : list SearchResult) (id : Z) : float64 :=
  add_partial (add_partial (f64_of_int 0) (position lexical id)) (position vector id).

Lemma position_from_None n l id :
  position_from n l id = None <-> id ∉ map ID l.
Proof.
  revert n. induction l as [|r l IH]; intros n; simpl.
  - split; [intros _ H; by apply elem_of_nil in H|done].
  - rewrite not_elem_of_cons. destruct (ID r =? id) eqn:E.
    + split; [done|]. intros [Hne _]. lia.
    + rewrite IH. split; [|tauto]. intros H. split; [lia|done].
Qed.

Lemma position_from_lookup n l (i : nat) r :
  NoDup (map ID l) -> l !! i = Some r ->
  position_from n l (ID r) = Some (n + Z.of_nat i + 1).
Proof.
  revert n i. induction l as [|r' l IH]; intros n i Hnd Hi; [done|].
  simpl in Hnd. apply NoDup_cons in Hnd as [Hnotin Hnd].
  destruct i as [|i]; simpl in *.
  - injection Hi as ->. rewrite Z.eqb_refl. f_equal. lia.
  - destruct (ID r' =? ID r) eqn:E.
    + exfalso. apply Hnotin. apply Z.eqb_eq in E. rewrite E.
      apply list_elem_of_fmap_2. by eapply list_elem_of_lookup_2.
    + rewrite (IH (n + 1) i Hnd Hi). f_equal. lia.
Qed.

(** Either loop leaves in [scores] what it found there plus the partial
    score of each passage of its list. *)
Lemma scores_fold
    (step : gmap Z float64 * gmap Z (list Z) -> nat * SearchResult
            -> gmap Z float64 * gmap Z (list Z)) :
  (forall sc sn i r, (step (sc, sn) (i, r)).1 = add_score sc (ID r) (rrf_term i)) ->
  forall l (f : nat -> SearchResult -> nat * SearchResult) (n : nat) sc sn,
  (forall i x, f i x = ((n + i)%nat, x)) ->
  NoDup (map ID l) ->
  forall id,
    (foldl step (sc, sn) (imap f l)).1 !! id =
    match position_from (Z.of_nat n) l id with
    | Some p => Some (f64_add (default (f64_of_int 0) (sc !! id)) (reciprocal_rank p))
    | None => sc !! id
    end.
Proof.
  intros Hstep. induction l as [|r l IH]; intros f n sc sn Hf Hnd id; [done|].
  simpl in Hnd. apply NoDup_cons in Hnd as [Hnotin Hnd].
  simpl. rewrite Hf. replace (n + 0)%nat with n by lia.
  destruct (step (sc, sn) (n, r)) as [sc' sn'] eqn:Est.
  assert (sc' = add_score sc (ID r) (rrf_term n)) as ->.
  { by rewrite <- (Hstep sc sn n r), Est. }
  rewrite (IH (f ∘ S) (S n) _ sn'); [|intros i x; simpl; rewrite Hf; f_equal; lia|done].
  replace (Z.of_nat (S n)) with (Z.of_nat n + 1) by lia.
  destruct (ID r =? id) eqn:E.
  - apply Z.eqb_eq in E. subst id.
    assert (position_from (Z.of_nat n + 1) l (ID r) = None) as ->
      by by apply position_from_None.
    unfold add_score. by rewrite lookup_insert_eq.
  - apply Z.eqb_neq in E.
    unfold add_score. by rewrite lookup_insert_ne.
Qed.

Lemma fuse_maps_scores (lexical vector : list SearchResult) (id : Z) :
  NoDup (map ID lexical) -> NoDup (map ID vector) ->
  (fuse_maps lexical vector).1 !! id =
    match position lexical id, position vector id with
    | None, None => None
    | _, _ => Some (fused_score lexical vector id)
    end.
Proof.
  intros HT HV. unfold fuse_maps, fused_score, position.
  destruct (foldl fuse_trigram (∅, ∅) (imap pair lexical)) as [sc sn] eqn:E1.
  rewrite (scores_fold fuse_vector) with (n := 0%nat); [|by intros ? ? ? []|done|done].
  assert (sc !! id = match position_from 0 lexical id with
                     | Some p => Some (f64_add (f64_of_int 0) (reciprocal_rank p))
                     | None => None
                     end) as ->.
  { replace sc with (foldl fuse_trigram (∅, ∅) (imap pair lexical)).1 by by rewrite E1.
    rewrite (scores_fold fuse_trigram) with (n := 0%nat); [|by intros ? ? ? []|done|done].
    by rewrite lookup_empty. }
  change (Z.of_nat 0) with 0.
  destruct (position_from 0 lexical id), (position_from 0 vector id); simpl; done.
Qed.

Lemma fuse_maps_entry (lexical vector : list SearchResult) (id : Z) (s : float64) :
  NoDup (map ID lexical) -> NoDup (map ID vector) ->
  (fuse_maps lexical vector).1 !! id = Some s <->
  (id ∈ map ID lexical \/ id ∈ map ID vector) /\ s = fused_score lexical vector id.
Proof.
  intros HT HV. rewrite fuse_maps_scores by done. unfold position.
  pose proof (position_from_None 0 lexical id) as HTn.
  pose proof (position_from_None 0 vector id) as HVn.
  destruct (position_from 0 lexical id) as [p|] eqn:Ep,
           (position_from 0 vector id) as [q|] eqn:Eq.
  - split.
    + intros [= <-]. split; [|done]. left.
      destruct (decide (id ∈ map ID lexical)) as [|Hn]; [done|]. by apply HTn in Hn.
    + by intros [_ ->].
  - split.
    + intros [= <-]. split; [|done]. left.
      destruct (decide (id ∈ map ID lexical)) as [|Hn]; [done|]. by apply HTn in Hn.
    + by intros [_ ->].
  - split.
    + intros [= <-]. split; [|done]. right.
      destruct (decide (id ∈ map ID vector)) as [|Hn]; [done|]. by apply HVn in Hn.
    + by intros [_ ->].
  - split; [done|]. intros [[H|H] _].
    + by apply HTn in H.
    + by apply HVn in H.
Qed.

(** The ranking the fusion cuts at [limit]. *)
Lemma rrf_fuse_ranked (lexical vector : list SearchResult) (limit : Z) :
  0 < limit ->
  NoDup (map ID lexical) -> NoDup (map ID vector) ->
  exists ranking : list SearchResult,
    rrf_fuse lexical vector limit = Ok (take (Z.to_nat limit) ranking)
    /\ Z.of_nat (length (take (Z.to_nat limit) ranking)) <= limit
    /\ NoDup (map ID ranking)
    /\ (forall id, id ∈ map ID ranking <-> id ∈ map ID lexical \/ id ∈ map ID vector)
    /\ (forall r, r ∈ ranking -> Score r = fused_score lexical vector (ID r))
    /\ (forall (i : nat) r, lexical !! i = Some r ->
          position lexical (ID r) = Some (Z.of_nat i + 1))
    /\ (forall (i : nat) r, vector !! i = Some r ->
          position vector (ID r) = Some (Z.of_nat i + 1))
    /\ (forall id, id ∉ map ID lexical -> position lexical id = None)
    /\ (forall id, id ∉ map ID vector -> position vector id = None)
    /\ (strict_weak_on f64_gtb
          (map (fused_score lexical vector) (map ID lexical ++ map ID vector)) = true ->
        sorted_by (fun x y => f64_gtb (Score x) (Score y)) ranking).
Proof.
  intros Hlimit HT HV.
  pose proof (fun id s => fuse_maps_entry lexical vector id s HT HV) as Hentry.
  unfold rrf_fuse.
  destruct (fuse_maps lexical vector) as [scores snippets]. simpl in Hentry.
  set (mk := fun '(id, score) => {| doc_id := id; doc_score := score |}).
  set (less := fun x y => f64_gtb (doc_score x) (doc_score y)).
  set (sorted0 := map mk (map_range scores)).
  set (sorted1 := sort_Slice less sorted0).
  set (result := fun s => {| ID := doc_id s; Score := doc_score s;
                             Snippet := default [] (snippets !! doc_id s) |}).
  rewrite truncate_take by lia.
  assert (sorted1 ≡ₚ map mk (map_to_list scores)) as Hperm.
  { unfold sorted1. rewrite sort_Slice_perm. unfold sorted0.
    apply Permutation_map, map_range_perm. }
  assert (forall sd, sd ∈ sorted1 ->
            (doc_id sd ∈ map ID lexical \/ doc_id sd ∈ map ID vector)
            /\ doc_score sd = fused_score lexical vector (doc_id sd)) as Hsd.
  { intros sd Hin. rewrite Hperm in Hin.
    apply list_elem_of_fmap in Hin as ([id s] & -> & Hin).
    apply elem_of_map_to_list in Hin. by apply Hentry in Hin. }
  assert (map ID (map result sorted1) = map doc_id sorted1) as Hids.
  { rewrite map_map. by apply map_ext. }
  assert (map doc_id (map mk (map_to_list scores)) = (map_to_list scores).*1) as Hfst.
  { rewrite map_map. apply map_ext. by intros []. }
  exists (map result sorted1).
  split; [by rewrite fmap_take|].
  split; [rewrite length_take; lia|].
  split.
  { rewrite Hids, Hperm, Hfst. apply NoDup_fst_map_to_list. }
  split.
  { intros id. rewrite Hids. split.
    - intros Hin. apply list_elem_of_fmap in Hin as (sd & -> & Hin).
      by apply Hsd.
    - intros Hin. rewrite Hperm, Hfst.
      apply list_elem_of_fmap. exists (id, fused_score lexical vector id).
      split; [done|]. apply elem_of_map_to_list. by apply Hentry. }
  split.
  { intros r Hr. apply list_elem_of_fmap in Hr as (sd & -> & Hin).
    simpl. by apply Hsd. }
  split.
  { intros i r Hi. unfold position. by rewrite (position_from_lookup 0 lexical i r). }
  split.
  { intros i r Hi. unfold position. by rewrite (position_from_lookup 0 vector i r). }
  split; [intros id; apply position_from_None|].
  split; [intros id; apply position_from_None|].
  intros Hswo.
  assert (sorted_by less sorted1) as Hsorted.
  { apply sort_Slice_sorted.
    apply (strict_weak_on_fmap f64_gtb doc_score _ sorted0 Hswo).
    intros sd Hin.
    assert (sd ∈ sorted1) as Hin1 by (unfold sorted1; by rewrite sort_Slice_perm).
    destruct (Hsd sd Hin1) as [Hid ->].
    apply list_elem_of_fmap. exists (doc_id sd). split; [done|].
    by apply elem_of_app. }
  intros i j x y Hij Hx Hy.
  rewrite list_lookup_fmap in Hx, Hy.
  destruct (sorted1 !! i) as [sx|] eqn:Hsx; [|done].
  destruct (sorted1 !! j) as [sy|] eqn:Hsy; [|done].
  simpl in Hx, Hy. injection Hx as <-. injection Hy as <-.
  exact (Hsorted i j sx sy Hij Hsx Hsy).
Qed.

(** C2.  For two result lists without repeated ids and a positive limit,
    the fusion returns the first [limit] entries of a ranking that has
    each passage of either list once, scored with the sum, from zero, of
    [1/(60 + rank)] over the lists that have the passage ([rank] its
    position in the list, counted from 1; a list without the passage
    adds nothing), and ordered by that score, descending.  The order of
    the scores is the one [sort.Slice] needs: [>] has to be a strict weak
    ordering on them, as it is on numbers that are not NaN. *)
Theorem rrf_fuse_ranking (lexical vector : list SearchResult) (limit : Z) :
  0 < limit ->
  NoDup (map ID lexical) -> NoDup (map ID vector) ->
  strict_weak_on f64_gtb
    (map (fused_score lexical vector) (map ID lexical ++ map ID vector)) = true ->
  exists ranking : list SearchResult,
    rrf_fuse lexical vector limit = Ok (take (Z.to_nat limit) ranking)
    /\ Z.of_nat (length (take (Z.to_nat limit) ranking)) <= limit
    /\ NoDup (map ID ranking)
    /\ (forall id, id ∈ map ID ranking <-> id ∈ map ID lexical \/ id ∈ map ID vector)
    /\ (forall r, r ∈ ranking -> Score r = fused_score lexical vector (ID r))
    /\ (forall (i : nat) r, lexical !! i = Some r ->
          position lexical (ID r) = Some (Z.of_nat i + 1))
    /\ (forall (i : nat) r, vector !! i = Some r ->
          position vector (ID r) = Some (Z.of_nat i + 1))
    /\ (forall id, id ∉ map ID lexical -> position lexical id = None)
    /\ (forall id, id ∉ map ID vector -> position vector id = None)
    /\ sorted_by (fun x y => f64_gtb (Score x) (Score y)) ranking.
Proof.
  intros Hlimit HT HV Hswo.
  destruct (rrf_fuse_ranked lexical vector limit Hlimit HT HV)
    as (ranking & Hrun & Hlen & Hnd & Hids & Hscore & Hl & Hv & Hnl & Hnv & Hsorted).
  exists ranking. repeat split; auto; by apply Hids.
Qed.

End Fusion.

(** ** Snippets *)

(** The snippet as the two search paths build it: the first 200 bytes of
    the passage and the marker, when the passage has more than 200
    bytes. *)
Definition byte_snippet (chunk : text) : bytes :=
  if str_len chunk >? 200 then take 200 (utf8_encode chunk) ++ [46; 46; 46]
  else utf8_encode chunk.

(** The snippet by characters: the first 200 code points and the marker,
    when the passage has more than 200 code points. *)
Definition character_snippet (chunk : text) : bytes :=
  if rune_count chunk >? 200 then utf8_encode (take 200 chunk) ++ [46; 46; 46]
  else utf8_encode chunk.

Section Snippets.
Context {CT : CaseTable} {F64 : Float64} {F32 : Float32}
        {RT : GoRuntime} {SE : SqlEngine}.

(** Both loops build the snippet of a row in the same way. *)
Lemma snippet_same_in_both_paths (n : float64) (queryEmbedding : list float32)
    (id id' matchCount : Z) (blob : bytes) (chunk : text) :
  Snippet (trigram_result n (id, chunk, matchCount)) = byte_snippet chunk
  /\ snippet (vector_scored queryEmbedding (id', blob, chunk)) = byte_snippet chunk.
Proof. split; reflexivity. Qed.

Lemma utf8_encode_ascii (s : text) :
  Forall (fun r => 0 <= r <= 0x7F) s -> utf8_encode s = s.
Proof.
  unfold utf8_encode. induction 1 as [|r s Hr Hs IH]; simpl; [done|].
  rewrite IH. unfold utf8_EncodeRune.
  by assert ((0 <=? r) && (r <=? 127) = true) as -> by lia.
Qed.

(** X6.  On a passage of ASCII characters the snippet by bytes is the
    snippet by characters. *)
Lemma byte_snippet_ascii (chunk : text) :
  Forall (fun r => 0 <= r <= 0x7F) chunk ->
  byte_snippet chunk = character_snippet chunk.
Proof.
  intros H. unfold byte_snippet, character_snippet, str_len, rune_count.
  rewrite (utf8_encode_ascii chunk H).
  destruct (Z.of_nat (length chunk) >? 200); [|done].
  rewrite utf8_encode_ascii; [done|]. by apply Forall_take.
Qed.

End Snippets.

Section Paths.
Context {CT : CaseTable} {F64 : Float64} {F32 : Float32}
        {RT : GoRuntime} {SE : SqlEngine}.

(** What SearchVectors does, by the state of the connection. *)
Lemma SearchVectors_unfold (db : DB) (queryEmbedding : list float32) (limit : Z) :
  SearchVectors db queryEmbedding limit =
    ([SelectEmbeddings],
     match conn_err db with
     | Some e => Err ("failed to query embeddings" +:+ ": " +:+ e)
     | None =>
         match truncate (sort_Slice (fun x y => f64_gtb (score x) (score y))
                           (map (vector_scored queryEmbedding) (select_embeddings db)))
                        limit with
         | Ok scoredDocs =>
             Ok (map (fun s => {| ID := id s; Score := score s; Snippet := snippet s |})
                     scoredDocs)
         | Err e => Err e
         | Panic => Panic
         end
     end).
Proof.
  unfold SearchVectors, conn_Query, wrap_err, exec_bind, exec_lift, exec_ret.
  destruct (conn_err db); [done|]. simpl.
  by destruct (truncate _ limit).
Qed.

Lemma truncate_subseteq {A} (l l' : list A) (limit : Z) :
  truncate l limit = Ok l' -> l' `sublist_of` l.
Proof.
  unfold truncate. destruct (_ >? _); [|by intros [= <-]].
  destruct (limit <? 0); [done|]. intros [= <-]. apply sublist_take.
Qed.

(** The rows of the embeddings scan: an embedding and the passage it
    belongs to. *)
Lemma select_embeddings_spec (db : DB) (row : Z * list Z * list Z) :
  row ∈ select_embeddings db ->
  exists d blob, d ∈ documents db /\ (Document_ID d, blob) ∈ embeddings db
                 /\ row = (Document_ID d, blob, Chunk d).
Proof.
  unfold select_embeddings. rewrite scan_order_perm.
  rewrite list_elem_of_In, in_flat_map. intros ([k blob] & He & Hrow).
  apply list_elem_of_In in He, Hrow.
  apply list_elem_of_fmap in Hrow as (d & -> & Hd).
  apply list_elem_of_filter in Hd as [Hid Hd]. simpl in *. subst k.
  by exists d, blob.
Qed.

(** The passage a result of the lexical search comes from. *)
Lemma lexical_result_source (db : DB) (query : text) (limit : Z)
    (results : list SearchResult) (r : SearchResult) :
  outcome (SearchTrigrams db query limit) = Ok results ->
  r ∈ results ->
  exists d, d ∈ documents db /\ ID r = Document_ID d
            /\ Snippet r = byte_snippet (Chunk d).
Proof.
  intros Hout Hr.
  rewrite SearchTrigrams_unfold in Hout. unfold outcome in Hout.
  destruct (_ =? _)%nat; simpl in Hout.
  { injection Hout as <-. by apply elem_of_nil in Hr. }
  destruct (conn_err db); [done|].
  destruct (_ >? _); [done|]. injection Hout as <-.
  apply list_elem_of_fmap in Hr as (row & -> & Hrow).
  assert (row ∈ trigram_groups db (GenerateTrigrams (strings_ToLower query))) as Hin.
  { unfold select_trigram_matches, sql_limit in Hrow.
    rewrite <- (order_by_desc_perm _ (fun row => row.2)).
    destruct (limit <? 0); [done|].
    by eapply subseteq_take. }
  apply trigram_groups_spec in Hin as (d & Hd & -> & _). by exists d.
Qed.

(** The passage a result of the vector search comes from. *)
Lemma vector_result_source (db : DB) (queryEmbedding : list float32) (limit : Z)
    (results : list SearchResult) (r : SearchResult) :
  outcome (SearchVectors db queryEmbedding limit) = Ok results ->
  r ∈ results ->
  exists d, d ∈ documents db /\ ID r = Document_ID d
            /\ Snippet r = byte_snippet (Chunk d).
Proof.
  intros Hout Hr.
  rewrite SearchVectors_unfold in Hout. unfold outcome in Hout. simpl in Hout.
  destruct (conn_err db); [done|].
  destruct (truncate _ limit) as [scoredDocs| |] eqn:Htr; [|done..].
  injection Hout as <-.
  apply list_elem_of_fmap in Hr as (s & -> & Hs). simpl.
  apply truncate_subseteq in Htr.
  apply (sublist_subseteq _ _ Htr) in Hs.
  rewrite sort_Slice_perm in Hs.
  apply list_elem_of_fmap in Hs as (row & -> & Hrow).
  apply select_embeddings_spec in Hrow as (d & blob & Hd & _ & ->). by exists d.
Qed.

(** X3.  Every result of either search carries the snippet of a passage
    of the store with its id, built from the bytes of the passage. *)
Lemma search_snippets (db : DB) (query : text) (queryEmbedding : list float32)
    (limit : Z) (results : list SearchResult) (r : SearchResult) :
  outcome (SearchTrigrams db query limit) = Ok results
  \/ outcome (SearchVectors db queryEmbedding limit) = Ok results ->
  r ∈ results ->
  exists d, d ∈ documents db /\ ID r = Document_ID d
            /\ Snippet r = byte_snippet (Chunk d).
Proof.
  intros [Hout|Hout] Hr;
    [by eapply lexical_result_source|by eapply vector_result_source].
Qed.

End Paths.

(** ** The inputs of the fusion *)

Section Inputs.
Context {CT : CaseTable} {F64 : Float64} {F32 : Float32}
        {RT : GoRuntime} {SE : SqlEngine}.

Lemma filter_key_unique (docs : list Document) (k : Z) :
  NoDup (map Document_ID docs) ->
  (length (filter (fun d => Document_ID d = k) docs) <= 1)%nat.
Proof.
  induction docs as [|d docs IH]; simpl; [lia|].
  intros Hnd. apply NoDup_cons in Hnd as [Hnotin Hnd].
  rewrite filter_cons. destruct (decide (Document_ID d = k)) as [<-|Hne]; [|by apply IH].
  assert (filter (fun d' => Document_ID d' = Document_ID d) docs = []) as ->; [|simpl; lia].
  destruct (filter _ docs) as [|d' l] eqn:E; [done|]. exfalso. apply Hnotin.
  assert (d' ∈ filter (fun d' => Document_ID d' = Document_ID d) docs) as Hd'
    by (rewrite E; left).
  apply list_elem_of_filter in Hd' as [<- Hd']. by apply list_elem_of_fmap_2.
Qed.

Lemma embedding_rows_ids (docs : list Document) (embs : list (Z * list Z)) :
  NoDup (map Document_ID docs) ->
  map (fun row : Z * list Z * list Z => row.1.1)
    (flat_map (fun e : Z * list Z =>
                 map (fun d => (e.1, e.2, Chunk d))
                     (filter (fun d => Document_ID d = e.1) docs)) embs)
  `sublist_of` map fst embs.
Proof.
  intros Hnd. induction embs as [|e embs IH]; simpl; [done|].
  rewrite map_app, map_map. simpl.
  pose proof (filter_key_unique docs e.1 Hnd) as Hlen.
  destruct (filter (fun d => Document_ID d = e.1) docs) as [|d [|d' l]]; simpl in *.
  - by apply sublist_cons.
  - by apply sublist_skip.
  - lia.
Qed.

(** The ids of the results of the lexical search, and of the vector
    search. *)
Lemma lexical_ids_NoDup (db : DB) (query : text) (limit : Z)
    (results : list SearchResult) :
  NoDup (map Document_ID (documents db)) ->
  outcome (SearchTrigrams db query limit) = Ok results ->
  NoDup (map ID results).
Proof.
  intros Hdocs Hout.
  rewrite SearchTrigrams_unfold in Hout. unfold outcome in Hout.
  destruct (_ =? _)%nat; simpl in Hout.
  { injection Hout as <-. constructor. }
  destruct (conn_err db); [done|].
  destruct (_ >? _); [done|]. injection Hout as <-.
  set (Q := GenerateTrigrams (strings_ToLower query)).
  rewrite map_map.
  assert (forall rows : list (Z * list Z * Z),
            map (fun x => ID (trigram_result (f64_of_int (Z.of_nat (length Q))) x)) rows
            = map (fun row => row.1.1) rows) as ->.
  { intros rows. apply map_ext. by intros [[? ?] ?]. }
  eapply sublist_NoDup; [|apply (fmap_sublist (fun row : Z * list Z * Z => row.1.1))].
  2:{ unfold select_trigram_matches, sql_limit.
      destruct (limit <? 0); [done|apply sublist_take]. }
  change (NoDup ((fun row : Z * list Z * Z => row.1.1) <$>
                 order_by_desc (fun row => row.2) (trigram_groups db Q))).
  rewrite order_by_desc_perm.
  eapply sublist_NoDup; [exact Hdocs|apply group_ids_sublist].
Qed.

Lemma vector_ids_NoDup (db : DB) (queryEmbedding : list float32) (limit : Z)
    (results : list SearchResult) :
  NoDup (map Document_ID (documents db)) ->
  NoDup (map fst (embeddings db)) ->
  outcome (SearchVectors db queryEmbedding limit) = Ok results ->
  NoDup (map ID results).
Proof.
  intros Hdocs Hembs Hout.
  rewrite SearchVectors_unfold in Hout. unfold outcome in Hout. simpl in Hout.
  destruct (conn_err db); [done|].
  destruct (truncate _ limit) as [scoredDocs| |] eqn:Htr; [|done..].
  injection Hout as <-. rewrite map_map. simpl.
  apply truncate_subseteq in Htr.
  eapply sublist_NoDup; [|apply (fmap_sublist id), Htr].
  change (NoDup (id <$> sort_Slice (fun x y => f64_gtb (score x) (score y))
                   (map (vector_scored queryEmbedding) (select_embeddings db)))).
  rewrite sort_Slice_perm.
  change (NoDup (map id (map (vector_scored queryEmbedding) (select_embeddings db)))).
  rewrite map_map.
  assert (forall rows : list (Z * list Z * list Z),
            map (fun x => id (vector_scored queryEmbedding x)) rows
            = map (fun row => row.1.1) rows) as ->.
  { intros rows. apply map_ext. by intros [[? ?] ?]. }
  unfold select_embeddings.
  change (NoDup ((fun row : Z * list Z * list Z => row.1.1) <$>
     scan_order (flat_map (fun e : Z * list Z =>
        map (fun d => (e.1, e.2, Chunk d))
            (filter (fun d => Document_ID d = e.1) (documents db))) (embeddings db)))).
  rewrite scan_order_perm.
  eapply sublist_NoDup; [exact Hembs|by apply embedding_rows_ids].
Qed.

(** X4.  The two result lists that HybridSearch fuses name no passage
    twice, on a store that keeps the constraints of the schema. *)
Lemma search_results_distinct (db : DB) (query : text) (queryEmbedding : list float32)
    (limit : Z) (results : list SearchResult) :
  schema_ok db ->
  outcome (SearchTrigrams db query limit) = Ok results
  \/ outcome (SearchVectors db queryEmbedding limit) = Ok results ->
  NoDup (map ID results).
Proof.
  intros (Hdocs & Hembs & _) [Hout|Hout];
    [by eapply lexical_ids_NoDup|by eapply vector_ids_NoDup].
Qed.

End Inputs.

(** ** Serialization of embeddings *)

Lemma byte_of_shift (v k : Z) :
  0 <= k -> Z.land (Z.shiftr v k) 0xFF = (v / 2 ^ k) mod 2 ^ 8.
Proof.
  intros Hk. change 0xFF with (Z.ones 8).
  rewrite Z.land_ones by lia. by rewrite Z.shiftr_div_pow2.
Qed.

Lemma byte_bit (v k m : Z) :
  0 <= k ->
  Z.testbit (Z.land (Z.shiftr v k) 0xFF) m
  = (0 <=? m) && (m <? 8) && Z.testbit v (m + k).
Proof.
  intros Hk. change 0xFF with (Z.ones 8).
  destruct (decide (m < 0)).
  { rewrite Z.testbit_neg_r by lia. by assert ((0 <=? m) = false) as -> by lia. }
  rewrite Z.land_spec, Z.shiftr_spec by lia.
  assert ((0 <=? m) = true) as -> by lia. simpl.
  destruct (decide (m < 8)).
  - rewrite Z.ones_spec_low by lia. assert ((m <? 8) = true) as -> by lia.
    by rewrite andb_true_r.
  - rewrite Z.ones_spec_high by lia. assert ((m <? 8) = false) as -> by lia.
    by rewrite andb_false_r.
Qed.

Lemma Uint32_PutUint32 (v : Z) :
  match PutUint32 v with
  | [b0; b1; b2; b3] => Uint32 b0 b1 b2 b3
  | _ => -1
  end = v mod 2 ^ 32.
Proof.
  unfold PutUint32, Uint32.
  rewrite <- (Z.shiftr_0_r v) at 1.
  apply Z.bits_inj'. intros n Hn.
  rewrite !Z.lor_spec, !Z.shiftl_spec by lia.
  rewrite !byte_bit by lia.
  replace (n - 8 + 8) with n by lia. replace (n - 16 + 16) with n by lia.
  replace (n - 24 + 24) with n by lia. rewrite Z.add_0_r.
  destruct (decide (n < 32)) as [Hlow|Hhigh];
    [rewrite Z.mod_pow2_bits_low by lia|rewrite Z.mod_pow2_bits_high by lia].
  all: destruct (Z.testbit v n); [|by rewrite !andb_false_r].
  all: rewrite !andb_true_r.
  all: destruct (decide (n < 8)); [|destruct (decide (n < 16));
    [|destruct (decide (n < 24))]].
  all: try (exfalso; lia).
  all: repeat match goal with
         | |- context [?a <=? ?b] =>
             first [ assert ((a <=? b) = true) as -> by lia
                   | assert ((a <=? b) = false) as -> by lia ]
         | |- context [?a <? ?b] =>
             first [ assert ((a <? b) = true) as -> by lia
                   | assert ((a <? b) = false) as -> by lia ]
         end; reflexivity.
Qed.

Lemma PutUint32_bytes (v : Z) : Forall (fun b => 0 <= b < 256) (PutUint32 v).
Proof.
  unfold PutUint32. change 0xFF with (Z.ones 8).
  rewrite !Z.land_ones by lia.
  repeat constructor; try (apply Z.mod_pos_bound; lia).
Qed.

Section Serialization.
Context {F64 : Float64} {F32 : Float32}.

Lemma bytesToFloat32Slice_encoded (floats : list float32) :
  bytesToFloat32Slice (float32SliceToBytes floats)
  = map (fun f => Float32frombits (Float32bits f mod 2 ^ 32)) floats.
Proof.
  induction floats as [|f floats IH]; [done|].
  change (float32SliceToBytes (f :: floats))
    with (PutUint32 (Float32bits f) ++ float32SliceToBytes floats).
  pose proof (Uint32_PutUint32 (Float32bits f)) as Hbits.
  unfold PutUint32 in *. simpl. by rewrite Hbits, IH.
Qed.

Lemma float32SliceToBytes_length (floats : list float32) :
  length (float32SliceToBytes floats) = (4 * length floats)%nat.
Proof. induction floats as [|f floats IH]; simpl; [done|]. rewrite IH. lia. Qed.

(** X7.  Decoding the encoding of an embedding gives the embedding back.
    float32SliceToBytes writes four bytes for each number, each a value of
    a byte, and bytesToFloat32Slice reads the numbers back, for numbers
    whose bit pattern is a 32-bit value that [math.Float32frombits] maps
    back to the number (in Go, every [float32]). *)
Theorem float32_serialization_roundtrip (floats : list float32) :
  Forall (fun f => 0 <= Float32bits f < 2 ^ 32
                   /\ Float32frombits (Float32bits f) = f) floats ->
  bytesToFloat32Slice (float32SliceToBytes floats) = floats
  /\ length (float32SliceToBytes floats) = (4 * length floats)%nat
  /\ Forall (fun b => 0 <= b < 256) (float32SliceToBytes floats).
Proof.
  intros Hbits. split; [|split].
  - rewrite bytesToFloat32Slice_encoded.
    induction Hbits as [|f floats [Hrange Hf] _ IH]; simpl; [done|].
    rewrite Z.mod_small by done. by rewrite Hf, IH.
  - apply float32SliceToBytes_length.
  - unfold float32SliceToBytes. clear Hbits.
    induction floats as [|f floats IH]; [constructor|].
    change (Forall (fun b => 0 <= b < 256)
              (PutUint32 (Float32bits f)
               ++ flat_map (fun f => PutUint32 (Float32bits f)) floats)).
    apply Forall_app. split; [|done]. apply (PutUint32_bytes (Float32bits f)).
Qed.

Lemma bytesToFloat32Slice_length (bs : list Z) :
  Z.of_nat (length (bytesToFloat32Slice bs)) = Z.of_nat (length bs) / 4.
Proof.
  assert (forall n (bs : list Z), (length bs <= n)%nat ->
            Z.of_nat (length (bytesToFloat32Slice bs)) = Z.of_nat (length bs) / 4) as H.
  { clear bs. induction n as [|n IH]; intros bs Hn.
    - destruct bs; [done|simpl in Hn; lia].
    - destruct bs as [|b0 [|b1 [|b2 [|b3 rest]]]]; try done.
      change (bytesToFloat32Slice (b0 :: b1 :: b2 :: b3 :: rest))
        with (Float32frombits (Uint32 b0 b1 b2 b3) :: bytesToFloat32Slice rest).
      simpl length in *. rewrite Nat2Z.inj_succ, IH by lia.
      replace (Z.of_nat (S (S (S (S (length rest))))))
        with (1 * 4 + Z.of_nat (length rest)) by lia.
      rewrite Z.div_add_l by lia. lia. }
  by apply (H (length bs)).
Qed.

Lemma cosine_guard_zero (a b : list float32) :
  length a <> length b -> cosineSimilarity a b = f64_of_int 0.
Proof.
  intros Hne. unfold cosineSimilarity, cosine_path.
  assert ((length a =? length b)%nat = false) as -> by by apply Nat.eqb_neq.
  done.
Qed.

(** X8.  A stored blob is read as [len(blob)/4] numbers, trailing bytes
    dropped; when that is not the dimension of the query vector the
    passage leaves through the guard on the dimensions and is scored 0. *)
Theorem stored_dimension_mismatch (queryEmbedding : list float32) (blob : list Z) :
  Z.of_nat (length blob) / 4 <> Z.of_nat (length queryEmbedding) ->
  Z.of_nat (length (bytesToFloat32Slice blob)) = Z.of_nat (length blob) / 4
  /\ cosine_path queryEmbedding (bytesToFloat32Slice blob) = DimensionGuard
  /\ cosineSimilarity queryEmbedding (bytesToFloat32Slice blob) = f64_of_int 0
  /\ forall id chunk,
       score (vector_scored queryEmbedding (id, blob, chunk)) = f64_of_int 0.
Proof.
  intros Hne. pose proof (bytesToFloat32Slice_length blob) as Hlen.
  assert (length queryEmbedding <> length (bytesToFloat32Slice blob)) as Hdim by lia.
  assert (cosine_path queryEmbedding (bytesToFloat32Slice blob) = DimensionGuard) as Hpath.
  { unfold cosine_path.
    by assert ((length queryEmbedding =? length (bytesToFloat32Slice blob))%nat = false)
      as -> by by apply Nat.eqb_neq. }
  split; [done|]. split; [done|].
  assert (cosineSimilarity queryEmbedding (bytesToFloat32Slice blob) = f64_of_int 0) as Hz.
  { unfold cosineSimilarity. by rewrite Hpath. }
  split; [done|]. intros id chunk. exact Hz.
Qed.

End Serialization.

(** ** The chunks of the chunker *)

Lemma TrimRight_idemp (s : list Z) : TrimRight (TrimRight s) = TrimRight s.
Proof.
  induction s as [|c s IH]; [done|]. simpl.
  destruct (TrimRight s) as [|d kept] eqn:E.
  - destruct (unicode_IsSpace c) eqn:Hc; [done|]. simpl. by rewrite Hc.
  - change (TrimRight (c :: d :: kept))
      with (match TrimRight (d :: kept) with
            | [] => if unicode_IsSpace c then [] else [c]
            | k => c :: k
            end).
    by rewrite IH.
Qed.

Lemma TrimSpace_idemp (s : list Z) : TrimSpace (TrimSpace s) = TrimSpace s.
Proof.
  destruct (TrimSpace s) as [|c rest] eqn:E; [done|].
  destruct (TrimSpace_head s) as (c' & rest' & Heq & Hc); [by rewrite E|].
  rewrite E in Heq. injection Heq as <- <-.
  unfold TrimSpace at 1. cbn [TrimLeft]. rewrite Hc.
  rewrite <- E. unfold TrimSpace. apply TrimRight_idemp.
Qed.

Lemma window_end_upper (size : Z) (runes : list Z) (start : Z) :
  window_end size runes start <= start + size + 1.
Proof.
  unfold window_end.
  set (n := rune_count runes).
  destruct (start + size >? n) eqn:Hgt.
  - rewrite Z.ltb_irrefl. lia.
  - destruct (start + size <? n) eqn:Hlt; [|lia].
    destruct (find_back is_sentence_end runes (start + size ÷ 2) (start + size))
      as [i|] eqn:Hs.
    + apply find_back_range in Hs.
      destruct ((i + 1 =? start + size) && (i + 1 <? n)) eqn:Hc; [|lia].
      destruct (find_back is_blank runes (start + size ÷ 2) (i + 1)) as [k|] eqn:Hw; [|lia].
      apply find_back_range in Hw. lia.
    + rewrite Z.eqb_refl, Hlt. simpl.
      destruct (find_back is_blank runes (start + size ÷ 2) (start + size)) as [k|] eqn:Hw;
        [|lia].
      apply find_back_range in Hw. lia.
Qed.

(** What holds of the trimmed window of every pass, when it is not empty,
    holds of every chunk. *)
Lemma chunk_loop_Forall (P : list Z -> Prop) (cfg : Config) (runes : list Z) :
  (forall start, 0 <= start ->
     let chunk := TrimSpace (slice runes start (window_end (ChunkSize cfg) runes start)) in
     chunk <> [] -> P chunk) ->
  forall fuel start chunks result,
    0 <= start -> Forall P chunks ->
    chunk_loop fuel cfg runes start chunks = Some (Returned result) -> Forall P result.
Proof.
  intros HP. induction fuel as [|fuel IH]; intros start chunks result Hs Hc; [done|].
  cbn [chunk_loop]. destruct (start <? rune_count runes); [|by intros [= <-]].
  destruct (slice_in_range _ _ _); [|done].
  unfold chunk_step.
  set (e := window_end (ChunkSize cfg) runes start).
  set (chunk := TrimSpace (slice runes start e)).
  assert (Forall P (if str_len chunk >? 0 then chunks ++ [chunk] else chunks)) as Hc'.
  { destruct (str_len chunk >? 0) eqn:E; [|done].
    apply Forall_app. split; [done|]. repeat constructor.
    apply HP; [done|]. by apply str_len_pos. }
  destruct (e >=? rune_count runes); [by intros [= <-]|].
  apply IH; [|done]. unfold next_start. destruct (_ <? 0) eqn:E; lia.
Qed.

Lemma chunkText_Forall (P : list Z -> Prop) (cfg : Config) (t : list Z)
    (fuel : nat) (chunks : list (list Z)) :
  (forall start, 0 <= start ->
     let chunk := TrimSpace (slice (normalize t) start
                     (window_end (ChunkSize cfg) (normalize t) start)) in
     chunk <> [] -> P chunk) ->
  chunkText fuel cfg t = Some (Returned chunks) -> Forall P chunks.
Proof.
  intros HP. unfold chunkText. destruct (_ =? 0); [by intros [= <-]|].
  by apply chunk_loop_Forall.
Qed.

Lemma TrimRight_last (s : list Z) (r : Z) :
  last (TrimRight s) = Some r -> unicode_IsSpace r = false.
Proof.
  induction s as [|c s IH]; [done|]. simpl.
  destruct (TrimRight s) as [|d kept] eqn:E.
  - destruct (unicode_IsSpace c) eqn:Hc; [done|]. by intros [= <-].
  - rewrite last_cons. destruct (last (d :: kept)) as [x|] eqn:El.
    + intros [= <-]. by apply IH.
    + by rewrite last_cons in El; destruct (last kept).
Qed.

(** A negative chunk size: the first window ends before it starts, and
    the slice expression panics on any text that is not blank. *)
Lemma chunkText_negative_size (cfg : Config) (t : list Z) (fuel : nat) :
  ChunkSize cfg < 0 -> TrimSpace t <> [] ->
  chunkText (S fuel) cfg t = Some SliceOutOfRange.
Proof.
  intros Hsize Hne.
  destruct (normalize_head t Hne) as (c & Hc & _).
  assert (0 < rune_count (normalize t)) as Hpos.
  { apply lookup_lt_Some in Hc. unfold rune_count. lia. }
  unfold chunkText.
  assert ((rune_count (normalize t) =? 0) = false) as -> by lia.
  cbn [chunk_loop].
  assert ((0 <? rune_count (normalize t)) = true) as -> by lia.
  assert (window_end (ChunkSize cfg) (normalize t) 0 = ChunkSize cfg) as ->.
  { unfold window_end, find_back. rewrite !Z.add_0_l.
    assert (ChunkSize cfg <= ChunkSize cfg ÷ 2) as Hhalf.
    { replace (ChunkSize cfg) with (- (- ChunkSize cfg)) at 2 by lia.
      rewrite Z.quot_opp_l by lia. rewrite Z.quot_div_nonneg by lia.
      pose proof (Z.div_le_upper_bound (- ChunkSize cfg) 2 (- ChunkSize cfg)). lia. }
    assert ((ChunkSize cfg >? rune_count (normalize t)) = false) as -> by lia.
    assert ((ChunkSize cfg <? rune_count (normalize t)) = true) as -> by lia.
    assert (Z.to_nat (ChunkSize cfg - ChunkSize cfg ÷ 2) = 0%nat) as -> by lia.
    simpl. rewrite Z.eqb_refl. simpl.
    assert ((ChunkSize cfg <? rune_count (normalize t)) = true) as -> by lia.
    by assert (Z.to_nat (ChunkSize cfg - ChunkSize cfg ÷ 2) = 0%nat) as -> by lia. }
  by assert (slice_in_range (normalize t) 0 (ChunkSize cfg) = false) as ->
    by (unfold slice_in_range; lia).
Qed.

(** X9.  Every chunk chunkText returns has at least one character and at
    most [ChunkSize + 1]: a sentence end found at the index of the raw
    boundary moves the cut one past it. *)
Theorem chunkText_chunk_length (cfg : Config) (t : list Z) (fuel : nat)
    (chunks : list (list Z)) :
  1 <= ChunkSize cfg ->
  chunkText fuel cfg t = Some (Returned chunks) ->
  Forall (fun c => 1 <= rune_count c <= ChunkSize cfg + 1) chunks.
Proof.
  intros _. apply chunkText_Forall. intros start Hs chunk Hne.
  pose proof (window_end_upper (ChunkSize cfg) (normalize t) start).
  pose proof (TrimSpace_length
    (slice (normalize t) start (window_end (ChunkSize cfg) (normalize t) start))) as Hlen.
  fold chunk in Hlen. unfold slice in Hlen. rewrite length_take in Hlen.
  unfold rune_count. destruct chunk; [done|]. simpl in *. lia.
Qed.

(** X10.  Every chunk chunkText returns is trimmed: trimming it again
    changes nothing, and neither its first nor its last character is
    white space. *)
Theorem chunkText_chunks_trimmed (cfg : Config) (t : list Z) (fuel : nat)
    (chunks : list (list Z)) :
  1 <= ChunkSize cfg ->
  chunkText fuel cfg t = Some (Returned chunks) ->
  Forall (fun c => TrimSpace c = c
                   /\ (forall r, head c = Some r -> unicode_IsSpace r = false)
                   /\ (forall r, last c = Some r -> unicode_IsSpace r = false)) chunks.
Proof.
  intros _. apply chunkText_Forall. intros start Hs chunk Hne.
  split; [apply TrimSpace_idemp|]. split.
  - intros r Hr. destruct (TrimSpace_head _ Hne) as (c & rest & Heq & Hc).
    fold chunk in Heq. rewrite Heq in Hr. by injection Hr as <-.
  - intros r. unfold chunk, TrimSpace. apply TrimRight_last.
Qed.

(** ** The vector search, and limits out of range *)

Section VectorSearch.
Context {CT : CaseTable} {F64 : Float64} {F32 : Float32}
        {RT : GoRuntime} {SE : SqlEngine}.

(** The rows of the join, in the order of the embeddings table. *)
Definition embedding_rows (db : DB) : list (Z * list Z * list Z) :=
  flat_map (fun e : Z * list Z =>
              map (fun d => (e.1, e.2, Chunk d))
                  (filter (fun d => Document_ID d = e.1) (documents db)))
    (embeddings db).

Lemma select_embeddings_rows (db : DB) : select_embeddings db ≡ₚ embedding_rows db.
Proof. apply scan_order_perm. Qed.

Lemma embedding_rows_spec (db : DB) (row : Z * list Z * list Z) :
  row ∈ embedding_rows db <->
  exists d blob, d ∈ documents db /\ (Document_ID d, blob) ∈ embeddings db
                 /\ row = (Document_ID d, blob, Chunk d).
Proof.
  unfold embedding_rows. rewrite list_elem_of_In, in_flat_map. split.
  - intros ([k blob] & He & Hrow). apply list_elem_of_In in He, Hrow.
    apply list_elem_of_fmap in Hrow as (d & -> & Hd).
    apply list_elem_of_filter in Hd as [Hid Hd]. simpl in *. subst k.
    by exists d, blob.
  - intros (d & blob & Hd & He & ->). exists (Document_ID d, blob).
    split; [by apply list_elem_of_In|]. apply list_elem_of_In.
    apply list_elem_of_fmap. exists d. split; [done|].
    by apply list_elem_of_filter.
Qed.

Lemma filter_key_one (docs : list Document) (k : Z) :
  NoDup (map Document_ID docs) -> k ∈ map Document_ID docs ->
  length (filter (fun d => Document_ID d = k) docs) = 1%nat.
Proof.
  intros Hnd Hk. pose proof (filter_key_unique docs k Hnd) as Hle.
  apply list_elem_of_fmap in Hk as (d & -> & Hd).
  assert (d ∈ filter (fun d' => Document_ID d' = Document_ID d) docs) as Hin
    by by apply list_elem_of_filter.
  destruct (filter _ docs); [by apply elem_of_nil in Hin|]. simpl in *. lia.
Qed.

Lemma embedding_rows_length (db : DB) :
  schema_ok db -> length (embedding_rows db) = length (embeddings db).
Proof.
  intros (Hdocs & _ & _ & Hfk). unfold embedding_rows.
  assert (forall id b, (id, b) ∈ embeddings db ->
            id ∈ map Document_ID (documents db)) as H by exact Hfk.
  clear Hfk. induction (embeddings db) as [|[k blob] embs IH]; [done|].
  simpl. rewrite length_app, length_map, IH.
  - rewrite filter_key_one; [done|done|]. apply (H k blob). left.
  - intros id b Hin. apply (H id b). by right.
Qed.

(** The result of one row of the join. *)
Definition vector_result (queryEmbedding : list float32) (row : Z * list Z * list Z)
  : SearchResult :=
  {| ID := row.1.1;
     Score := cosineSimilarity queryEmbedding (bytesToFloat32Slice row.1.2);
     Snippet := byte_snippet row.2 |}.

Lemma vector_scored_result (queryEmbedding : list float32) (row : Z * list Z * list Z) :
  {| ID := id (vector_scored queryEmbedding row);
     Score := score (vector_scored queryEmbedding row);
     Snippet := snippet (vector_scored queryEmbedding row) |}
  = vector_result queryEmbedding row.
Proof. by destruct row as [[k blob] chunk]. Qed.

(** X11.  SearchVectors on a database that can be reached, for a limit
    that is not negative.  It issues one statement and returns the first
    [limit] entries of a ranking that has an entry for each stored
    embedding that belongs to a passage, scored with the cosine
    similarity of the query and the decoded embedding and carrying the
    snippet of the passage.  Under the constraints of the schema every
    stored embedding is ranked, once, whatever its score.  The ranking is
    ordered by score, descending, when [>] is a strict weak ordering on
    the scores, as it is on numbers that are not NaN. *)
Theorem SearchVectors_ranking (db : DB) (queryEmbedding : list float32) (limit : Z) :
  conn_err db = None -> 0 <= limit ->
  exists ranking : list SearchResult,
    SearchVectors db queryEmbedding limit
    = ([SelectEmbeddings], Ok (take (Z.to_nat limit) ranking))
    /\ Z.of_nat (length (take (Z.to_nat limit) ranking)) <= limit
    /\ (forall r, r ∈ ranking <->
          exists d blob, d ∈ documents db /\ (Document_ID d, blob) ∈ embeddings db
            /\ r = {| ID := Document_ID d;
                      Score := cosineSimilarity queryEmbedding (bytesToFloat32Slice blob);
                      Snippet := byte_snippet (Chunk d) |})
    /\ (schema_ok db ->
        length ranking = length (embeddings db) /\ NoDup (map ID ranking))
    /\ (strict_weak_on f64_gtb
          (map (fun e : Z * list Z =>
                  cosineSimilarity queryEmbedding (bytesToFloat32Slice e.2))
               (embeddings db)) = true ->
        sorted_by (fun x y => f64_gtb (Score x) (Score y)) ranking).
Proof.
  intros Hconn Hlimit.
  set (less := fun x y : scored => f64_gtb (score x) (score y)).
  set (rows := map (vector_scored queryEmbedding) (select_embeddings db)).
  set (result := fun s => {| ID := id s; Score := score s; Snippet := snippet s |}).
  exists (map result (sort_Slice less rows)).
  assert (map result (sort_Slice less rows)
          ≡ₚ map (vector_result queryEmbedding) (embedding_rows db)) as Hperm.
  { rewrite sort_Slice_perm. unfold rows. rewrite <- select_embeddings_rows.
    rewrite <- list_fmap_compose.
    assert (result ∘ vector_scored queryEmbedding <$> select_embeddings db
            = vector_result queryEmbedding <$> select_embeddings db) as ->; [|done].
    apply list_fmap_ext. intros i row _. apply vector_scored_result. }
  split.
  { rewrite SearchVectors_unfold, Hconn. fold less rows.
    rewrite truncate_take by done. by rewrite fmap_take. }
  split; [rewrite length_take; lia|].
  split.
  { intros r. rewrite Hperm, list_elem_of_fmap. split.
    - intros (row & -> & Hrow).
      apply embedding_rows_spec in Hrow as (d & blob & Hd & He & ->). by exists d, blob.
    - intros (d & blob & Hd & He & ->). exists (Document_ID d, blob, Chunk d).
      split; [done|]. apply embedding_rows_spec. by exists d, blob. }
  split.
  { intros Hschema. split.
    - rewrite Hperm, length_map. by apply embedding_rows_length.
    - rewrite Hperm. destruct Hschema as (Hdocs & Hembs & _).
      change (NoDup (ID <$> (vector_result queryEmbedding <$> embedding_rows db))).
      rewrite <- list_fmap_compose.
      eapply sublist_NoDup; [exact Hembs|].
      by apply embedding_rows_ids. }
  intros Hswo.
  assert (sorted_by less (sort_Slice less rows)) as Hsorted.
  { apply sort_Slice_sorted.
    apply (strict_weak_on_fmap f64_gtb score _ rows Hswo).
    intros s Hs. apply list_elem_of_fmap in Hs as (row & -> & Hrow).
    rewrite select_embeddings_rows in Hrow.
    apply embedding_rows_spec in Hrow as (d & blob & Hd & He & ->).
    apply list_elem_of_fmap. by exists (Document_ID d, blob). }
  intros i j x y Hij Hx Hy.
  rewrite list_lookup_fmap in Hx, Hy.
  destruct (sort_Slice less rows !! i) as [sx|] eqn:Hsx; [|done].
  destruct (sort_Slice less rows !! j) as [sy|] eqn:Hsy; [|done].
  simpl in Hx, Hy. injection Hx as <-. injection Hy as <-.
  exact (Hsorted i j sx sy Hij Hsx Hsy).
Qed.

Lemma truncate_negative {A} (l : list A) (limit : Z) :
  limit < 0 -> truncate l limit = Panic.
Proof.
  intros H. unfold truncate.
  assert ((Z.of_nat (length l) >? limit) = true) as -> by (apply Z.gtb_lt; lia).
  by assert ((limit <? 0) = true) as -> by lia.
Qed.

Lemma SearchVectors_panics (db : DB) (queryEmbedding : list float32) (limit : Z) :
  conn_err db = None -> limit < 0 ->
  SearchVectors db queryEmbedding limit = ([SelectEmbeddings], Panic).
Proof.
  intros Hconn Hlimit. rewrite SearchVectors_unfold, Hconn.
  by rewrite truncate_negative.
Qed.

Lemma SearchTrigrams_reachable (db : DB) (query : text) (limit : Z) :
  conn_err db = None ->
  Z.of_nat (length (GenerateTrigrams (strings_ToLower query)))
    < SQLITE_MAX_VARIABLE_NUMBER ->
  exists results, outcome (SearchTrigrams db query limit) = Ok results.
Proof.
  intros Hconn Hvars. rewrite SearchTrigrams_run by done.
  destruct (_ =? _)%nat; unfold outcome; simpl; by eexists.
Qed.

Lemma SearchVectors_reachable (db : DB) (queryEmbedding : list float32) (limit : Z) :
  conn_err db = None ->
  (exists results, outcome (SearchVectors db queryEmbedding limit) = Ok results)
  \/ outcome (SearchVectors db queryEmbedding limit) = Panic.
Proof.
  intros Hconn. rewrite SearchVectors_unfold, Hconn. unfold outcome. simpl.
  unfold truncate. destruct (_ >? _); [|left; by eexists].
  destruct (limit <? 0); [by right|left; by eexists].
Qed.

Lemma wrap_int_range (z : Z) : - 2 ^ 63 <= wrap_int z < 2 ^ 63.
Proof. unfold wrap_int. pose proof (Z.mod_pos_bound (z + 2 ^ 63) (2 ^ 64)). lia. Qed.

Lemma HybridSearch_outcome (db : DB) (query : text)
    (queryEmbedding : option (list float32)) (limit : Z) :
  outcome (HybridSearch db query queryEmbedding limit) =
    match outcome (SearchTrigrams db query (wrap_int (limit * 2))) with
    | Ok trigramResults =>
        match queryEmbedding with
        | None => truncate trigramResults limit
        | Some q =>
            match outcome (SearchVectors db q (wrap_int (limit * 2))) with
            | Ok vectorResults => rrf_fuse trigramResults vectorResults limit
            | Err e => Err e
            | Panic => Panic
            end
        end
    | Err e => Err e
    | Panic => Panic
    end.
Proof.
  unfold HybridSearch, outcome, exec_bind, exec_lift.
  destruct (SearchTrigrams db query _) as [tr1 [T| |]]; simpl; [|done..].
  destruct queryEmbedding as [q|]; [|done].
  by destruct (SearchVectors db q _) as [tr2 [V| |]].
Qed.

Lemma rrf_fuse_negative (lexical vector : list SearchResult) (limit : Z) :
  limit < 0 -> rrf_fuse lexical vector limit = Panic.
Proof.
  intros H. unfold rrf_fuse. destruct (fuse_maps lexical vector) as [scores snippets].
  by rewrite truncate_negative.
Qed.

(** X12.  A negative limit is not checked.  On a database that can be
    reached SearchVectors panics for it: the slice expression
    [scoredDocs[:limit]] is evaluated, also on an empty list.  So does
    HybridSearch, with or without a query vector, once its lexical search
    has ended well; for a query with more trigrams than the parameters
    SQLite takes it returns the error of the lexical search before any
    slice is taken. *)
Theorem negative_limit_panics (db : DB) (query : text)
    (queryEmbedding : list float32) (limit : Z) :
  conn_err db = None -> limit < 0 ->
  let n := Z.of_nat (length (GenerateTrigrams (strings_ToLower query))) in
  outcome (SearchVectors db queryEmbedding limit) = Panic
  /\ (n < SQLITE_MAX_VARIABLE_NUMBER ->
      outcome (HybridSearch db query None limit) = Panic
      /\ outcome (HybridSearch db query (Some queryEmbedding) limit) = Panic)
  /\ (SQLITE_MAX_VARIABLE_NUMBER <= n ->
      forall embedding,
        outcome (HybridSearch db query embedding limit)
        = Err "failed to search trigrams: too many SQL variables").
Proof.
  intros Hconn Hlimit n.
  split; [by rewrite SearchVectors_panics|]. split.
  - intros Hvars. rewrite !HybridSearch_outcome.
    destruct (SearchTrigrams_reachable db query (wrap_int (limit * 2)) Hconn Hvars)
      as [lexical ->].
    split; [by apply truncate_negative|].
    destruct (SearchVectors_reachable db queryEmbedding (wrap_int (limit * 2)) Hconn)
      as [[vector ->]| ->]; [|done].
    by apply rrf_fuse_negative.
  - intros Hvars embedding. rewrite HybridSearch_outcome.
    by rewrite SearchTrigrams_too_many.
Qed.

(** The limits whose double leaves the range of [int]. *)
Lemma HybridSearch_doubling_overflow (db : DB) (query : text)
    (queryEmbedding : list float32) (limit : Z) :
  conn_err db = None -> 2 ^ 62 <= limit < 2 ^ 63 ->
  Z.of_nat (length (GenerateTrigrams (strings_ToLower query)))
    < SQLITE_MAX_VARIABLE_NUMBER ->
  wrap_int (limit * 2) < 0
  /\ outcome (HybridSearch db query (Some queryEmbedding) limit) = Panic.
Proof.
  intros Hconn Hlimit Hvars.
  assert (wrap_int (limit * 2) < 0) as Hneg.
  { destruct (wrap_int_double limit) as [Heq|Hn]; [lia| |done].
    pose proof (wrap_int_range (limit * 2)). lia. }
  split; [done|].
  rewrite HybridSearch_outcome.
  destruct (SearchTrigrams_reachable db query (wrap_int (limit * 2)) Hconn Hvars)
    as [lexical ->].
  by rewrite SearchVectors_panics.
Qed.

End VectorSearch.

(** ** Short queries, a database out of reach, stored passages *)

Lemma GenerateTrigrams_short `{CaseTable} (T : text) :
  rune_count T < 3 -> GenerateTrigrams T = [].
Proof.
  intros Hshort. destruct (GenerateTrigrams_windows T) as [_ Hwin].
  destruct (GenerateTrigrams T) as [|t ts] eqn:E; [done|].
  assert (t ∈ t :: ts) as Ht by left.
  apply Hwin in Ht as (k & Hk & _).
  pose proof (TrimSpace_length (strings_ToLower T)).
  pose proof (strings_ToLower_length T).
  unfold rune_count in Hshort. exfalso. lia.
Qed.

Lemma GetDocument_stored (db : DB) (d : Document) :
  conn_err db = None ->
  NoDup (map Document_ID (documents db)) ->
  d ∈ documents db ->
  GetDocument db (Document_ID d) = ([SelectDocument (Document_ID d)], Ok (Some d)).
Proof.
  intros Hconn Hnd Hd.
  assert (filter (fun d' => Document_ID d' = Document_ID d) (documents db) = [d]) as Hf.
  { pose proof (filter_key_one (documents db) (Document_ID d) Hnd) as Hone.
    assert (d ∈ filter (fun d' => Document_ID d' = Document_ID d) (documents db)) as Hin
      by by apply list_elem_of_filter.
    destruct (filter _ (documents db)) as [|x [|y l]]; simpl in Hone.
    - by apply elem_of_nil in Hin.
    - apply list_elem_of_singleton in Hin. by subst.
    - specialize (Hone ltac:(by apply list_elem_of_fmap_2)). lia. }
  unfold GetDocument, select_document. by rewrite Hconn, Hf.
Qed.

Section Edges.
Context {CT : CaseTable} {F64 : Float64} {F32 : Float32}
        {RT : GoRuntime} {SE : SqlEngine}.

(** X13.  A query of fewer than three characters has no trigram:
    SearchTrigrams returns no result and no error and issues no
    statement, whatever the state of the database, and so does
    HybridSearch without a query vector. *)
Theorem SearchTrigrams_short_query (db : DB) (query : text) (limit : Z) :
  rune_count query < 3 ->
  GenerateTrigrams (strings_ToLower query) = []
  /\ SearchTrigrams db query limit = ([], Ok [])
  /\ (0 <= limit -> HybridSearch db query None limit = ([], Ok [])).
Proof.
  intros Hshort.
  assert (GenerateTrigrams (strings_ToLower query) = []) as HQ.
  { apply GenerateTrigrams_short. pose proof (strings_ToLower_length query).
    unfold rune_count in *. lia. }
  assert (forall l, SearchTrigrams db query l = ([], Ok [])) as Hsearch.
  { intros l. rewrite SearchTrigrams_unfold. rewrite HQ. reflexivity. }
  split; [done|]. split; [done|].
  intros Hlimit. unfold HybridSearch. rewrite Hsearch.
  unfold exec_bind, exec_lift. rewrite truncate_take by done. by rewrite take_nil.
Qed.

(** X14.  While the database cannot be reached every read fails with
    the error of the connection under its own prefix, after one
    statement: GetDocument, SearchVectors, and SearchTrigrams for a query
    with trigrams.  HybridSearch fails in the lexical search when the
    query has trigrams, and in the vector search when it has none and a
    query vector is given.  The gdpr_get handler reports the failure as a
    tool error. *)
Theorem unreachable_database_errors {Id} (db : DB) (e : string) (query : text)
    (queryEmbedding : list float32) (limit id : Z) (req : Id) :
  conn_err db = Some e ->
  let Q := GenerateTrigrams (strings_ToLower query) in
  GetDocument db id = ([SelectDocument id], Err ("failed to get document: " +:+ e))
  /\ SearchVectors db queryEmbedding limit
     = ([SelectEmbeddings], Err ("failed to query embeddings: " +:+ e))
  /\ (Q <> [] ->
      SearchTrigrams db query limit
      = ([SelectTrigramMatches Q limit], Err ("failed to search trigrams: " +:+ e))
      /\ forall embedding,
           HybridSearch db query embedding limit
           = ([SelectTrigramMatches Q (wrap_int (limit * 2))],
              Err ("failed to search trigrams: " +:+ e)))
  /\ (Q = [] ->
      HybridSearch db query (Some queryEmbedding) limit
      = ([SelectEmbeddings], Err ("failed to query embeddings: " +:+ e)))
  /\ (0 < id ->
      handleGetTool db req (Decoded id)
      = writeToolError req ("Failed to get document: failed to get document: " +:+ e)).
Proof.
  intros Hconn Q.
  assert (GetDocument db id
          = ([SelectDocument id], Err ("failed to get document: " +:+ e))) as Hget.
  { unfold GetDocument, select_document. by rewrite Hconn. }
  assert (forall l, SearchVectors db queryEmbedding l
          = ([SelectEmbeddings], Err ("failed to query embeddings: " +:+ e))) as Hvec.
  { intros l. rewrite SearchVectors_unfold. by rewrite Hconn. }
  split; [done|]. split; [done|]. split; [|split].
  - intros HQ.
    assert (forall l, SearchTrigrams db query l
            = ([SelectTrigramMatches Q l], Err ("failed to search trigrams: " +:+ e)))
      as Hlex.
    { intros l. rewrite SearchTrigrams_unfold. fold Q.
      assert ((length Q =? 0)%nat = false) as -> by (apply Nat.eqb_neq; by destruct Q).
      by rewrite Hconn. }
    split; [done|]. intros embedding. unfold HybridSearch. by rewrite Hlex.
  - intros HQ. unfold HybridSearch. rewrite SearchTrigrams_unfold. fold Q. rewrite HQ.
    simpl. rewrite Hvec. done.
  - intros Hid. unfold handleGetTool. rewrite Hget.
    by assert ((id <=? 0) = false) as -> by lia.
Qed.

(** X16.  On a database that can be reached and whose ids are unique,
    GetDocument returns the stored passage for its id, and the gdpr_get
    handler answers a positive such id with the passage (id, chunk and
    chunk index), not marked as an error. *)
Theorem get_stored_document {Id} (db : DB) (req : Id) (d : Document) :
  conn_err db = None ->
  NoDup (map Document_ID (documents db)) ->
  d ∈ documents db ->
  GetDocument db (Document_ID d) = ([SelectDocument (Document_ID d)], Ok (Some d))
  /\ (0 < Document_ID d ->
      handleGetTool db req (Decoded (Document_ID d))
      = writeToolResult req (DocumentJSON (Document_ID d) (Chunk d) (ChunkIndex d))).
Proof.
  intros Hconn Hnd Hd.
  pose proof (GetDocument_stored db d Hconn Hnd Hd) as Hget.
  split; [done|]. intros Hpos. unfold handleGetTool. rewrite Hget.
  by assert ((Document_ID d <=? 0) = false) as -> by lia.
Qed.

End Edges.

(** ** The results of HybridSearch *)

Lemma foldl_invariant {S X} (Inv : S -> Prop) (step : S -> X -> S) (xs : list X) :
  (forall st x, x ∈ xs -> Inv st -> Inv (step st x)) ->
  forall st, Inv st -> Inv (foldl step st xs).
Proof.
  induction xs as [|x xs IH]; intros Hstep st Hst; [done|]. simpl.
  apply IH.
  - intros st' x' Hx'. apply Hstep. by right.
  - apply Hstep; [left|done].
Qed.

Section Bounded.
Context {CT : CaseTable} {F64 : Float64} {F32 : Float32}
        {RT : GoRuntime} {SE : SqlEngine}.

(** The two maps of the fusion hold passages of the two lists only, each
    with a snippet one of the lists gives it. *)
Definition fusion_maps_from (L : list SearchResult)
    (st : gmap Z float64 * gmap Z (list Z)) : Prop :=
  (forall k, is_Some (st.1 !! k) -> is_Some (st.2 !! k))
  /\ (forall k s, st.2 !! k = Some s -> exists r, r ∈ L /\ ID r = k /\ Snippet r = s).

Lemma fuse_trigram_from (L : list SearchResult) st (i : nat) (r : SearchResult) :
  r ∈ L -> fusion_maps_from L st -> fusion_maps_from L (fuse_trigram st (i, r)).
Proof.
  destruct st as [sc sn]. intros Hr [Hdom Hsn]. simpl in *.
  unfold add_score. split; simpl.
  - intros k. destruct (decide (ID r = k)) as [<-|Hne].
    + rewrite !lookup_insert_eq. by eauto.
    + rewrite !lookup_insert_ne by done. apply Hdom.
  - intros k s. destruct (decide (ID r = k)) as [<-|Hne].
    + rewrite lookup_insert_eq. intros [= <-]. by exists r.
    + rewrite lookup_insert_ne by done. apply Hsn.
Qed.

Lemma fuse_vector_from (L : list SearchResult) st (i : nat) (r : SearchResult) :
  r ∈ L -> fusion_maps_from L st -> fusion_maps_from L (fuse_vector st (i, r)).
Proof.
  destruct st as [sc sn]. intros Hr [Hdom Hsn]. simpl in *.
  unfold add_score. destruct (sn !! ID r) as [s0|] eqn:E; split; simpl.
  - intros k. destruct (decide (ID r = k)) as [<-|Hne].
    + rewrite lookup_insert_eq, E. by eauto.
    + rewrite lookup_insert_ne by done. apply Hdom.
  - apply Hsn.
  - intros k. destruct (decide (ID r = k)) as [<-|Hne].
    + rewrite !lookup_insert_eq. by eauto.
    + rewrite !lookup_insert_ne by done. apply Hdom.
  - intros k s. destruct (decide (ID r = k)) as [<-|Hne].
    + rewrite lookup_insert_eq. intros [= <-]. by exists r.
    + rewrite lookup_insert_ne by done. apply Hsn.
Qed.

Lemma fuse_maps_from (lexical vector : list SearchResult) :
  fusion_maps_from (lexical ++ vector) (fuse_maps lexical vector).
Proof.
  unfold fuse_maps.
  apply foldl_invariant.
  - intros st [i r] Hin. apply elem_of_lookup_imap in Hin as (j & y & [= -> ->] & Hy).
    apply fuse_vector_from. apply elem_of_app. right. by eapply list_elem_of_lookup_2.
  - apply foldl_invariant.
    + intros st [i r] Hin. apply elem_of_lookup_imap in Hin as (j & y & [= -> ->] & Hy).
      apply fuse_trigram_from. apply elem_of_app. left. by eapply list_elem_of_lookup_2.
    + split; simpl.
      * intros k. rewrite lookup_empty. by intros [? ?].
      * intros k s. by rewrite lookup_empty.
Qed.

(** The results of the fusion: no passage twice, each from one of the
    lists, with the snippet a list gives it. *)
Lemma rrf_fuse_results (lexical vector : list SearchResult) (limit : Z)
    (results : list SearchResult) :
  rrf_fuse lexical vector limit = Ok results ->
  NoDup (map ID results)
  /\ (forall r, r ∈ results ->
        exists r0, r0 ∈ lexical ++ vector /\ ID r0 = ID r /\ Snippet r0 = Snippet r)
  /\ (0 <= limit -> Z.of_nat (length results) <= limit).
Proof.
  unfold rrf_fuse. pose proof (fuse_maps_from lexical vector) as [Hdom Hsn].
  destruct (fuse_maps lexical vector) as [scores snippets]. simpl in *.
  set (mk := fun '(id, score) => {| doc_id := id; doc_score := score |}).
  set (less := fun x y => f64_gtb (doc_score x) (doc_score y)).
  set (sorted1 := sort_Slice less (map mk (map_range scores))).
  set (result := fun s => {| ID := doc_id s; Score := doc_score s;
                             Snippet := default [] (snippets !! doc_id s) |}).
  destruct (truncate sorted1 limit) as [sorted2| |] eqn:Htr; [|done..].
  intros [= <-].
  assert (sorted1 ≡ₚ map mk (map_to_list scores)) as Hperm.
  { unfold sorted1. rewrite sort_Slice_perm. apply Permutation_map, map_range_perm. }
  assert (map doc_id (map mk (map_to_list scores)) = (map_to_list scores).*1) as Hfst.
  { rewrite map_map. apply map_ext. by intros []. }
  pose proof (truncate_subseteq _ _ _ Htr) as Hsub.
  split; [|split].
  - rewrite map_map. change (NoDup (doc_id <$> sorted2)).
    eapply sublist_NoDup; [|apply (fmap_sublist doc_id), Hsub].
    change (NoDup (map doc_id sorted1)). rewrite Hperm, Hfst.
    apply NoDup_fst_map_to_list.
  - intros r Hr. apply list_elem_of_fmap in Hr as (sd & -> & Hin). simpl.
    apply (sublist_subseteq _ _ Hsub) in Hin. rewrite Hperm in Hin.
    apply list_elem_of_fmap in Hin as ([k s] & -> & Hks). simpl.
    apply elem_of_map_to_list in Hks.
    destruct (Hdom k) as [sn Hk]; [by eauto|]. rewrite Hk. simpl.
    by apply Hsn.
  - intros Hlimit. rewrite truncate_take in Htr by done. injection Htr as <-.
    rewrite length_map, length_take. lia.
Qed.

(** In the range of limits whose double is an [int], HybridSearch does
    not panic and returns at most [limit] results. *)
Lemma HybridSearch_safe (db : DB) (query : text)
    (queryEmbedding : option (list float32)) (limit : Z) :
  0 < limit < 2 ^ 62 ->
  outcome (HybridSearch db query queryEmbedding limit) <> Panic
  /\ (conn_err db = None ->
      Z.of_nat (length (GenerateTrigrams (strings_ToLower query)))
        < SQLITE_MAX_VARIABLE_NUMBER ->
      exists results, outcome (HybridSearch db query queryEmbedding limit) = Ok results)
  /\ forall results,
       outcome (HybridSearch db query queryEmbedding limit) = Ok results ->
       Z.of_nat (length results) <= limit.
Proof.
  intros Hlimit.
  assert (wrap_int (limit * 2) = limit * 2) as Hwrap.
  { unfold wrap_int. rewrite Z.mod_small; lia. }
  rewrite HybridSearch_outcome, Hwrap.
  destruct (outcome (SearchTrigrams db query (limit * 2))) as [lexical|e|] eqn:Hlex.
  - destruct queryEmbedding as [q|].
    + destruct (outcome (SearchVectors db q (limit * 2))) as [vector|e|] eqn:Hvec.
      * destruct (rrf_fuse lexical vector limit) as [results| |] eqn:Hfuse.
        -- split; [done|]. split; [by eexists|]. intros ? [= <-].
           destruct (rrf_fuse_results _ _ _ _ Hfuse) as (_ & _ & Hlen). apply Hlen. lia.
        -- exfalso. unfold rrf_fuse in Hfuse. destruct (fuse_maps _ _).
           by rewrite truncate_take in Hfuse by lia.
        -- exfalso. unfold rrf_fuse in Hfuse. destruct (fuse_maps _ _).
           by rewrite truncate_take in Hfuse by lia.
      * split; [done|]. split; [|done]. intros Hconn _.
        rewrite SearchVectors_unfold, Hconn in Hvec. unfold outcome in Hvec.
        simpl in Hvec. by rewrite truncate_take in Hvec by lia.
      * exfalso. rewrite SearchVectors_unfold in Hvec. unfold outcome in Hvec.
        simpl in Hvec. destruct (conn_err db); [done|].
        by rewrite truncate_take in Hvec by lia.
    + rewrite truncate_take by lia.
      split; [done|]. split; [by eexists|]. intros ? [= <-].
      rewrite length_take; lia.
  - split; [done|]. split; [|done].
    intros Hconn Hvars.
    destruct (SearchTrigrams_reachable db query (limit * 2) Hconn Hvars) as [? H].
    congruence.
  - exfalso. rewrite SearchTrigrams_unfold in Hlex. unfold outcome in Hlex.
    destruct (_ =? _)%nat; [done|]. simpl in Hlex.
    destruct (conn_err db); [done|]. by destruct (_ >? _).
Qed.

(** X2.  With a query vector, on a database that can be reached and
    keeps the constraints of the schema, for a query with fewer trigrams
    than the parameters SQLite takes and a limit from 1 to [2^62 - 1]:
    HybridSearch issues the statement of the lexical search and then the
    scan of the embeddings, runs both searches with twice the limit, and
    returns the first [limit] entries of a ranking that has each passage
    of either result list once, scored with the sum over the two lists of
    [1/(60 + rank)], and ordered by that score, descending, when [>] is a
    strict weak ordering on the scores. *)
Theorem HybridSearch_fuses (db : DB) (query : text) (queryEmbedding : list float32)
    (limit : Z) :
  0 < limit < 2 ^ 62 ->
  conn_err db = None ->
  schema_ok db ->
  Z.of_nat (length (GenerateTrigrams (strings_ToLower query)))
    < SQLITE_MAX_VARIABLE_NUMBER ->
  exists lexical vector ranking,
    outcome (SearchTrigrams db query (limit * 2)) = Ok lexical
    /\ outcome (SearchVectors db queryEmbedding (limit * 2)) = Ok vector
    /\ issued (HybridSearch db query (Some queryEmbedding) limit)
       = issued (SearchTrigrams db query (limit * 2)) ++ [SelectEmbeddings]
    /\ outcome (HybridSearch db query (Some queryEmbedding) limit)
       = Ok (take (Z.to_nat limit) ranking)
    /\ NoDup (map ID ranking)
    /\ (forall id, id ∈ map ID ranking <-> id ∈ map ID lexical \/ id ∈ map ID vector)
    /\ (forall r, r ∈ ranking -> Score r = fused_score lexical vector (ID r))
    /\ (strict_weak_on f64_gtb
          (map (fused_score lexical vector) (map ID lexical ++ map ID vector)) = true ->
        sorted_by (fun x y => f64_gtb (Score x) (Score y)) ranking).
Proof.
  intros Hlimit Hconn Hschema Hvars.
  assert (wrap_int (limit * 2) = limit * 2) as Hwrap.
  { unfold wrap_int. rewrite Z.mod_small; lia. }
  destruct (SearchTrigrams_reachable db query (limit * 2) Hconn Hvars) as [lexical Hlex].
  assert (exists vector, SearchVectors db queryEmbedding (limit * 2)
                         = ([SelectEmbeddings], Ok vector)) as [vector Hvec].
  { rewrite SearchVectors_unfold, Hconn. rewrite truncate_take by lia. by eexists. }
  destruct Hschema as (Hdocs & Hembs & _).
  assert (NoDup (map ID lexical)) as HndL by by eapply lexical_ids_NoDup.
  assert (NoDup (map ID vector)) as HndV.
  { eapply (vector_ids_NoDup db queryEmbedding (limit * 2)); [done..|].
    by rewrite Hvec. }
  destruct (rrf_fuse_ranked lexical vector limit ltac:(lia) HndL HndV)
    as (ranking & Hrun & _ & Hnd & Hids & Hscore & _ & _ & _ & _ & Hsorted).
  exists lexical, vector, ranking.
  split; [done|]. split; [by rewrite Hvec|].
  assert (HybridSearch db query (Some queryEmbedding) limit
          = (issued (SearchTrigrams db query (limit * 2)) ++ [SelectEmbeddings],
             Ok (take (Z.to_nat limit) ranking))) as ->.
  { unfold HybridSearch. rewrite Hwrap, Hvec.
    destruct (SearchTrigrams db query (limit * 2)) as [tr1 o1].
    unfold outcome in Hlex. simpl in Hlex. subst o1.
    unfold exec_bind, exec_lift, issued. simpl. by rewrite Hrun. }
  done.
Qed.

(** X15.  For a limit from 1 to [2^62 - 1] HybridSearch does not panic;
    it ends well when the database can be reached and the query has
    fewer trigrams than the parameters SQLite takes; and it returns at
    most [limit] results, each with the id of a stored passage and the
    snippet built from that passage, and no id twice when the ids of the
    passages are unique. *)
Theorem HybridSearch_bounded (db : DB) (query : text)
    (queryEmbedding : option (list float32)) (limit : Z) :
  0 < limit < 2 ^ 62 ->
  outcome (HybridSearch db query queryEmbedding limit) <> Panic
  /\ (conn_err db = None ->
      Z.of_nat (length (GenerateTrigrams (strings_ToLower query)))
        < SQLITE_MAX_VARIABLE_NUMBER ->
      exists results, outcome (HybridSearch db query queryEmbedding limit) = Ok results)
  /\ forall results,
       outcome (HybridSearch db query queryEmbedding limit) = Ok results ->
       Z.of_nat (length results) <= limit
       /\ (forall r, r ∈ results ->
             exists d, d ∈ documents db /\ ID r = Document_ID d
                       /\ Snippet r = byte_snippet (Chunk d))
       /\ (NoDup (map Document_ID (documents db)) -> NoDup (map ID results)).
Proof.
  intros Hlimit.
  destruct (HybridSearch_safe db query queryEmbedding limit Hlimit)
    as (Hpanic & Hreach & Hlen).
  split; [done|]. split; [done|]. intros results Hout. split; [by apply Hlen|].
  rewrite HybridSearch_outcome in Hout.
  destruct (outcome (SearchTrigrams db query _)) as [lexical|e|] eqn:Hlex; [|done..].
  destruct queryEmbedding as [q|].
  - destruct (outcome (SearchVectors db q _)) as [vector|e|] eqn:Hvec; [|done..].
    destruct (rrf_fuse_results _ _ _ _ Hout) as (Hnd & Hfrom & _).
    split; [|done]. intros r Hr. destruct (Hfrom r Hr) as (r0 & Hr0 & <- & <-).
    apply elem_of_app in Hr0 as [Hr0|Hr0].
    + by eapply lexical_result_source.
    + by eapply vector_result_source.
  - assert (results `sublist_of` lexical) as Hsub by by eapply truncate_subseteq.
    split.
    + intros r Hr. eapply lexical_result_source; [done|].
      by apply (sublist_subseteq _ _ Hsub).
    + intros Hnd. eapply sublist_NoDup;
        [by eapply lexical_ids_NoDup|by apply (fmap_sublist ID)].
Qed.

End Bounded.

(** ** Writing to the store *)

Lemma foldr_max_ge (l : list Z) (x : Z) : x ∈ l -> x <= foldr Z.max 0 l.
Proof.
  induction l as [|y l IH]; [by intros ?%elem_of_nil|].
  intros [->|Hx]%elem_of_cons; simpl; [lia|]. specialize (IH Hx). lia.
Qed.

Lemma foldr_max_nonneg (l : list Z) : 0 <= foldr Z.max 0 l.
Proof. induction l as [|y l IH]; simpl; lia. Qed.

Lemma next_document_id_fresh (s : Store) :
  0 < next_document_id s
  /\ documents_seq s < next_document_id s
  /\ forall d, d ∈ documents (tables s) -> Document_ID d < next_document_id s.
Proof.
  unfold next_document_id.
  pose proof (foldr_max_nonneg (map Document_ID (documents (tables s)))) as H0.
  split; [lia|]. split; [lia|]. intros d Hd.
  pose proof (foldr_max_ge (map Document_ID (documents (tables s))) (Document_ID d)
                ltac:(by apply list_elem_of_fmap_2)). lia.
Qed.

Lemma select_document_app_fresh (db db' : DB) (d : Document) (id' : Z) :
  conn_err db' = conn_err db ->
  documents db' = documents db ++ [d] ->
  id' <> Document_ID d ->
  select_document db' id' = select_document db id'.
Proof.
  intros Hc Hd Hne. unfold select_document. rewrite Hc, Hd.
  rewrite filter_app, filter_cons, filter_nil.
  destruct (decide (Document_ID d = id')); [congruence|].
  by rewrite app_nil_r.
Qed.

(** X21.  InsertChunk, then GetDocument.  On a database that can be
    reached and whose keys are not used up, InsertChunk returns a
    positive id above the id of every stored passage; GetDocument returns
    the chunk and its index for that id and what it returned before for
    every other id; postings, embeddings and metadata are as before. *)
Theorem InsertChunk_GetDocument (s : Store) (chunk : text) (chunkIndex : Z) :
  conn_err (tables s) = None ->
  next_document_id s <= MaxInt64 ->
  exists s' id,
    InsertChunk s chunk chunkIndex = (s', Ok id)
    /\ 0 < id
    /\ (forall d, d ∈ documents (tables s) -> Document_ID d < id)
    /\ GetDocument (tables s') id
       = ([SelectDocument id],
          Ok (Some {| Document_ID := id; Chunk := chunk; ChunkIndex := chunkIndex |}))
    /\ (forall id', id' <> id -> GetDocument (tables s') id' = GetDocument (tables s) id')
    /\ trigrams (tables s') = trigrams (tables s)
    /\ embeddings (tables s') = embeddings (tables s)
    /\ metadata s' = metadata s.
Proof.
  intros Hconn Hroom.
  destruct (next_document_id_fresh s) as (Hpos & _ & Hfresh).
  set (id := next_document_id s) in *.
  set (d := {| Document_ID := id; Chunk := chunk; ChunkIndex := chunkIndex |}).
  exists (with_documents s (documents (tables s) ++ [d]) id), id.
  split.
  { unfold InsertChunk. rewrite Hconn. fold id.
    by assert ((MaxInt64 <? id) = false) as -> by lia. }
  split; [done|]. split; [done|]. split.
  { unfold GetDocument, select_document. simpl. rewrite Hconn.
    rewrite filter_app, filter_cons, filter_nil.
    destruct (decide (Document_ID d = id)) as [_|Hne]; [|done].
    assert (filter (fun d' => Document_ID d' = id) (documents (tables s)) = []) as ->;
      [|done].
    destruct (filter _ (documents (tables s))) as [|x l] eqn:E; [done|].
    assert (x ∈ filter (fun d' => Document_ID d' = id) (documents (tables s))) as Hx
      by (rewrite E; left).
    apply list_elem_of_filter in Hx as [Hid Hx]. specialize (Hfresh x Hx). lia. }
  split; [|done].
  intros id' Hne. unfold GetDocument. f_equal.
  by rewrite (select_document_app_fresh (tables s) _ d id').
Qed.

(** X22.  SetMetadata, then GetMetadata.  On a database that can be
    reached GetMetadata returns the value last set for the key ([INSERT
    OR REPLACE]); other keys keep their values; a key that was never set
    reads as the empty string, without an error; and the other tables
    are as before. *)
Theorem SetMetadata_GetMetadata (s : Store) (key value : text) :
  conn_err (tables s) = None ->
  exists s',
    SetMetadata s key value = (s', Ok tt)
    /\ GetMetadata s' key = Ok value
    /\ (forall key', key' <> key -> GetMetadata s' key' = GetMetadata s key')
    /\ (forall key', metadata s !! key' = None -> GetMetadata s key' = Ok [])
    /\ tables s' = tables s.
Proof.
  intros Hconn. exists (with_metadata s (<[key := value]> (metadata s))).
  unfold SetMetadata, GetMetadata. simpl. rewrite Hconn.
  split; [done|]. split; [by rewrite lookup_insert_eq|]. split.
  - intros key' Hne. by rewrite lookup_insert_ne.
  - split; [|done]. by intros key' ->.
Qed.

Lemma insert_trigram_rows_spec (s : Store) (docID : Z) (trigrams_ : list text) :
  forall pending,
  insert_trigram_rows s docID pending trigrams_ =
    if bool_decide (trigrams_ = []) || references_document s docID
    then Ok (pending ++ map (fun t => (t, docID)) trigrams_)
    else Err ("failed to insert trigram: FOREIGN KEY constraint failed").
Proof.
  induction trigrams_ as [|t ts IH]; intros pending; simpl.
  - by rewrite app_nil_r.
  - unfold tx_insert_trigram. destruct (references_document s docID) eqn:Hfk; [|done].
    rewrite IH, orb_true_r. by rewrite <- app_assoc.
Qed.


Section WriteProperties.
Context {F64 : Float64} {F32 : Float32}.

Lemma InsertChunk_schema (s : Store) (chunk : text) (chunkIndex : Z) :
  schema_ok (tables s) -> schema_ok (tables (InsertChunk s chunk chunkIndex).1).
Proof.
  intros Hs. unfold InsertChunk.
  destruct (conn_err (tables s)); [done|].
  destruct (MaxInt64 <? next_document_id s); [done|]. simpl.
  destruct Hs as (Hdocs & Hembs & Htri & Hemb).
  destruct (next_document_id_fresh s) as (_ & _ & Hfresh).
  unfold schema_ok. simpl. rewrite map_app. simpl.
  split; [|split; [done|split]].
  - apply NoDup_app. split; [done|]. split; [|apply NoDup_singleton].
    intros x Hx Hx'. apply list_elem_of_singleton in Hx'. subst x.
    apply list_elem_of_fmap in Hx as (d & Hid & Hd). specialize (Hfresh d Hd). lia.
  - intros t k Hin. apply elem_of_app. left. by eapply Htri.
  - intros k b Hin. apply elem_of_app. left. by eapply Hemb.
Qed.

Lemma InsertTrigrams_schema (s : Store) (docID : Z) (trigrams_ : list text) :
  schema_ok (tables s) -> schema_ok (tables (InsertTrigrams s docID trigrams_).1).
Proof.
  intros Hs. unfold InsertTrigrams. rewrite insert_trigram_rows_spec.
  destruct (conn_err (tables s)); [done|].
  destruct (bool_decide (trigrams_ = [])) eqn:Hnil; simpl.
  { apply bool_decide_eq_true in Hnil. subst. simpl. rewrite app_nil_r.
    by destruct s as [[? ? ? ?] ? ?]. }
  unfold references_document.
  destruct (bool_decide (docID ∈ _)) eqn:Hfk; [|done].
  apply bool_decide_eq_true in Hfk.
  destruct Hs as (Hdocs & Hembs & Htri & Hemb).
  unfold schema_ok. simpl. split; [done|]. split; [done|]. split; [|done].
  intros t' k Hin. apply elem_of_app in Hin as [Hin|Hin]; [by eapply Htri|].
  apply list_elem_of_fmap in Hin as (t0 & [= -> ->] & _). done.
Qed.

Lemma InsertEmbedding_schema (s : Store) (docID : Z) (embedding : list float32) :
  schema_ok (tables s) -> schema_ok (tables (InsertEmbedding s docID embedding).1).
Proof.
  intros Hs. unfold InsertEmbedding, references_document.
  destruct (conn_err (tables s)); [done|].
  destruct (bool_decide _) eqn:Hfk; [|done].
  apply bool_decide_eq_true in Hfk.
  destruct Hs as (Hdocs & Hembs & Htri & Hemb).
  unfold schema_ok. simpl. split; [done|]. split; [|split; [done|]].
  - rewrite map_app. simpl. apply NoDup_app. split; [|split; [|apply NoDup_singleton]].
    + eapply sublist_NoDup; [exact Hembs|].
      apply (fmap_sublist fst), sublist_filter.
    + intros x Hx Hx'. apply list_elem_of_singleton in Hx'. subst x.
      apply list_elem_of_fmap in Hx as ([k b] & Hk & Hin).
      apply list_elem_of_filter in Hin as [Hne _]. simpl in *. congruence.
  - intros k b Hin. apply elem_of_app in Hin as [Hin|Hin].
    + apply list_elem_of_filter in Hin as [_ Hin]. by eapply Hemb.
    + apply list_elem_of_singleton in Hin. by injection Hin as -> _.
Qed.

(** X24.  The four writing operations keep the constraints of the
    schema (unique passage ids, one embedding for a passage, postings and
    embeddings of stored passages only), however they end. *)
Theorem writes_keep_schema (s : Store) (chunk key value : text) (chunkIndex docID : Z)
    (trigrams_ : list text) (embedding : list float32) :
  schema_ok (tables s) ->
  schema_ok (tables (InsertChunk s chunk chunkIndex).1)
  /\ schema_ok (tables (InsertTrigrams s docID trigrams_).1)
  /\ schema_ok (tables (InsertEmbedding s docID embedding).1)
  /\ schema_ok (tables (SetMetadata s key value).1).
Proof.
  intros Hs.
  split; [by apply InsertChunk_schema|].
  split; [by apply InsertTrigrams_schema|].
  split; [by apply InsertEmbedding_schema|].
  unfold SetMetadata. by destruct (conn_err (tables s)).
Qed.

(** X25.  InsertEmbedding replaces.  For the id of a stored passage, on
    a database that can be reached, the table then has exactly one
    embedding for the id, the encoding of the vector given; the
    embeddings of other ids, the passages, the postings and the metadata
    are as before. *)
Theorem InsertEmbedding_replaces (s : Store) (docID : Z) (embedding : list float32) :
  conn_err (tables s) = None ->
  docID ∈ map Document_ID (documents (tables s)) ->
  exists s',
    InsertEmbedding s docID embedding = (s', Ok tt)
    /\ (forall blob, (docID, blob) ∈ embeddings (tables s')
                     <-> blob = float32SliceToBytes embedding)
    /\ (forall k blob, k <> docID ->
          (k, blob) ∈ embeddings (tables s') <-> (k, blob) ∈ embeddings (tables s))
    /\ length (filter (fun row => row.1 = docID) (embeddings (tables s'))) = 1%nat
    /\ documents (tables s') = documents (tables s)
    /\ trigrams (tables s') = trigrams (tables s)
    /\ metadata s' = metadata s.
Proof.
  intros Hconn Hdoc. eexists. unfold InsertEmbedding, references_document.
  rewrite Hconn. rewrite bool_decide_eq_true_2 by done.
  split; [done|]. simpl. split; [|split; [|split; [|done]]].
  - intros blob. rewrite elem_of_app, list_elem_of_filter, list_elem_of_singleton.
    split; [|by intros ->; right].
    intros [[Hne _]|[= ->]]; [by simpl in Hne|done].
  - intros k blob Hne.
    rewrite elem_of_app, list_elem_of_filter, list_elem_of_singleton. split.
    + intros [[_ Hin]|[= -> _]]; done.
    + intros Hin. by left.
  - rewrite filter_app, filter_cons, filter_nil.
    destruct (decide _) as [_|Hne]; [|done].
    rewrite length_app. simpl.
    assert (filter (fun row : Z * list Z => row.1 = docID)
              (filter (fun row : Z * list Z => row.1 <> docID) (embeddings (tables s)))
            = []) as ->; [|done].
    induction (embeddings (tables s)) as [|[k b] l IH]; [done|].
    rewrite filter_cons. destruct (decide ((k, b).1 <> docID)) as [Hk|Hk]; [|done].
    rewrite filter_cons. destruct (decide ((k, b).1 = docID)); [done|]. done.
Qed.

End WriteProperties.

(** ** Ingesting a text *)

Section IngestProperties.
Context {CT : CaseTable} {F64 : Float64} {F32 : Float32}.

(** The vector IngestText stores for a chunk: the provider's, and the
    stub embedding when the provider is not used or fails. *)
Definition stored_embedding (cfg : Config) (response : Fetched (list float32))
    (chunk : text) : list float32 :=
  match generateEmbedding cfg response chunk with
  | Got embedding => embedding
  | Failed _ => stubEmbedding chunk
  end.

(** The rows an ingestion adds for the chunks from index [i] on, the
    first with the key [id]. *)
Fixpoint ingested_documents (id : Z) (i : nat) (chunks : list text) : list Document :=
  match chunks with
  | [] => []
  | chunk :: rest =>
      {| Document_ID := id; Chunk := chunk; ChunkIndex := Z.of_nat i |}
      :: ingested_documents (id + 1) (S i) rest
  end.


Fixpoint ingested_embeddings (cfg : Config) (responses : nat -> Fetched (list float32))
    (id : Z) (i : nat) (chunks : list text) : list (Z * list Z) :=
  match chunks with
  | [] => []
  | chunk :: rest =>
      (id, float32SliceToBytes (stored_embedding cfg (responses i) chunk))
      :: ingested_embeddings cfg responses (id + 1) (S i) rest
  end.



Lemma ingested_embeddings_ids cfg responses (id : Z) (i : nat) (chunks : list text) :
  map fst (ingested_embeddings cfg responses id i chunks)
  = map Document_ID (ingested_documents id i chunks).
Proof.
  revert id i. induction chunks as [|c chunks IH]; intros id i; [done|].
  simpl. by rewrite IH.
Qed.










End IngestProperties.

Section IngestText.
Context {CT : CaseTable} {F64 : Float64} {F32 : Float32} {SE : SqlEngine}.




End IngestText.

Section IngestEdges.
Context {CT : CaseTable} {F64 : Float64} {F32 : Float32}.

(** X29.  A text of white space only, the empty text included, has no
    chunk (the chunker returns at once): on a store that can be reached
    IngestText inserts nothing, records "chunk_count" as 0 and the time,
    and ends well. *)
Theorem IngestText_blank_text (fuel : nat) (cfg : Config)
    (responses : nat -> Fetched (list float32)) (now : text) (s : Store)
    (content : text) :
  TrimSpace content = [] ->
  conn_err (tables s) = None ->
  exists s',
    IngestText fuel cfg responses now s content
    = Some (s', [Ingesting 0; Ingested 0], Ok tt)
    /\ tables s' = tables s
    /\ GetMetadata s' (runes_of "chunk_count") = Ok (runes_of "0")
    /\ GetMetadata s' (runes_of "ingested_at") = Ok now.
Proof.
  intros Hblank Hconn.
  assert (chunkText fuel cfg content = Some (Returned [])) as Hchunks.
  { unfold chunkText, normalize. by rewrite Hblank. }
  unfold IngestText. rewrite Hchunks. cbn [ingest_chunks length].
  unfold SetMetadata. simpl. rewrite Hconn. simpl. rewrite Hconn.
  eexists. split; [reflexivity|]. split; [done|].
  unfold GetMetadata. simpl. rewrite Hconn.
  split; [by rewrite lookup_insert_eq|].
  rewrite lookup_insert_ne by done. by rewrite lookup_insert_eq.
Qed.

(** X30.  While the database cannot be reached IngestText changes nothing
    and reports the first statement that fails: the insertion of the
    first chunk, or, for a text without chunks, the first write of the
    metadata. *)
Theorem IngestText_unreachable (fuel : nat) (cfg : Config)
    (responses : nat -> Fetched (list float32)) (now : text) (s : Store)
    (content : text) (chunks : list text) (e : string) :
  conn_err (tables s) = Some e ->
  chunkText fuel cfg content = Some (Returned chunks) ->
  IngestText fuel cfg responses now s content
  = Some (s, [Ingesting (Z.of_nat (length chunks))],
          Err (match chunks with
               | [] => "failed to set metadata: " +:+ e
               | _ :: _ => "failed to insert chunk 0: failed to insert chunk: " +:+ e
               end)).
Proof.
  intros Hconn Hchunks. unfold IngestText. rewrite Hchunks.
  destruct chunks as [|chunk rest]; cbn [ingest_chunks].
  - unfold SetMetadata. by rewrite Hconn.
  - unfold InsertChunk. by rewrite Hconn.
Qed.

End IngestEdges.

(** ** The tools of the server *)

Section Tools.
Context {CT : CaseTable} {F64 : Float64} {F32 : Float32}
        {RT : GoRuntime} {SE : SqlEngine} {JN : JsonNumbers}.



(** X18.  For a limit from [2^62] on, [limit*2] wraps around to a
    negative number, and the search tool panics on a database that can be
    reached whenever the query has a vector (the stub embedding, or a
    vector of the provider) and its lexical search ends well, as it does
    for a query with fewer trigrams than the parameters SQLite takes. *)
Theorem handleSearchTool_limit_overflow {Id} (cfg : Mcp.Config) (db : DB)
    (response : Fetched (list float32)) (id : Id) (query : text) (limit : Z) :
  conn_err db = None ->
  query <> [] ->
  Z.of_nat (length (GenerateTrigrams (strings_ToLower query)))
    < SQLITE_MAX_VARIABLE_NUMBER ->
  2 ^ 62 <= limit < 2 ^ 63 ->
  (Mcp.UseOpenAI cfg && negb (String.eqb (Mcp.OpenAIKey cfg) "") = false
   \/ exists embedding, response = Got embedding) ->
  wrap_int (limit * 2) < 0
  /\ Mcp.handleSearchTool cfg db response id (Decoded (query, limit)) = Mcp.Died.
Proof.
  intros Hconn Hne Hvars Hlimit Hemb.
  assert (wrap_int (limit * 2) < 0) as Hneg.
  { by destruct (HybridSearch_doubling_overflow db query [] limit Hconn Hlimit Hvars). }
  split; [done|]. unfold Mcp.handleSearchTool.
  assert ((str_len query =? 0) = false) as ->.
  { apply Z.eqb_neq. intros H0. apply Hne.
    assert ((str_len query >? 0) = false) as Hz by (rewrite H0; reflexivity).
    destruct query as [|c q]; [done|].
    assert ((str_len (c :: q) >? 0) = true) as Hp by by apply str_len_pos.
    congruence. }
  assert ((limit <=? 0) = false) as -> by lia.
  assert (exists embedding,
            (if Mcp.UseOpenAI cfg && negb (String.eqb (Mcp.OpenAIKey cfg) "")
             then match EmbedQuery response query true (Mcp.OpenAIKey cfg)
                          (Mcp.OpenAIModel cfg) with
                  | Got embedding => Some embedding
                  | Failed _ => None
                  end
             else match EmbedQuery response query false "" "" with
                  | Got embedding => Some embedding
                  | Failed _ => None
                  end) = Some embedding) as [embedding ->].
  { unfold EmbedQuery. simpl.
    destruct (Mcp.UseOpenAI cfg && negb (String.eqb (Mcp.OpenAIKey cfg) "")) eqn:Huse.
    - destruct Hemb as [Hoff|[embedding ->]]; [done|].
      apply andb_true_iff in Huse as [_ Hkey]. rewrite Hkey. simpl. by eexists.
    - by eexists. }
  by destruct (HybridSearch_doubling_overflow db query embedding limit Hconn Hlimit Hvars)
    as [_ ->].
Qed.

Lemma HybridSearch_lexical_only (db : DB) (query : text) (limit : Z) :
  0 < limit < 2 ^ 63 ->
  outcome (HybridSearch db query None limit) = outcome (SearchTrigrams db query limit).
Proof.
  intros Hlimit. rewrite HybridSearch_outcome, !SearchTrigrams_unfold.
  set (Q := GenerateTrigrams (strings_ToLower query)).
  destruct (length Q =? 0)%nat; unfold outcome; simpl.
  { rewrite truncate_take by lia. by rewrite take_nil. }
  destruct (conn_err db); [done|].
  destruct (_ >? _); [done|].
  rewrite truncate_take by lia. rewrite <- fmap_take. do 2 f_equal.
  unfold select_trigram_matches. apply sql_limit_take; [lia|].
  destruct (wrap_int_double limit Hlimit) as [-> | H]; lia.
Qed.

(** X28.  When the provider is configured and fails to embed the query,
    the search tool answers with the lexical search alone: its response
    is the one built from the outcome of SearchTrigrams for the query and
    the limit. *)
Theorem handleSearchTool_provider_failure {Id} (cfg : Mcp.Config) (db : DB)
    (err : string) (id : Id) (query : text) (limit : Z) :
  Mcp.UseOpenAI cfg = true ->
  Mcp.OpenAIKey cfg <> "" ->
  query <> [] ->
  0 < limit < 2 ^ 63 ->
  Mcp.handleSearchTool cfg db (Failed err) id (Decoded (query, limit))
  = match outcome (SearchTrigrams db query limit) with
    | Ok results =>
        match Mcp.json_Marshal results with
        | Some e => Mcp.writeToolError id ("Failed to marshal results: " +:+ e)
        | None => Mcp.writeToolResult id (Mcp.ResultsJSON results)
        end
    | Err e => Mcp.writeToolError id ("Search failed: " +:+ e)
    | Panic => Mcp.Died
    end.
Proof.
  intros Huse Hkey Hne Hlimit. unfold Mcp.handleSearchTool.
  assert ((str_len query =? 0) = false) as ->.
  { apply Z.eqb_neq. intros H0.
    assert ((str_len query >? 0) = true) as Hp by by apply str_len_pos.
    rewrite H0 in Hp. done. }
  assert ((limit <=? 0) = false) as -> by lia.
  assert (String.eqb (Mcp.OpenAIKey cfg) "" = false) as Hk by by apply String.eqb_neq.
  unfold EmbedQuery. rewrite Huse, Hk. simpl.
  by rewrite HybridSearch_lexical_only.
Qed.

Lemma handleSearchTool_no_error {Id} (cfg : Mcp.Config) (db : DB)
    (response : Fetched (list float32)) (id : Id) (args : Unmarshal (text * Z)) :
  (exists body, Mcp.handleSearchTool cfg db response id args = Mcp.Result id body)
  \/ Mcp.handleSearchTool cfg db response id args = Mcp.Died.
Proof.
  unfold Mcp.handleSearchTool. destruct args as [[query limit]|e]; [|left; by eexists].
  destruct (str_len query =? 0); [left; by eexists|].
  destruct (outcome _); [|left; by eexists|by right].
  destruct (Mcp.json_Marshal _); left; by eexists.
Qed.

Lemma handleGetTool_no_error {Id} (db : DB) (id : Id) (args : Unmarshal Z) :
  exists body, Mcp.of_reply (handleGetTool db id args) = Mcp.Result id body.
Proof.
  unfold handleGetTool. destruct args as [k|e]; [|by eexists].
  destruct (k <=? 0); [by eexists|].
  unfold GetDocument, outcome. simpl.
  destruct (select_document db k); by eexists.
Qed.

Lemma handleToolsCall_known {Id} (cfg : Mcp.Config) (db : DB)
    (response : Fetched (list float32)) (id : Id) (p : Mcp.MCPToolCallParams) :
  Mcp.Call_Name p ∈ map Mcp.Tool_Name Mcp.tools ->
  (exists body, Mcp.handleToolsCall cfg db response id (Decoded p) = Mcp.Result id body)
  \/ Mcp.handleToolsCall cfg db response id (Decoded p) = Mcp.Died.
Proof.
  intros Hin. unfold Mcp.handleToolsCall.
  destruct (String.eqb (Mcp.Call_Name p) "gdpr_search") eqn:E1;
    [apply handleSearchTool_no_error|].
  destruct (String.eqb (Mcp.Call_Name p) "gdpr_get") eqn:E2;
    [left; apply handleGetTool_no_error|].
  apply String.eqb_neq in E1, E2. exfalso.
  apply list_elem_of_In in Hin. simpl in Hin. destruct Hin as [H|[H|[]]]; congruence.
Qed.

(** X19.  The tools that tools/list announces are the tools that
    tools/call knows.  A call of an announced tool is answered with a
    result (unless the handler panics), never with a JSON-RPC error; a
    call of any other name is answered with the error -32602 and the
    name as data; and every property a schema requires is one the schema
    declares. *)
Theorem advertised_tools_are_dispatched {Id} (cfg : Mcp.Config) (db : DB)
    (response : Fetched (list float32)) (id : Id) (p : Mcp.MCPToolCallParams) :
  (Mcp.Call_Name p ∈ map Mcp.Tool_Name Mcp.tools ->
   (exists body, Mcp.handleToolsCall cfg db response id (Decoded p) = Mcp.Result id body)
   \/ Mcp.handleToolsCall cfg db response id (Decoded p) = Mcp.Died)
  /\ (Mcp.Call_Name p ∉ map Mcp.Tool_Name Mcp.tools ->
      Mcp.handleToolsCall cfg db response id (Decoded p)
      = Mcp.Error id (-32602) "Unknown tool" (Mcp.Call_Name p))
  /\ Forall (fun tool =>
       Forall (fun required =>
                 required ∈ map fst (Mcp.Properties (Mcp.InputSchema tool)))
              (Mcp.Required (Mcp.InputSchema tool))) Mcp.tools.
Proof.
  split; [apply handleToolsCall_known|]. split.
  - intros Hnot. unfold Mcp.handleToolsCall.
    destruct (String.eqb (Mcp.Call_Name p) "gdpr_search") eqn:E1.
    { apply String.eqb_eq in E1. exfalso. apply Hnot. rewrite E1.
      apply list_elem_of_In. simpl. tauto. }
    destruct (String.eqb (Mcp.Call_Name p) "gdpr_get") eqn:E2; [|done].
    apply String.eqb_eq in E2. exfalso. apply Hnot. rewrite E2.
    apply list_elem_of_In. simpl. tauto.
  - repeat constructor.
Qed.

(** X20.  handleRequest answers an unknown method with the error -32601
    and the method as data.  Every response carries the id of the
    request; the only error codes are -32601, outside tools/call, and
    -32602, inside it; nothing is written for the two notifications only;
    and only tools/call can panic. *)
Theorem handleRequest_answers {Id} (cfg : Mcp.Config) (db : DB)
    (response : Fetched (list float32)) (method : string) (id : Id)
    (params : Unmarshal Mcp.MCPToolCallParams) :
  (method ∉ ["initialize"; "initialized"; "notifications/initialized";
             "tools/list"; "tools/call"; "ping"] ->
   Mcp.handleRequest cfg db response method id params
   = Mcp.Error id (-32601) "Method not found" method)
  /\ match Mcp.handleRequest cfg db response method id params with
     | Mcp.Result id' _ => id' = id
     | Mcp.Error id' code _ _ =>
         id' = id
         /\ (code = -32601 /\ method <> "tools/call"
             \/ code = -32602 /\ method = "tools/call")
     | Mcp.NoResponse => method = "initialized" \/ method = "notifications/initialized"
     | Mcp.Died => method = "tools/call"
     end.
Proof.
  unfold Mcp.handleRequest. split.
  - intros Hnot.
    repeat match goal with
    | |- context [String.eqb method ?m] =>
        let E := fresh "E" in
        destruct (String.eqb method m) eqn:E;
          [apply String.eqb_eq in E; exfalso; apply Hnot; rewrite E;
           apply list_elem_of_In; simpl; tauto|]
    end. done.
  - destruct (String.eqb method "initialize") eqn:E1; [done|].
    destruct (String.eqb method "initialized") eqn:E2;
      [apply String.eqb_eq in E2; by left|].
    destruct (String.eqb method "notifications/initialized") eqn:E3;
      [apply String.eqb_eq in E3; by right|].
    destruct (String.eqb method "tools/list") eqn:E4; [done|].
    destruct (String.eqb method "tools/call") eqn:E5.
    + apply String.eqb_eq in E5. subst method. unfold Mcp.handleToolsCall.
      destruct params as [p|e]; [|simpl; split; [done|by right]].
      destruct (String.eqb (Mcp.Call_Name p) "gdpr_search").
      { by destruct (handleSearchTool_no_error cfg db response id
                       (Mcp.as_searchArgs (Mcp.Arguments p))) as [[body ->]| ->]. }
      destruct (String.eqb (Mcp.Call_Name p) "gdpr_get").
      { by destruct (handleGetTool_no_error db id (Mcp.as_getArgs (Mcp.Arguments p)))
          as [body ->]. }
      simpl. split; [done|by right].
    + apply String.eqb_neq in E5.
      destruct (String.eqb method "ping") eqn:E6; [done|].
      simpl. split; [done|by left].
Qed.

End Tools.


(** ** The code on the sample store *)

Section Examples.
#[local] Existing Instance ascii_case.
#[local] Existing Instance Reference.spec_float64.
#[local] Existing Instance Reference.spec_float32.
#[local] Existing Instance Reference.insertion_runtime.
#[local] Existing Instance Reference.insertion_engine.

Definition postings (docs : list Document) : list (list Z * Z) :=
  flat_map (fun d => map (fun t => (t, Document_ID d)) (GenerateTrigrams (Chunk d))) docs.

(** The three passages of the package's tests, with their embeddings. *)
Definition sample_store : DB :=
  {| documents := sample_documents;
     trigrams := postings sample_documents;
     embeddings := [ (1, float32SliceToBytes (vec32 [2; 1; 0]));
                     (2, float32SliceToBytes (vec32 [4; 3; 0]));
                     (3, float32SliceToBytes (vec32 [7; 7; 1])) ];
     conn_err := None |}.

(** A passage of 200 characters, the last of two bytes: 199 times "a",
    then "é". *)
Definition accent_passage : text := replicate 199 97 ++ [233].

Definition accent_store : DB :=
  {| documents := [ {| Document_ID := 1; Chunk := accent_passage; ChunkIndex := 0 |} ];
     trigrams := postings [ {| Document_ID := 1; Chunk := accent_passage; ChunkIndex := 0 |} ];
     embeddings := [ (1, float32SliceToBytes (vec32 [1; 0; 0])) ];
     conn_err := None |}.

(** C8 on a passage of 200 characters and 201 bytes.  By characters the
    snippet is the passage; both searches return its first 200 bytes, cut
    inside the last character (the lone lead byte 0xC3), and the marker. *)
Theorem snippet_cuts_inside_character :
  rune_count accent_passage = 200
  /\ str_len accent_passage = 201
  /\ character_snippet accent_passage = utf8_encode accent_passage
  /\ byte_snippet accent_passage = replicate 199 97 ++ [195] ++ [46; 46; 46]
  /\ byte_snippet accent_passage <> character_snippet accent_passage
  /\ (match outcome (SearchTrigrams accent_store (runes_of "aaa") 10) with
      | Ok results => map Snippet results
      | _ => []
      end) = [replicate 199 97 ++ [195] ++ [46; 46; 46]]
  /\ (match outcome (SearchVectors accent_store (vec32 [1; 0; 0]) 10) with
      | Ok results => map Snippet results
      | _ => []
      end) = [replicate 199 97 ++ [195] ++ [46; 46; 46]].
Proof.
  repeat split; try (vm_compute; reflexivity).
  vm_compute. discriminate.
Qed.

(** *** A query too long for SQLite *)

(** A text of [n] distinct characters, none of them a space or a capital:
    the code points from 1000 on. *)
Definition distinct_text (n : nat) : text := map (fun i => 1000 + Z.of_nat i) (seq 0 n).

Lemma TrimRight_id (s : list Z) :
  (forall r, last s = Some r -> unicode_IsSpace r = false) -> TrimRight s = s.
Proof.
  induction s as [|c s IH]; [done|]. intros Hlast. simpl.
  destruct s as [|d s].
  - simpl. by rewrite (Hlast c).
  - rewrite IH; [done|]. intros r Hr. apply Hlast. by rewrite last_cons, Hr.
Qed.

Lemma TrimSpace_id (s : list Z) :
  (forall r, head s = Some r -> unicode_IsSpace r = false) ->
  (forall r, last s = Some r -> unicode_IsSpace r = false) ->
  TrimSpace s = s.
Proof.
  intros Hhead Hlast. unfold TrimSpace.
  assert (TrimLeft s = s) as ->; [|by apply TrimRight_id].
  destruct s as [|c s]; [done|]. simpl. by rewrite (Hhead c).
Qed.

Lemma ascii_ToLower_id (s : list Z) :
  Forall (fun r => 1000 <= r < 0xD800) s -> strings_ToLower s = s.
Proof.
  unfold strings_ToLower. induction 1 as [|r s Hr Hs IH]; [done|].
  cbn [flat_map]. rewrite IH.
  change (unicode_ToLower r) with (ascii_ToLower r).
  unfold ascii_ToLower, scalar_value, MaxRune.
  assert ((65 <=? r) && (r <=? 90) = false) as -> by lia.
  assert ((r <? 0) = false) as -> by lia.
  by assert ((1114111 <? r) || (55296 <=? r) && (r <=? 57343) = false) as -> by lia.
Qed.

Lemma distinct_text_lookup (n k : nat) :
  (k < n)%nat -> distinct_text n !! k = Some (1000 + Z.of_nat k).
Proof.
  intros Hk. unfold distinct_text. rewrite list_lookup_fmap, lookup_seq_lt by done. done.
Qed.

Lemma distinct_text_range (n : nat) :
  Z.of_nat n <= 50000 -> Forall (fun r => 1000 <= r < 0xD800) (distinct_text n).
Proof.
  intros Hn. apply Forall_forall. intros r Hr.
  apply list_elem_of_fmap in Hr as (i & -> & Hi). apply elem_of_seq in Hi. lia.
Qed.

Lemma not_space_above (r : Z) : 0x3000 < r -> unicode_IsSpace r = false.
Proof. intros Hr. unfold unicode_IsSpace. lia. Qed.

(** The trigrams of the text are its windows, all different. *)
Lemma distinct_text_trigrams (n : nat) :
  11290 <= Z.of_nat n <= 50000 ->
  length (GenerateTrigrams (strings_ToLower (distinct_text n)))
  = (n - 2)%nat.
Proof.
  intros Hn.
  pose proof (distinct_text_range n ltac:(lia)) as Hrange.
  rewrite ascii_ToLower_id by done.
  destruct (GenerateTrigrams_windows (distinct_text n)) as [Hnd Hwin].
  rewrite ascii_ToLower_id in Hwin by done.
  assert (length (distinct_text n) = n) as Hlen.
  { unfold distinct_text. by rewrite length_map, length_seq. }
  rewrite TrimSpace_id in Hwin.
  2:{ intros r Hr. unfold distinct_text in Hr. destruct n; [lia|]. simpl in Hr.
      injection Hr as <-. reflexivity. }
  2:{ intros r Hr. rewrite last_lookup, Hlen in Hr.
      rewrite distinct_text_lookup in Hr by lia. injection Hr as <-.
      apply not_space_above. lia. }
  rewrite Hlen in Hwin.
  assert (GenerateTrigrams (distinct_text n)
          ≡ₚ map (window3 (distinct_text n)) (seq 0 (n - 2))) as Hperm.
  { apply NoDup_Permutation; [done| |].
    - apply NoDup_fmap_2_strong; [|apply NoDup_seq].
      intros i j Hi Hj Heq. apply elem_of_seq in Hi, Hj.
      assert (window3 (distinct_text n) i !! 0%nat = window3 (distinct_text n) j !! 0%nat)
        as H0 by by rewrite Heq.
      unfold window3 in H0. rewrite !lookup_take_lt, !lookup_drop in H0 by lia.
      rewrite !Nat.add_0_r, !distinct_text_lookup in H0 by lia.
      injection H0 as H0. lia.
    - intros t. rewrite Hwin, list_elem_of_fmap. split.
      + intros (k & Hk & ->). exists k. split; [done|]. apply elem_of_seq. lia.
      + intros (k & -> & Hk). apply elem_of_seq in Hk. exists k. split; [lia|done]. }
  by rewrite Hperm, length_map, length_seq.
Qed.

(** 32768 distinct characters: 32766 trigrams, which with the limit are
    one parameter more than SQLite takes. *)
Definition long_query : text := distinct_text (Z.to_nat 32768).

Lemma long_query_trigrams :
  Z.of_nat (length (GenerateTrigrams (strings_ToLower long_query)))
  = SQLITE_MAX_VARIABLE_NUMBER.
Proof.
  unfold long_query. rewrite distinct_text_trigrams by lia.
  unfold SQLITE_MAX_VARIABLE_NUMBER. lia.
Qed.

(** On the sample store, which can be reached, the lexical search refuses
    the query, and so does HybridSearch, with and without a vector. *)
Lemma SearchTrigrams_long_query (embedding : option (list float32)) :
  outcome (SearchTrigrams sample_store long_query 10)
  = Err "failed to search trigrams: too many SQL variables"
  /\ outcome (HybridSearch sample_store long_query embedding 10)
     = Err "failed to search trigrams: too many SQL variables".
Proof.
  pose proof long_query_trigrams as Hn.
  split.
  - rewrite SearchTrigrams_too_many; [done|done|lia].
  - rewrite HybridSearch_outcome, SearchTrigrams_too_many; [done|done|lia].
Qed.

Lemma HybridSearch_without_vector_witness :
  outcome (HybridSearch sample_store (runes_of "right of access") None 2)
  = outcome (SearchTrigrams sample_store (runes_of "right of access") 2)
  /\ issued (HybridSearch sample_store (runes_of "right of access") None 2)
     = issued (SearchTrigrams sample_store (runes_of "right of access") 4)
  /\ (exists results,
        outcome (HybridSearch sample_store (runes_of "right of access") None 2)
        = Ok results
        /\ Z.of_nat (length results) <= 2)
  /\ outcome (HybridSearch sample_store long_query None 2)
     = Err "failed to search trigrams: too many SQL variables".
Proof.
  destruct (HybridSearch_without_vector sample_store (runes_of "right of access") 2)
    as (Hissued & _ & Hout & _ & Hok & _ & _); [lia|].
  split; [exact Hout|]. split; [exact Hissued|]. split.
  - apply Hok; [reflexivity|vm_compute; reflexivity].
  - destruct (HybridSearch_without_vector sample_store long_query 2)
      as (_ & _ & _ & _ & _ & Hmany & _); [lia|].
    apply Hmany; [reflexivity|]. rewrite long_query_trigrams. lia.
Defined.


Definition hit (id : Z) (score : Z) : SearchResult :=
  {| ID := id; Score := f64_of_int score; Snippet := [] |}.

Lemma rrf_fuse_ranking_witness :
  exists ranking,
    rrf_fuse [hit 1 3; hit 3 2; hit 2 1] [hit 2 9; hit 1 8; hit 4 7] 2
    = Ok (take 2 ranking)
    /\ (forall id, id ∈ map ID ranking <-> id ∈ [1; 3; 2] \/ id ∈ [2; 1; 4]).
Proof.
  destruct (rrf_fuse_ranking [hit 1 3; hit 3 2; hit 2 1] [hit 2 9; hit 1 8; hit 4 7] 2)
    as (ranking & Hout & _ & _ & Hids & _).
  - lia.
  - apply (bool_decide_unpack _). vm_compute. exact I.
  - apply (bool_decide_unpack _). vm_compute. exact I.
  - vm_compute. reflexivity.
  - exists ranking. split; [exact Hout|exact Hids].
Defined.

Lemma sample_store_schema : schema_ok sample_store.
Proof.
  split; [apply (bool_decide_unpack _); vm_compute; exact I|].
  split; [apply (bool_decide_unpack _); vm_compute; exact I|].
  split.
  - assert (Forall (fun p : list Z * Z => p.2 ∈ map Document_ID (documents sample_store))
              (trigrams sample_store)) as H.
    { apply (bool_decide_unpack _). vm_compute. exact I. }
    rewrite Forall_forall in H. intros t id Hin. apply (H _ Hin).
  - assert (Forall (fun p : Z * list Z => p.1 ∈ map Document_ID (documents sample_store))
              (embeddings sample_store)) as H.
    { apply (bool_decide_unpack _). vm_compute. exact I. }
    rewrite Forall_forall in H. intros id b Hin. apply (H _ Hin).
Qed.

(** The results of an outcome, none when it is not [Ok]. *)
Definition results_of (o : Outcome (list SearchResult)) : list SearchResult :=
  match o with
  | Ok results => results
  | _ => []
  end.

Definition sample_lexical : list SearchResult :=
  results_of (outcome (SearchTrigrams sample_store (runes_of "right of access") 4)).

Definition sample_vector : list SearchResult :=
  results_of (outcome (SearchVectors sample_store (vec32 [2; 1; 0]) 4)).

Lemma HybridSearch_fuses_witness :
  exists ranking,
    outcome (HybridSearch sample_store (runes_of "right of access")
               (Some (vec32 [2; 1; 0])) 2)
    = Ok (take 2 ranking)
    /\ NoDup (map ID ranking)
    /\ (forall id, id ∈ map ID ranking <->
          id ∈ map ID sample_lexical \/ id ∈ map ID sample_vector)
    /\ (forall r, r ∈ ranking -> Score r = fused_score sample_lexical sample_vector (ID r))
    /\ sorted_by (fun x y => f64_gtb (Score x) (Score y)) ranking.
Proof.
  destruct (HybridSearch_fuses sample_store (runes_of "right of access")
              (vec32 [2; 1; 0]) 2)
    as (lexical & vector & ranking & Hlex & Hvec & _ & Hout & Hnd & Hids & Hscore & Hsorted).
  - lia.
  - reflexivity.
  - apply sample_store_schema.
  - vm_compute. reflexivity.
  - change (2 * 2) with 4 in Hlex, Hvec.
    assert (lexical = sample_lexical) as -> by (unfold sample_lexical; by rewrite Hlex).
    assert (vector = sample_vector) as -> by (unfold sample_vector; by rewrite Hvec).
    exists ranking. split; [exact Hout|]. split; [exact Hnd|]. split; [exact Hids|].
    split; [exact Hscore|]. apply Hsorted. vm_compute. reflexivity.
Defined.

Lemma search_snippets_witness :
  exists d, d ∈ documents sample_store /\ 1 = Document_ID d
            /\ runes_of "Article 15 - Right of access by the data subject"
               = byte_snippet (Chunk d).
Proof.
  destruct (search_snippets sample_store (runes_of "right of access") (vec32 [2; 1; 0]) 1
              [ {| ID := 1; Score := f64_of_int 1;
                   Snippet := runes_of "Article 15 - Right of access by the data subject" |} ]
              {| ID := 1; Score := f64_of_int 1;
                 Snippet := runes_of "Article 15 - Right of access by the data subject" |})
    as (d & Hd & Hid & Hsn).
  - left. reflexivity.
  - left.
  - by exists d.
Defined.

Definition sample_vector_results : list SearchResult :=
  results_of (outcome (SearchVectors sample_store (vec32 [2; 1; 0]) 10)).

Lemma search_results_distinct_witness :
  map ID sample_vector_results = [1; 2; 3] /\ NoDup (map ID sample_vector_results).
Proof.
  split; [vm_compute; reflexivity|].
  apply (search_results_distinct sample_store [] (vec32 [2; 1; 0]) 10
           sample_vector_results sample_store_schema).
  right. reflexivity.
Defined.

Lemma cosine_path_division_witness :
  dot_product (vec32 [3; 4]) (vec32 [4; 3]) = f64_of_int 24
  /\ squared_norm (vec32 [3; 4]) = f64_of_int 25
  /\ squared_norm (vec32 [4; 3]) = f64_of_int 25
  /\ cosineSimilarity (vec32 [3; 4]) (vec32 [4; 3])
     = f64_div (f64_of_int 24) (f64_mul (f64_sqrt (f64_of_int 25)) (f64_sqrt (f64_of_int 25)))
  /\ cosine_path (vec32 [3; 4]) (vec32 [4; 3])
     = Division (f64_of_int 24) (f64_of_int 25).
Proof.
  destruct (cosine_path_division (vec32 [3; 4]) (vec32 [4; 3])) as [Hvalue _].
  split; [reflexivity|]. split; [reflexivity|]. split; [reflexivity|].
  split; [|reflexivity].
  apply Hvalue; [discriminate|reflexivity|reflexivity|reflexivity].
Defined.

Lemma byte_snippet_ascii_witness :
  byte_snippet (runes_of "Short text.") = character_snippet (runes_of "Short text.").
Proof.
  apply byte_snippet_ascii.
  apply (bool_decide_unpack _). vm_compute. exact I.
Defined.

#[local] Existing Instance Reference.spec_json.

Lemma float32_serialization_roundtrip_witness :
  bytesToFloat32Slice (float32SliceToBytes (vec32 [1; -2; 0; 100])) = vec32 [1; -2; 0; 100]
  /\ length (float32SliceToBytes (vec32 [1; -2; 0; 100])) = (4 * 4)%nat
  /\ Forall (fun b => 0 <= b < 256) (float32SliceToBytes (vec32 [1; -2; 0; 100])).
Proof.
  apply (float32_serialization_roundtrip (vec32 [1; -2; 0; 100])).
  repeat constructor; vm_compute; done.
Defined.

Lemma stored_dimension_mismatch_witness :
  Z.of_nat (length (bytesToFloat32Slice (float32SliceToBytes (vec32 [4; 3])))) = 8 / 4
  /\ cosineSimilarity (vec32 [2; 1; 0])
       (bytesToFloat32Slice (float32SliceToBytes (vec32 [4; 3]))) = f64_of_int 0.
Proof.
  destruct (stored_dimension_mismatch (vec32 [2; 1; 0])
              (float32SliceToBytes (vec32 [4; 3]))) as (Hlen & _ & Hzero & _).
  - vm_compute. discriminate.
  - split; [exact Hlen|exact Hzero].
Defined.

Lemma chunkText_chunk_length_witness :
  chunkText 20 (config 10 0) (runes_of "aaaaaaaaaa. bbbb")
  = Some (Returned [runes_of "aaaaaaaaaa."; runes_of "bbbb"])
  /\ rune_count (runes_of "aaaaaaaaaa.") = 10 + 1
  /\ Forall (fun c => 1 <= rune_count c <= 10 + 1)
            [runes_of "aaaaaaaaaa."; runes_of "bbbb"].
Proof.
  split; [reflexivity|]. split; [reflexivity|].
  apply (chunkText_chunk_length (config 10 0) (runes_of "aaaaaaaaaa. bbbb") 20).
  - simpl. lia.
  - reflexivity.
Defined.

Lemma chunkText_chunks_trimmed_witness :
  Forall (fun c => TrimSpace c = c
                   /\ (forall r, head c = Some r -> unicode_IsSpace r = false)
                   /\ (forall r, last c = Some r -> unicode_IsSpace r = false))
         [runes_of "One. Two"; runes_of "wo three"; runes_of "ee four";
          runes_of "ur five."; runes_of "e. Six"; runes_of "ix seven"].
Proof.
  apply (chunkText_chunks_trimmed (config 10 2)
           (runes_of "  One. Two three four five. Six seven  ") 40).
  - simpl. lia.
  - reflexivity.
Defined.

(** A database that cannot be reached. *)
Definition locked_store : DB :=
  {| documents := sample_documents; trigrams := postings sample_documents;
     embeddings := []; conn_err := Some "database is locked" |}.

Lemma SearchVectors_ranking_witness :
  exists ranking : list SearchResult,
    SearchVectors sample_store (vec32 [2; 1; 0]) 2
    = ([SelectEmbeddings], Ok (take 2 ranking))
    /\ length ranking = 3%nat
    /\ sorted_by (fun x y => f64_gtb (Score x) (Score y)) ranking.
Proof.
  destruct (SearchVectors_ranking sample_store (vec32 [2; 1; 0]) 2)
    as (ranking & Hrun & _ & _ & Hschema & Hsorted); [reflexivity|lia|].
  exists ranking. split; [exact Hrun|]. split.
  - by destruct (Hschema sample_store_schema) as [-> _].
  - apply Hsorted. vm_compute. reflexivity.
Defined.

Lemma negative_limit_panics_witness :
  outcome (SearchVectors sample_store (vec32 [2; 1; 0]) (-1)) = Panic
  /\ outcome (HybridSearch sample_store (runes_of "right of access") None (-1)) = Panic
  /\ outcome (HybridSearch sample_store (runes_of "right of access")
                (Some (vec32 [2; 1; 0])) (-1)) = Panic.
Proof.
  destruct (negative_limit_panics sample_store (runes_of "right of access")
              (vec32 [2; 1; 0]) (-1)) as (Hvec & Hhybrid & _); [reflexivity|lia|].
  split; [exact Hvec|]. apply Hhybrid. vm_compute. reflexivity.
Defined.

Lemma SearchTrigrams_short_query_witness :
  GenerateTrigrams (strings_ToLower (runes_of "ab")) = []
  /\ SearchTrigrams locked_store (runes_of "ab") 10 = ([], Ok [])
  /\ (0 <= 10 -> HybridSearch locked_store (runes_of "ab") None 10 = ([], Ok [])).
Proof.
  apply (SearchTrigrams_short_query locked_store (runes_of "ab") 10).
  vm_compute. reflexivity.
Defined.

Lemma unreachable_database_errors_witness :
  GetDocument locked_store 1
  = ([SelectDocument 1], Err "failed to get document: database is locked")
  /\ SearchVectors locked_store (vec32 [2; 1; 0]) 10
     = ([SelectEmbeddings], Err "failed to query embeddings: database is locked")
  /\ handleGetTool locked_store 7 (Decoded 1)
     = Server.writeToolError 7
         "Failed to get document: failed to get document: database is locked".
Proof.
  destruct (unreachable_database_errors locked_store "database is locked"
              (runes_of "right of access") (vec32 [2; 1; 0]) 10 1 7)
    as (Hget & Hvec & _ & _ & Htool); [reflexivity|].
  split; [exact Hget|]. split; [exact Hvec|]. apply Htool. lia.
Defined.

Lemma HybridSearch_bounded_witness :
  outcome (HybridSearch sample_store (runes_of "right of access")
             (Some (vec32 [2; 1; 0])) 2) <> Panic
  /\ exists results,
       outcome (HybridSearch sample_store (runes_of "right of access")
                  (Some (vec32 [2; 1; 0])) 2) = Ok results
       /\ Z.of_nat (length results) <= 2
       /\ NoDup (map ID results).
Proof.
  destruct (HybridSearch_bounded sample_store (runes_of "right of access")
              (Some (vec32 [2; 1; 0])) 2) as (Hpanic & Hreach & Hres); [lia|].
  split; [exact Hpanic|].
  destruct (Hreach eq_refl ltac:(vm_compute; reflexivity)) as [results Hout].
  exists results. destruct (Hres results Hout) as (Hlen & _ & Hnd).
  split; [exact Hout|]. split; [exact Hlen|].
  apply Hnd. apply sample_store_schema.
Defined.

Lemma get_stored_document_witness :
  GetDocument sample_store 2
  = ([SelectDocument 2],
     Ok (Some {| Document_ID := 2;
                 Chunk := runes_of "Article 17 - Right to erasure (right to be forgotten)";
                 ChunkIndex := 1 |}))
  /\ handleGetTool sample_store 7 (Decoded 2)
     = Server.writeToolResult 7
         (DocumentJSON 2 (runes_of "Article 17 - Right to erasure (right to be forgotten)") 1).
Proof.
  destruct (get_stored_document sample_store 7
              {| Document_ID := 2;
                 Chunk := runes_of "Article 17 - Right to erasure (right to be forgotten)";
                 ChunkIndex := 1 |}) as [Hget Htool].
  - reflexivity.
  - apply sample_store_schema.
  - apply list_elem_of_In. simpl. tauto.
  - split; [exact Hget|]. apply Htool. simpl. lia.
Defined.

(** The server without and with the embeddings provider. *)
Definition stub_config : Mcp.Config :=
  {| Mcp.DBPath := "gdpr.db"; Mcp.UseOpenAI := false; Mcp.OpenAIKey := "";
     Mcp.OpenAIModel := "text-embedding-3-small" |}.

Definition provider_config : Mcp.Config :=
  {| Mcp.DBPath := "gdpr.db"; Mcp.UseOpenAI := true; Mcp.OpenAIKey := "key";
     Mcp.OpenAIModel := "text-embedding-3-small" |}.


Lemma handleSearchTool_limit_overflow_witness :
  wrap_int (2 ^ 62 * 2) < 0
  /\ Mcp.handleSearchTool stub_config sample_store (Failed "not called") 7
       (Decoded (runes_of "right of access", 2 ^ 62)) = Mcp.Died.
Proof.
  apply (handleSearchTool_limit_overflow stub_config sample_store (Failed "not called") 7
           (runes_of "right of access") (2 ^ 62)).
  - reflexivity.
  - discriminate.
  - vm_compute. reflexivity.
  - lia.
  - left. reflexivity.
Defined.

Lemma handleSearchTool_provider_failure_witness :
  Mcp.handleSearchTool provider_config sample_store (Failed "timeout") 7
    (Decoded (runes_of "right of access", 2))
  = match outcome (SearchTrigrams sample_store (runes_of "right of access") 2) with
    | Ok results =>
        match Mcp.json_Marshal results with
        | Some e => Mcp.writeToolError 7 ("Failed to marshal results: " +:+ e)
        | None => Mcp.writeToolResult 7 (Mcp.ResultsJSON results)
        end
    | Err e => Mcp.writeToolError 7 ("Search failed: " +:+ e)
    | Panic => Mcp.Died
    end.
Proof.
  apply (handleSearchTool_provider_failure provider_config sample_store "timeout" 7
           (runes_of "right of access") 2).
  - reflexivity.
  - discriminate.
  - discriminate.
  - lia.
Defined.

(** The sample store with its other tables, and a store without rows. *)
Definition sample_state : Store :=
  {| tables := sample_store; metadata := ∅; documents_seq := 3 |}.

Definition empty_state : Store :=
  {| tables := {| documents := []; trigrams := []; embeddings := []; conn_err := None |};
     metadata := ∅; documents_seq := 0 |}.


Lemma InsertChunk_GetDocument_witness :
  exists s' id,
    InsertChunk sample_state (runes_of "Article 21 - Right to object") 3 = (s', Ok id)
    /\ 0 < id
    /\ GetDocument (tables s') id
       = ([SelectDocument id],
          Ok (Some {| Document_ID := id; Chunk := runes_of "Article 21 - Right to object";
                      ChunkIndex := 3 |})).
Proof.
  destruct (InsertChunk_GetDocument sample_state (runes_of "Article 21 - Right to object") 3)
    as (s' & id & Hrun & Hpos & _ & Hget & _).
  - reflexivity.
  - vm_compute. discriminate.
  - exists s', id. split; [exact Hrun|]. split; [exact Hpos|exact Hget].
Defined.

Lemma SetMetadata_GetMetadata_witness :
  exists s',
    SetMetadata sample_state (runes_of "test_key") (runes_of "test_value") = (s', Ok tt)
    /\ GetMetadata s' (runes_of "test_key") = Ok (runes_of "test_value")
    /\ GetMetadata sample_state (runes_of "nonexistent") = Ok [].
Proof.
  destruct (SetMetadata_GetMetadata sample_state (runes_of "test_key")
              (runes_of "test_value")) as (s' & Hset & Hget & _ & Hmissing & _).
  - reflexivity.
  - exists s'. split; [exact Hset|]. split; [exact Hget|]. apply Hmissing. reflexivity.
Defined.

Lemma writes_keep_schema_witness :
  schema_ok (tables (InsertChunk sample_state (runes_of "Article 21") 3).1)
  /\ schema_ok (tables (InsertTrigrams sample_state 2 [runes_of "art"]).1)
  /\ schema_ok (tables (InsertEmbedding sample_state 2 (vec32 [0; 0; 1])).1)
  /\ schema_ok (tables (SetMetadata sample_state (runes_of "k") (runes_of "v")).1).
Proof.
  apply (writes_keep_schema sample_state (runes_of "Article 21") (runes_of "k")
           (runes_of "v") 3 2 [runes_of "art"] (vec32 [0; 0; 1])).
  apply sample_store_schema.
Defined.

Lemma InsertEmbedding_replaces_witness :
  exists s',
    InsertEmbedding sample_state 2 (vec32 [0; 0; 1]) = (s', Ok tt)
    /\ (forall blob, (2, blob) ∈ embeddings (tables s')
                     <-> blob = float32SliceToBytes (vec32 [0; 0; 1]))
    /\ length (filter (fun row => row.1 = 2) (embeddings (tables s'))) = 1%nat.
Proof.
  destruct (InsertEmbedding_replaces sample_state 2 (vec32 [0; 0; 1]))
    as (s' & Hrun & Hrow & _ & Hone & _).
  - reflexivity.
  - apply list_elem_of_In. simpl. tauto.
  - exists s'. split; [exact Hrun|]. split; [exact Hrow|exact Hone].
Defined.

(** A text of six chunks for windows of ten characters. *)
Definition sample_text : text := runes_of "  One. Two three four five. Six seven  ".

Definition sample_chunks : list text :=
  [runes_of "One. Two"; runes_of "wo three"; runes_of "ee four";
   runes_of "ur five."; runes_of "e. Six"; runes_of "ix seven"].



Lemma IngestText_blank_text_witness :
  exists s',
    IngestText 0 (DefaultConfig "") (fun _ => Failed "not called")
      (runes_of "2024-01-01T00:00:00Z") empty_state (runes_of "   ")
    = Some (s', [Ingesting 0; Ingested 0], Ok tt)
    /\ tables s' = tables empty_state
    /\ GetMetadata s' (runes_of "chunk_count") = Ok (runes_of "0")
    /\ GetMetadata s' (runes_of "ingested_at") = Ok (runes_of "2024-01-01T00:00:00Z").
Proof.
  apply (IngestText_blank_text 0 (DefaultConfig "") (fun _ => Failed "not called")
           (runes_of "2024-01-01T00:00:00Z") empty_state (runes_of "   "));
    reflexivity.
Defined.

Definition locked_state : Store :=
  {| tables := locked_store; metadata := ∅; documents_seq := 3 |}.

Lemma IngestText_unreachable_witness :
  IngestText 40 (config 10 2) (fun _ => Failed "not called")
    (runes_of "2024-01-01T00:00:00Z") locked_state sample_text
  = Some (locked_state, [Ingesting 6],
          Err "failed to insert chunk 0: failed to insert chunk: database is locked").
Proof.
  apply (IngestText_unreachable 40 (config 10 2) (fun _ => Failed "not called")
           (runes_of "2024-01-01T00:00:00Z") locked_state sample_text sample_chunks
           "database is locked"); reflexivity.
Defined.

End Examples.
